(** * Path-guided SGD 1-D layout (odgi [path_sgd.cpp]): a shallow embedding

    The development follows [odgi::algorithms::path_linear_sgd],
    [path_linear_sgd_schedule], [deterministic_path_linear_sgd] and
    [path_linear_sgd_order].

    Number model.
    - [uint64_t] / [size_t] values are integers in [Z]; every operation that
      can leave the range [0, 2^64) is wrapped with [u64].
    - [double] values are idealised as real numbers ([R]); [==] and [<] on
      doubles are the decidable comparisons of [R].  Where the source can
      divide by zero or take the logarithm of a non-positive number the
      IEEE result is infinite or NaN; the model records that as [None]. *)

From Stdlib Require Import ZArith List Bool Reals Lra Lia Psatz Permutation Sorted.
From Stdlib Require Import Floats.
From Stdlib Require Strings.String.
Import String.StringSyntax.
Delimit Scope string_scope with string.
Import ListNotations.

Local Open Scope Z_scope.

(** ** Option monad used for partial (non-finite / undefined) results *)

Definition obind {A B} (m : option A) (k : A -> option B) : option B :=
  match m with
  | Some a => k a
  | None => None
  end.

Notation "x <- m ;; k" := (obind m (fun x => k))
  (at level 61, m at next level, right associativity).

(** ** Machine integers *)

Definition two64 : Z := 2 ^ 64.

Definition u64 (x : Z) : Z := x mod two64.

(** ** Doubles

    In the drivers and in the schedule a [double] is read as a real number
    and its operations as the exact ones: the results below about these
    definitions are about the order of operations, the branches taken, what
    is written where, and inequalities that rounding to nearest preserves.
    Statements that depend on the rounding itself (sums that cancel, values
    reached exactly) are made about [Kernel] further down, where every
    operation is rounded or is the binary64 operation. *)

(** [a / b] on doubles; a zero divisor gives an infinity or NaN. *)
Definition fdiv (a b : R) : option R :=
  if Req_dec_T b 0 then None else Some (a / b)%R.

(** [log(x)]; finite only for positive [x]. *)
Definition flog (x : R) : option R :=
  if Rlt_dec 0 x then Some (ln x) else None.

Definition feqb (a b : R) : bool := if Req_dec_T a b then true else false.
Definition fltb (a b : R) : bool := if Rlt_dec a b then true else false.
Definition fgtb (a b : R) : bool := fltb b a.

(** The literal [1e-9]. *)
Definition tiny : R := (1 / 1000000000)%R.

(** ** Learning-rate schedule: [path_linear_sgd_schedule] *)

Module Schedule.

(** The loop counter [t] runs over [0 .. iter_max - 1]. *)
Definition iterations (iter_max : Z) : list Z :=
  map Z.of_nat (seq 0 (Z.to_nat iter_max)).

Definition eta_at (eta_max lambda : R) (peak t : Z) : R :=
  (eta_max * exp (- lambda * IZR (Z.abs (t - peak))))%R.

Definition path_linear_sgd_schedule
    (w_min w_max : R) (iter_max iter_with_max_learning_rate : Z) (eps : R)
    : option (list R) :=
  eta_max <- fdiv 1 w_min ;;
  eta_min <- fdiv eps w_max ;;
  ratio <- fdiv eta_max eta_min ;;
  lg <- flog ratio ;;
  lambda <- fdiv lg (IZR iter_max - 1) ;;
  Some (map (eta_at eta_max lambda iter_with_max_learning_rate)
            (iterations iter_max)).

(** The decay rate the schedule uses, as the specification writes it. *)
Definition rate (w_min w_max : R) (iter_max : Z) (eps : R) : R :=
  (ln ((1 / w_min) / (eps / w_max)) / (IZR iter_max - 1))%R.

End Schedule.

(** ** Vectors

    [std::vector::operator[]] is defined only for indices below [size()];
    an access outside is undefined behaviour and is recorded as [None]. *)

Definition vec_get {A} (v : list A) (i : nat) : option A := nth_error v i.

Fixpoint vec_set {A} (v : list A) (i : nat) (a : A) : option (list A) :=
  match v, i with
  | [], _ => None
  | _ :: t, O => Some (a :: t)
  | x :: t, S k => t' <- vec_set t k a ;; Some (x :: t')
  end.

(** [v.resize(n)] on a fresh vector of integers or doubles. *)
Definition vec_resize {A} (zero : A) (n : Z) : list A := repeat zero (Z.to_nat n).

(** [v.clear()]: the vector keeps no element. *)
Definition vec_clear {A} (v : list A) : list A := [].

(** ** Graph and path index: the read-only interfaces the engine consumes *)

(** [as_integer(handle)]. *)
Definition handle_t := Z.
(** [as_integer(path)]. *)
Definition path_handle_t := Z.
(** [as_integers(step)[0]] is the path, [as_integers(step)[1]] the step rank. *)
Definition step_handle_t := (Z * Z)%type.
Definition nid_t := Z.

Record PathHandleGraph := {
  get_node_count : Z;
  (** the handles, in the order [for_each_handle] visits them *)
  for_each_handle : list handle_t;
  get_length : handle_t -> Z;
  get_is_reverse : handle_t -> bool;
  (** [number_bool_packing::unpack_number] *)
  unpack_number : handle_t -> nat
}.

Record XP := {
  get_path_length : path_handle_t -> Z;
  get_step_at_position : path_handle_t -> Z -> step_handle_t;
  get_handle_of_step : step_handle_t -> handle_t;
  get_position_of_step : step_handle_t -> Z;
  np_bv : Z -> bool;
  np_bv_size : Z;
  nr_iv : Z -> Z;
  npi_iv : Z -> Z;
  np_bv_select : Z -> Z
}.

(** ** Path-interval tree *)

Record interval := { iv_st : Z; iv_en : Z; iv_data : path_handle_t }.

Definition IITree := list interval.

(** [tree.add(st, en, data)] *)
Definition iitree_add (t : IITree) (st en : Z) (d : path_handle_t) : IITree :=
  t ++ [{| iv_st := st; iv_en := en; iv_data := d |}].

(** Modelled from the spec: [IITree::overlap], whose implementation (the
    cgranges implicit interval tree) is not part of the sources.  The query
    [overlap(st, en)] yields the stored half-open intervals that intersect
    the half-open query range. *)
Definition iitree_overlap (t : IITree) (st en : Z) : list interval :=
  filter (fun iv => (iv_st iv <? en) && (st <? iv_en iv)) t.

(** State of the loop that builds the tree: the tree, the total and the
    longest path length. *)
Record tree_build := {
  path_nucleotide_tree : IITree;
  total_path_len_in_nucleotides : Z;
  longest_path_in_nucleotides : Z
}.

(** ** Shared state of a run and the random generator *)

Record sgd_state := {
  X : list R;
  term_updates : Z;
  eta : R;
  Delta_max : R
}.

(** The generator is the sequence of values its distributions return, in the
    order the code asks for them. *)
Record rng := { draws : nat -> Z; cursor : nat }.

Definition draw (gen : rng) : Z * rng :=
  (draws gen (cursor gen), {| draws := draws gen; cursor := S (cursor gen) |}).

(** What the mode selection at the top of the loop body yields. *)
Inductive pick_result :=
| Picked (path : path_handle_t) (pos_in_path_a path_len : Z) (gen : rng)
| PickContinue (gen : rng)
| PickExit (pos : Z).

(** What one pass through the loop body yields. *)
Inductive outcome :=
| Updated (i j : nat) (d_ij : R) (s : sgd_state) (gen : rng)
| Continue (s : sgd_state) (gen : rng)
| Exit (pos : Z)
| Undefined.

(** ** The concurrent driver: [path_linear_sgd] *)

Module Worker.

(** The callback given to [for_each_handle]: store the running length at the
    handle's number, then add the handle's length. *)
Definition seed_step (graph : PathHandleGraph) (acc : option (list R * Z))
    (handle : handle_t) : option (list R * Z) :=
  a <- acc ;;
  X' <- vec_set (fst a) (unpack_number graph handle) (IZR (snd a)) ;;
  Some (X', u64 (snd a + get_length graph handle)).

(** Seeding of [X] (the [for_each_handle] loop at the top of the driver). *)
Definition seed_X (graph : PathHandleGraph) : option (list R) :=
  let num_nodes := get_node_count graph in
  r <- fold_left (seed_step graph) (for_each_handle graph)
         (Some (vec_resize 0%R num_nodes, 0)) ;;
  Some (fst r).

(** The loop over [path_sgd_use_paths] that fills the interval tree. *)
Definition add_path (path_index : XP) (b : tree_build) (path : path_handle_t)
    : tree_build :=
  let path_len := get_path_length path_index path in
  let total := total_path_len_in_nucleotides b in
  {| path_nucleotide_tree :=
       iitree_add (path_nucleotide_tree b) total (u64 (total + path_len)) path;
     total_path_len_in_nucleotides := u64 (total + path_len);
     longest_path_in_nucleotides :=
       if path_len >? longest_path_in_nucleotides b
       then path_len else longest_path_in_nucleotides b |}.

Definition build_tree (path_index : XP) (path_sgd_use_paths : list path_handle_t)
    : tree_build :=
  fold_left (add_path path_index) path_sgd_use_paths
    {| path_nucleotide_tree := [];
       total_path_len_in_nucleotides := 0;
       longest_path_in_nucleotides := 0 |}.

(** The shared state when the threads start: seeded [X], no update counted,
    the first learning rate, [Delta_max] at zero.  The schedule receives
    [w_min = 1 / eta_max] and computes its own maximum as [1 / w_min]. *)
Definition initial_state (graph : PathHandleGraph)
    (iter_max iter_with_max_learning_rate : Z) (eps eta_max : R)
    : option sgd_state :=
  X0 <- seed_X graph ;;
  w_min <- fdiv 1 eta_max ;;
  let w_max := 1%R in
  etas <- Schedule.path_linear_sgd_schedule
            w_min w_max iter_max iter_with_max_learning_rate eps ;;
  eta0 <- vec_get etas 0 ;;
  Some {| X := X0; term_updates := 0; eta := eta0; Delta_max := 0 |}.

(** The range of [dis], after the two conditional reassignments. *)
Definition dis_bounds (path_index : XP) (num_nodes total : Z)
    (sample_from_paths sample_from_nodes : bool) : Z * Z :=
  let dis := (0, u64 (total - 1)) in
  let dis := if negb sample_from_paths
             then (0, u64 (np_bv_size path_index - 1)) else dis in
  let dis := if sample_from_nodes then (1, num_nodes) else dis in
  dis.

(** Number of paths on the node of rank [pos]: the entries between its
    boundary bit and the next one. *)
Definition hit_num_paths_of (path_index : XP) (num_nodes pos : Z) : Z :=
  let node_index := np_bv_select path_index pos in
  let next_node_index :=
    if pos =? num_nodes then np_bv_size path_index
    else np_bv_select path_index (u64 (pos + 1)) in
  u64 (next_node_index - node_index - 1).

(** Mode selection: from the drawn [pos] to a path, a position in it and the
    last position of the path. *)
Definition pick (path_index : XP) (tree : IITree) (num_nodes : Z)
    (sample_from_paths sample_from_nodes : bool) (pos : Z) (gen : rng)
    : pick_result :=
  if sample_from_paths then
    match iitree_overlap tree pos (u64 (pos + 1)) with
    | [] => PickExit pos
    | p :: _ =>
        let path := iv_data p in
        let path_start_pos := iv_st p in
        let path_len := u64 (get_path_length path_index path - 1) in
        let pos_in_path_a := u64 (pos - path_start_pos) in
        Picked path pos_in_path_a path_len gen
    end
  else if sample_from_nodes then
    let node_index := np_bv_select path_index pos in
    let hit_num_paths := hit_num_paths_of path_index num_nodes pos in
    if hit_num_paths =? 0 then PickContinue gen
    else
      let (path_pos_in_np_iv, gen) := draw gen in
      let path_pos_in_np_iv := u64 (node_index + path_pos_in_np_iv) in
      let path_i := npi_iv path_index path_pos_in_np_iv in
      let path := path_i in
      let s_h := (path_i, u64 (nr_iv path_index path_pos_in_np_iv - 1)) in
      let pos_in_path_a := get_position_of_step path_index s_h in
      let path_len := u64 (get_path_length path_index path - 1) in
      Picked path pos_in_path_a path_len gen
  else
    if np_bv path_index pos then PickContinue gen
    else
      let path_i := npi_iv path_index pos in
      let path := path_i in
      let s_h := (path_i, u64 (nr_iv path_index pos - 1)) in
      let pos_in_path_a := get_position_of_step path_index s_h in
      let path_len := u64 (get_path_length path_index path - 1) in
      Picked path pos_in_path_a path_len gen.

(** The second position: [zipf_int] away from the first, in the direction
    [flip] chose; [None] is [continue]. *)
Definition second_position (pos_in_path_a path_len zipf_int flip : Z) : option Z :=
  let pos_in_path_b := pos_in_path_a in
  if negb (flip =? 0) then
    if zipf_int >? pos_in_path_a then
      if pos_in_path_a =? 0 then None
      else
        let zipf_int := zipf_int mod pos_in_path_a in
        Some (u64 (pos_in_path_b - zipf_int))
    else Some (u64 (pos_in_path_b - zipf_int))
  else
    if zipf_int >? u64 (path_len - pos_in_path_a) then
      if u64 (path_len - pos_in_path_a) =? 0 then None
      else
        let zipf_int := zipf_int mod u64 (path_len - pos_in_path_a) in
        Some (u64 (pos_in_path_b + zipf_int))
    else Some (u64 (pos_in_path_b + zipf_int)).

(** The two handles of the term and their distance along the path. *)
Definition term_of (graph : PathHandleGraph) (path_index : XP)
    (path : path_handle_t) (pos_in_path_a pos_in_path_b : Z)
    : handle_t * handle_t * R :=
  let step_a := get_step_at_position path_index path pos_in_path_a in
  let step_b := get_step_at_position path_index path pos_in_path_b in
  let term_i := get_handle_of_step path_index step_a in
  let term_j := get_handle_of_step path_index step_b in
  let pos_in_path_a := get_position_of_step path_index step_a in
  let pos_in_path_b := get_position_of_step path_index step_b in
  let pos_in_path_a :=
    if get_is_reverse graph term_i
    then u64 (pos_in_path_a + get_length graph term_i) else pos_in_path_a in
  let pos_in_path_b :=
    if get_is_reverse graph term_j
    then u64 (pos_in_path_b + get_length graph term_j) else pos_in_path_b in
  let term_dist := Rabs (IZR pos_in_path_a - IZR pos_in_path_b) in
  (term_i, term_j, term_dist).

(** Quantities of the update, named as in the source.  The two quotients
    [1.0 / term_dist] and [Delta / mag] are taken where the divisor is not
    zero: the body has left with [continue] on [term_dist == 0], and [dx] is
    replaced when it is zero. *)
Definition mu_of (eta term_dist : R) : R :=
  let term_weight := (1 / term_dist)%R in
  let w_ij := term_weight in
  let mu := (eta * w_ij)%R in
  if fgtb mu 1 then 1%R else mu.

Definition dx_of (Xi Xj : R) : R :=
  let dx := (Xi - Xj)%R in
  if feqb dx 0 then tiny else dx.

Definition mag_of (Xi Xj : R) : R := Rabs (dx_of Xi Xj).

Definition Delta_of (eta term_dist Xi Xj : R) : R :=
  let mu := mu_of eta term_dist in
  let d_ij := term_dist in
  (mu * (mag_of Xi Xj - d_ij) / 2)%R.

Definition r_x_of (eta term_dist Xi Xj : R) : R :=
  let r := (Delta_of eta term_dist Xi Xj / mag_of Xi Xj)%R in
  (r * dx_of Xi Xj)%R.

(** The update of [X], [Delta_max] and [term_updates] for one term.  Run on
    its own, the loop [while (Delta_abs > Delta_max.load())] stores once when
    [Delta_abs] is larger and not at all otherwise. *)
Definition update (s : sgd_state) (i j : nat) (term_dist : R) : option sgd_state :=
  Xi <- vec_get (X s) i ;;
  Xj <- vec_get (X s) j ;;
  let Delta_abs := Rabs (Delta_of (eta s) term_dist Xi Xj) in
  let Delta_max' :=
    if fgtb Delta_abs (Delta_max s) then Delta_abs else Delta_max s in
  let r_x := r_x_of (eta s) term_dist Xi Xj in
  Xi' <- vec_get (X s) i ;;
  X1 <- vec_set (X s) i (Xi' - r_x)%R ;;
  Xj' <- vec_get X1 j ;;
  X2 <- vec_set X1 j (Xj' + r_x)%R ;;
  Some {| X := X2;
          term_updates := u64 (term_updates s + 1);
          eta := eta s;
          Delta_max := Delta_max' |}.

(** One pass through the body of the [while (work_todo.load())] loop. *)
Definition loop_body (graph : PathHandleGraph) (path_index : XP) (tree : IITree)
    (sample_from_paths sample_from_nodes : bool)
    (s : sgd_state) (gen : rng) : outcome :=
  let num_nodes := get_node_count graph in
  let (pos, gen) := draw gen in
  match pick path_index tree num_nodes sample_from_paths sample_from_nodes pos gen with
  | PickExit pos => Exit pos
  | PickContinue gen => Continue s gen
  | Picked path pos_in_path_a path_len gen =>
      let (zipf_int, gen) := draw gen in
      let (flip, gen) := draw gen in
      match second_position pos_in_path_a path_len zipf_int flip with
      | None => Continue s gen
      | Some pos_in_path_b =>
          let '(term_i, term_j, term_dist) :=
            term_of graph path_index path pos_in_path_a pos_in_path_b in
          if feqb term_dist 0 then Continue s gen
          else
            let d_ij := term_dist in
            let i := unpack_number graph term_i in
            let j := unpack_number graph term_j in
            match update s i j term_dist with
            | None => Undefined
            | Some s' => Updated i j d_ij s' gen
            end
      end
  end.

End Worker.

(** ** The deterministic driver: [deterministic_path_linear_sgd] *)

Module Deterministic.

(** The callback given to [for_each_handle]: store the running length at the
    handle's number, then add the handle's length. *)
Definition seed_step (graph : PathHandleGraph) (acc : option (list R * Z))
    (handle : handle_t) : option (list R * Z) :=
  a <- acc ;;
  X' <- vec_set (fst a) (unpack_number graph handle) (IZR (snd a)) ;;
  Some (X', u64 (snd a + get_length graph handle)).

(** Seeding of [X] (the [for_each_handle] loop at the top of the driver). *)
Definition seed_X (graph : PathHandleGraph) : option (list R) :=
  let num_nodes := get_node_count graph in
  r <- fold_left (seed_step graph) (for_each_handle graph)
         (Some (vec_resize 0%R num_nodes, 0)) ;;
  Some (fst r).

(** The loop over [path_sgd_use_paths] that fills the interval tree. *)
Definition add_path (path_index : XP) (b : tree_build) (path : path_handle_t)
    : tree_build :=
  let path_len := get_path_length path_index path in
  let total := total_path_len_in_nucleotides b in
  {| path_nucleotide_tree :=
       iitree_add (path_nucleotide_tree b) total (u64 (total + path_len)) path;
     total_path_len_in_nucleotides := u64 (total + path_len);
     longest_path_in_nucleotides :=
       if path_len >? longest_path_in_nucleotides b
       then path_len else longest_path_in_nucleotides b |}.

Definition build_tree (path_index : XP) (path_sgd_use_paths : list path_handle_t)
    : tree_build :=
  fold_left (add_path path_index) path_sgd_use_paths
    {| path_nucleotide_tree := [];
       total_path_len_in_nucleotides := 0;
       longest_path_in_nucleotides := 0 |}.

(** The shared state before the first iteration: seeded [X], no update counted,
    the first learning rate, [Delta_max] at zero. *)
Definition initial_state (graph : PathHandleGraph)
    (iter_max iter_with_max_learning_rate : Z) (eps eta_max : R)
    : option sgd_state :=
  X0 <- seed_X graph ;;
  w_min <- fdiv 1 eta_max ;;
  let w_max := 1%R in
  etas <- Schedule.path_linear_sgd_schedule
            w_min w_max iter_max iter_with_max_learning_rate eps ;;
  eta0 <- vec_get etas 0 ;;
  Some {| X := X0; term_updates := 0; eta := eta0; Delta_max := 0 |}.

(** The range of [dis], after the two conditional reassignments. *)
Definition dis_bounds (path_index : XP) (num_nodes total : Z)
    (sample_from_paths sample_from_nodes : bool) : Z * Z :=
  let dis := (0, u64 (total - 1)) in
  let dis := if negb sample_from_paths
             then (0, u64 (np_bv_size path_index - 1)) else dis in
  let dis := if sample_from_nodes then (1, num_nodes) else dis in
  dis.

(** Number of paths on the node of rank [pos]: the entries between its
    boundary bit and the next one. *)
Definition hit_num_paths_of (path_index : XP) (num_nodes pos : Z) : Z :=
  let node_index := np_bv_select path_index pos in
  let next_node_index :=
    if pos =? num_nodes then np_bv_size path_index
    else np_bv_select path_index (u64 (pos + 1)) in
  u64 (next_node_index - node_index - 1).

(** Mode selection: from the drawn [pos] to a path, a position in it and the
    last position of the path. *)
Definition pick (path_index : XP) (tree : IITree) (num_nodes : Z)
    (sample_from_paths sample_from_nodes : bool) (pos : Z) (gen : rng)
    : pick_result :=
  if sample_from_paths then
    match iitree_overlap tree pos (u64 (pos + 1)) with
    | [] => PickExit pos
    | p :: _ =>
        let path := iv_data p in
        let path_start_pos := iv_st p in
        let path_len := u64 (get_path_length path_index path - 1) in
        let pos_in_path_a := u64 (pos - path_start_pos) in
        Picked path pos_in_path_a path_len gen
    end
  else if sample_from_nodes then
    let node_index := np_bv_select path_index pos in
    let hit_num_paths := hit_num_paths_of path_index num_nodes pos in
    if hit_num_paths =? 0 then PickContinue gen
    else
      let (path_pos_in_np_iv, gen) := draw gen in
      let path_pos_in_np_iv := u64 (node_index + path_pos_in_np_iv) in
      let path_i := npi_iv path_index path_pos_in_np_iv in
      let path := path_i in
      let s_h := (path_i, u64 (nr_iv path_index path_pos_in_np_iv - 1)) in
      let pos_in_path_a := get_position_of_step path_index s_h in
      let path_len := u64 (get_path_length path_index path - 1) in
      Picked path pos_in_path_a path_len gen
  else
    if np_bv path_index pos then PickContinue gen
    else
      let path_i := npi_iv path_index pos in
      let path := path_i in
      let s_h := (path_i, u64 (nr_iv path_index pos - 1)) in
      let pos_in_path_a := get_position_of_step path_index s_h in
      let path_len := u64 (get_path_length path_index path - 1) in
      Picked path pos_in_path_a path_len gen.

(** The second position: [zipf_int] away from the first, in the direction
    [flip] chose; [None] is [continue]. *)
Definition second_position (pos_in_path_a path_len zipf_int flip : Z) : option Z :=
  let pos_in_path_b := pos_in_path_a in
  if negb (flip =? 0) then
    if zipf_int >? pos_in_path_a then
      if pos_in_path_a =? 0 then None
      else
        let zipf_int := zipf_int mod pos_in_path_a in
        Some (u64 (pos_in_path_b - zipf_int))
    else Some (u64 (pos_in_path_b - zipf_int))
  else
    if zipf_int >? u64 (path_len - pos_in_path_a) then
      if u64 (path_len - pos_in_path_a) =? 0 then None
      else
        let zipf_int := zipf_int mod u64 (path_len - pos_in_path_a) in
        Some (u64 (pos_in_path_b + zipf_int))
    else Some (u64 (pos_in_path_b + zipf_int)).

(** The two handles of the term and their distance along the path. *)
Definition term_of (graph : PathHandleGraph) (path_index : XP)
    (path : path_handle_t) (pos_in_path_a pos_in_path_b : Z)
    : handle_t * handle_t * R :=
  let step_a := get_step_at_position path_index path pos_in_path_a in
  let step_b := get_step_at_position path_index path pos_in_path_b in
  let term_i := get_handle_of_step path_index step_a in
  let term_j := get_handle_of_step path_index step_b in
  let pos_in_path_a := get_position_of_step path_index step_a in
  let pos_in_path_b := get_position_of_step path_index step_b in
  let pos_in_path_a :=
    if get_is_reverse graph term_i
    then u64 (pos_in_path_a + get_length graph term_i) else pos_in_path_a in
  let pos_in_path_b :=
    if get_is_reverse graph term_j
    then u64 (pos_in_path_b + get_length graph term_j) else pos_in_path_b in
  let term_dist := Rabs (IZR pos_in_path_a - IZR pos_in_path_b) in
  (term_i, term_j, term_dist).

(** Quantities of the update, named as in the source.  The two quotients
    [1.0 / term_dist] and [Delta / mag] are taken where the divisor is not
    zero: the body has left with [continue] on [term_dist == 0], and [dx] is
    replaced when it is zero. *)
Definition mu_of (eta term_dist : R) : R :=
  let term_weight := (1 / term_dist)%R in
  let w_ij := term_weight in
  let mu := (eta * w_ij)%R in
  if fgtb mu 1 then 1%R else mu.

Definition dx_of (Xi Xj : R) : R :=
  let dx := (Xi - Xj)%R in
  if feqb dx 0 then tiny else dx.

Definition mag_of (Xi Xj : R) : R := Rabs (dx_of Xi Xj).

Definition Delta_of (eta term_dist Xi Xj : R) : R :=
  let mu := mu_of eta term_dist in
  let d_ij := term_dist in
  (mu * (mag_of Xi Xj - d_ij) / 2)%R.

Definition r_x_of (eta term_dist Xi Xj : R) : R :=
  let r := (Delta_of eta term_dist Xi Xj / mag_of Xi Xj)%R in
  (r * dx_of Xi Xj)%R.

(** The update of [X], [Delta_max] and [term_updates] for one term.  Run on
    its own, the loop [while (Delta_abs > Delta_max.load())] stores once when
    [Delta_abs] is larger and not at all otherwise. *)
Definition update (s : sgd_state) (i j : nat) (term_dist : R) : option sgd_state :=
  Xi <- vec_get (X s) i ;;
  Xj <- vec_get (X s) j ;;
  let Delta_abs := Rabs (Delta_of (eta s) term_dist Xi Xj) in
  let Delta_max' :=
    if fgtb Delta_abs (Delta_max s) then Delta_abs else Delta_max s in
  let r_x := r_x_of (eta s) term_dist Xi Xj in
  Xi' <- vec_get (X s) i ;;
  X1 <- vec_set (X s) i (Xi' - r_x)%R ;;
  Xj' <- vec_get X1 j ;;
  X2 <- vec_set X1 j (Xj' + r_x)%R ;;
  Some {| X := X2;
          term_updates := u64 (term_updates s + 1);
          eta := eta s;
          Delta_max := Delta_max' |}.

(** One pass through the body of the inner [for (term_update ...)] loop. *)
Definition term_update_body (graph : PathHandleGraph) (path_index : XP) (tree : IITree)
    (sample_from_paths sample_from_nodes : bool)
    (s : sgd_state) (gen : rng) : outcome :=
  let num_nodes := get_node_count graph in
  let (pos, gen) := draw gen in
  match pick path_index tree num_nodes sample_from_paths sample_from_nodes pos gen with
  | PickExit pos => Exit pos
  | PickContinue gen => Continue s gen
  | Picked path pos_in_path_a path_len gen =>
      let (zipf_int, gen) := draw gen in
      let (flip, gen) := draw gen in
      match second_position pos_in_path_a path_len zipf_int flip with
      | None => Continue s gen
      | Some pos_in_path_b =>
          let '(term_i, term_j, term_dist) :=
            term_of graph path_index path pos_in_path_a pos_in_path_b in
          if feqb term_dist 0 then Continue s gen
          else
            let d_ij := term_dist in
            let i := unpack_number graph term_i in
            let j := unpack_number graph term_j in
            match update s i j term_dist with
            | None => Undefined
            | Some s' => Updated i j d_ij s' gen
            end
      end
  end.

End Deterministic.

(** ** The update arithmetic and its roundings

    The arithmetic of one update (l.405-466 of the concurrent driver, the
    same statements at l.827-887 of the deterministic one), written once over
    the operations on doubles it uses.  [Worker.update] reads these
    operations as exact operations on reals.  Here they are a parameter:
    [rounded rnd] rounds the exact result of every operation with [rnd], as
    IEEE 754 arithmetic does while the results stay finite; [binary64] is the
    arithmetic of binary64 floats itself. *)

Module Kernel.

Record arith (F : Type) := {
  f0 : F;                      (* the literal 0 *)
  f1 : F;                      (* the literals 1 and 1.0 *)
  f2 : F;                      (* the literal 2 *)
  f1e_9 : F;                   (* the literal 1e-9 *)
  fsub : F -> F -> F;
  fadd : F -> F -> F;
  fmul : F -> F -> F;
  fquo : F -> F -> F;
  fabs : F -> F;               (* std::abs *)
  fgt : F -> F -> bool;
  feq : F -> F -> bool
}.

Arguments f0 {F} a.
Arguments f1 {F} a.
Arguments f2 {F} a.
Arguments f1e_9 {F} a.
Arguments fsub {F} a _ _.
Arguments fadd {F} a _ _.
Arguments fmul {F} a _ _.
Arguments fquo {F} a _ _.
Arguments fabs {F} a _.
Arguments fgt {F} a _ _.
Arguments feq {F} a _ _.

Record state (F : Type) := {
  X : list F;
  term_updates : Z;
  eta : F;
  Delta_max : F
}.

Arguments X {F} s.
Arguments term_updates {F} s.
Arguments eta {F} s.
Arguments Delta_max {F} s.

Section Update.

Context {F : Type} (A : arith F).

Definition mu_of (eta term_dist : F) : F :=
  let term_weight := fquo A (f1 A) term_dist in
  let w_ij := term_weight in
  let mu := fmul A eta w_ij in
  if fgt A mu (f1 A) then f1 A else mu.

Definition dx_of (Xi Xj : F) : F :=
  let dx := fsub A Xi Xj in
  if feq A dx (f0 A) then f1e_9 A else dx.

Definition mag_of (Xi Xj : F) : F := fabs A (dx_of Xi Xj).

Definition Delta_of (eta term_dist Xi Xj : F) : F :=
  let mu := mu_of eta term_dist in
  let d_ij := term_dist in
  fquo A (fmul A mu (fsub A (mag_of Xi Xj) d_ij)) (f2 A).

Definition r_x_of (eta term_dist Xi Xj : F) : F :=
  let r := fquo A (Delta_of eta term_dist Xi Xj) (mag_of Xi Xj) in
  fmul A r (dx_of Xi Xj).

Definition update (s : state F) (i j : nat) (term_dist : F) : option (state F) :=
  Xi <- vec_get (X s) i ;;
  Xj <- vec_get (X s) j ;;
  let Delta_abs := fabs A (Delta_of (eta s) term_dist Xi Xj) in
  let Delta_max' :=
    if fgt A Delta_abs (Delta_max s) then Delta_abs else Delta_max s in
  let r_x := r_x_of (eta s) term_dist Xi Xj in
  Xi' <- vec_get (X s) i ;;
  X1 <- vec_set (X s) i (fsub A Xi' r_x) ;;
  Xj' <- vec_get X1 j ;;
  X2 <- vec_set X1 j (fadd A Xj' r_x) ;;
  Some {| X := X2;
          term_updates := u64 (term_updates s + 1);
          eta := eta s;
          Delta_max := Delta_max' |}.

End Update.

(** Reals, the exact result of each operation rounded by [rnd].  Absolute
    value and comparisons are exact, as they are on doubles. *)
Definition rounded (rnd : R -> R) : arith R :=
  {| f0 := 0%R; f1 := 1%R; f2 := 2%R; f1e_9 := rnd tiny;
     fsub := fun a b => rnd (a - b)%R;
     fadd := fun a b => rnd (a + b)%R;
     fmul := fun a b => rnd (a * b)%R;
     fquo := fun a b => rnd (a / b)%R;
     fabs := Rabs;
     fgt := fgtb;
     feq := feqb |}.

(** Binary64 floats; [0x1.12e0be826d695p-30] is the double nearest to
    [1e-9]. *)
Definition binary64 : arith float :=
  {| f0 := 0%float; f1 := 1%float; f2 := 2%float;
     f1e_9 := 0x1.12e0be826d695p-30%float;
     fsub := PrimFloat.sub;
     fadd := PrimFloat.add;
     fmul := PrimFloat.mul;
     fquo := PrimFloat.div;
     fabs := PrimFloat.abs;
     fgt := fun a b => PrimFloat.ltb b a;
     feq := PrimFloat.eqb |}.

(** The exact value of a finite double, counted in units of [2^-1074] (the
    smallest positive double), so that exact sums of doubles can be
    compared as integers. *)
Definition units (f : float) : Z :=
  match Prim2SF f with
  | S754_finite sign m e => (if sign then -1 else 1) * Z.pos m * 2 ^ (e + 1074)
  | _ => 0
  end.

End Kernel.

(** The shared state read as a state of the kernel. *)
Definition kernel_state (s : sgd_state) : Kernel.state R :=
  {| Kernel.X := X s; Kernel.term_updates := term_updates s;
     Kernel.eta := eta s; Kernel.Delta_max := Delta_max s |}.

(** ** The order finalizer: [path_linear_sgd_order] *)

Module Order.

(** [std::sort(first, last, comp)].  The library's code is not part of the
    sources; the model is the insertion sort of the GNU implementation: each
    element in turn goes to the front when [comp] puts it before the first
    one, and otherwise moves left past every element that [comp] puts after
    it.  On ranges of at most 16 elements this is all the GNU [std::sort]
    does, whatever [comp] is.  On longer ranges it runs an introsort first:
    the model then gives the result only for a strict weak ordering without
    ties (as [pair_less] below), where every correct sort returns the same
    sequence; with [layout_less], which is no strict weak ordering, the
    behaviour of the library on more than 16 elements is undefined and is
    not modelled. *)
Fixpoint linear_insert {A} (comp : A -> A -> bool) (val : A) (rev_sorted : list A)
    : list A :=
  match rev_sorted with
  | [] => [val]
  | e :: rest =>
      if comp val e then e :: linear_insert comp val rest
      else val :: e :: rest
  end.

Definition insertion_step {A} (comp : A -> A -> bool) (sorted : list A) (val : A)
    : list A :=
  match sorted with
  | [] => [val]
  | first :: _ =>
      if comp val first then val :: sorted
      else rev (linear_insert comp val (rev sorted))
  end.

Definition std_sort {A} (comp : A -> A -> bool) (l : list A) : list A :=
  fold_left (insertion_step comp) l [].

Record handle_layout_t := {
  weak_component : Z;
  pos : R;
  handle : handle_t
}.

(** The comparator given to [std::sort] over the layout triples.  In C++
    [&&] binds tighter than [||], so the source expression
    [wa < wb || (wa == wb && pa < pb || (pa == pb && ha < hb))]
    groups as written here. *)
Definition layout_less (a b : handle_layout_t) : bool :=
  (weak_component a <? weak_component b)
  || (((weak_component a =? weak_component b) && fltb (pos a) (pos b))
      || (feqb (pos a) (pos b) && (handle a <? handle b))).

(** [operator<] of [std::pair<double, uint64_t>]. *)
Definition pair_less (a b : R * Z) : bool :=
  fltb (fst a) (fst b) || (negb (fltb (fst b) (fst a)) && (snd a <? snd b)).

(** [avg_id] of one component. *)
Definition average_id (weak_component : list nid_t) : option R :=
  let id_sum := fold_left (fun acc node_id => u64 (acc + node_id)) weak_component 0 in
  fdiv (IZR id_sum) (IZR (Z.of_nat (length weak_component))).

(** The pairs [(avg_id, i)] pushed for the components from index [i] on. *)
Fixpoint component_pairs (i : Z) (weak_components : list (list nid_t))
    : option (list (R * Z)) :=
  match weak_components with
  | [] => Some []
  | weak_component :: rest =>
      avg_id <- average_id weak_component ;;
      tl <- component_pairs (i + 1) rest ;;
      Some ((avg_id, i) :: tl)
  end.

(** [weak_component_id[component_order.second] = component_id++] *)
Fixpoint assign_ids (weak_component_order : list (R * Z)) (component_id : Z)
    (weak_component_id : list Z) : option (list Z) :=
  match weak_component_order with
  | [] => Some weak_component_id
  | component_order :: rest =>
      v <- vec_set weak_component_id (Z.to_nat (snd component_order)) component_id ;;
      assign_ids rest (component_id + 1) v
  end.

(** [weak_components_map[node_id-1] = weak_component_id[i]] for the nodes of
    one component. *)
Fixpoint map_component (weak_component : list nid_t) (id : Z)
    (weak_components_map : list Z) : option (list Z) :=
  match weak_component with
  | [] => Some weak_components_map
  | node_id :: rest =>
      m <- vec_set weak_components_map (Z.to_nat (u64 (node_id - 1))) id ;;
      map_component rest id m
  end.

Fixpoint map_components (i : nat) (weak_components : list (list nid_t))
    (weak_component_id : list Z) (weak_components_map : list Z)
    : option (list Z) :=
  match weak_components with
  | [] => Some weak_components_map
  | weak_component :: rest =>
      id <- vec_get weak_component_id i ;;
      m <- map_component weak_component id weak_components_map ;;
      map_components (S i) rest weak_component_id m
  end.

(** The component table as the loops leave it, before it is cleared. *)
Definition component_table (graph : PathHandleGraph)
    (weak_components : list (list nid_t)) : option (list Z) :=
  weak_component_order <- component_pairs 0 weak_components ;;
  let weak_component_order := std_sort pair_less weak_component_order in
  let weak_component_id := vec_resize 0 (Z.of_nat (length weak_component_order)) in
  weak_component_id <- assign_ids weak_component_order 0 weak_component_id ;;
  let weak_components_map := vec_resize 0 (get_node_count graph) in
  map_components 0 weak_components weak_component_id weak_components_map.

(** The triples pushed by the [for_each_handle] callback, [i] counting the
    handles visited so far. *)
Fixpoint layout_triples (graph : PathHandleGraph) (weak_components_map : list Z)
    (layout : list R) (i : nat) (handles : list handle_t)
    : option (list handle_layout_t) :=
  match handles with
  | [] => Some []
  | h :: rest =>
      c <- vec_get weak_components_map (unpack_number graph h) ;;
      x <- vec_get layout i ;;
      tl <- layout_triples graph weak_components_map layout (S i) rest ;;
      Some ({| weak_component := c; pos := x; handle := h |} :: tl)
  end.

(** From a layout to an order, with the component table at hand: the code
    that the source runs once per snapshot and once for the final layout. *)
Definition order_of_layout (graph : PathHandleGraph) (weak_components_map : list Z)
    (layout : list R) : option (list handle_t) :=
  handle_layout <- layout_triples graph weak_components_map layout 0
                     (for_each_handle graph) ;;
  let handle_layout := std_sort layout_less handle_layout in
  Some (map handle handle_layout).

Fixpoint snapshot_orders (graph : PathHandleGraph) (weak_components_map : list Z)
    (snapshots_layouts : list (list R)) : option (list (list handle_t)) :=
  match snapshots_layouts with
  | [] => Some []
  | snapshot_layout :: rest =>
      order <- order_of_layout graph weak_components_map snapshot_layout ;;
      tl <- snapshot_orders graph weak_components_map rest ;;
      Some (order :: tl)
  end.

(** [path_linear_sgd_order], from the point where the driver has returned
    [layout] and [snapshots_layouts]; [weak_components] is what
    [algorithms::weakly_connected_components] returned.  The result is the
    returned order together with the orders appended to [snapshots]. *)
Definition path_linear_sgd_order (graph : PathHandleGraph)
    (weak_components : list (list nid_t)) (layout : list R)
    (snapshot : bool) (snapshots_layouts : list (list R))
    : option (list handle_t * list (list handle_t)) :=
  weak_components_map <- component_table graph weak_components ;;
  let weak_components_map := vec_clear weak_components_map in
  snapshots <- (if snapshot
                then snapshot_orders graph weak_components_map snapshots_layouts
                else Some []) ;;
  order <- order_of_layout graph weak_components_map layout ;;
  Some (order, snapshots).

End Order.

(** ** The controller thread of [path_linear_sgd] *)

(** [a <= b] on doubles. *)
Definition fleb (a b : R) : bool := if Rle_dec a b then true else false.

Module Controller.

(** What the controller owns besides the shared state: the iteration counter
    and the run flag. *)
Record control := { iteration : Z; work_todo : bool }.

Definition reset_updates (s : sgd_state) : sgd_state :=
  {| X := X s; term_updates := 0; eta := eta s; Delta_max := Delta_max s |}.

(** One pass through the body of [while (work_todo.load())] in
    [checker_lambda], on the values it loads (progress output and the sleep
    left out). *)
Definition checker_pass (etas : list R) (iter_max min_term_updates : Z) (delta : R)
    (c : control) (s : sgd_state) : option (control * sgd_state) :=
  if term_updates s >? min_term_updates then
    let iteration := u64 (iteration c + 1) in
    if iteration >? iter_max then
      Some ({| iteration := iteration; work_todo := false |}, reset_updates s)
    else if fleb (Delta_max s) delta then
      Some ({| iteration := iteration; work_todo := false |}, reset_updates s)
    else
      e <- vec_get etas (Z.to_nat iteration) ;;
      Some ({| iteration := iteration; work_todo := work_todo c |},
            reset_updates {| X := X s; term_updates := term_updates s;
                             eta := e; Delta_max := delta |})
  else Some (c, s).

End Controller.

(** ** The loops of [deterministic_path_linear_sgd] *)

Module DeterministicDriver.

Inductive inner_result :=
| InnerDone (s : sgd_state) (gen : rng)
| InnerExit (pos : Z)
| InnerUndefined.

(** The inner loop [for (term_update = 0; term_update < min_term_updates;
    term_update++)]: [n] passes through the body; a [continue] goes on with
    the next pass. *)
Fixpoint term_updates_loop (n : nat) (graph : PathHandleGraph) (path_index : XP)
    (tree : IITree) (sample_from_paths sample_from_nodes : bool)
    (s : sgd_state) (gen : rng) : inner_result :=
  match n with
  | O => InnerDone s gen
  | S k =>
      match Deterministic.term_update_body graph path_index tree
              sample_from_paths sample_from_nodes s gen with
      | Updated _ _ _ s' gen' =>
          term_updates_loop k graph path_index tree
            sample_from_paths sample_from_nodes s' gen'
      | Continue s' gen' =>
          term_updates_loop k graph path_index tree
            sample_from_paths sample_from_nodes s' gen'
      | Exit pos => InnerExit pos
      | Undefined => InnerUndefined
      end
  end.

(** The end of an outer iteration that does not stop: the next learning rate
    and the reset of [Delta_max], both only when [iteration + 1 < iter_max],
    then the reset of [term_updates]. *)
Definition next_iteration (etas : list R) (iter_max iteration : Z) (delta : R)
    (s : sgd_state) : option sgd_state :=
  s1 <- (if u64 (iteration + 1) <? iter_max then
           e <- vec_get etas (Z.to_nat (u64 (iteration + 1))) ;;
           Some {| X := X s; term_updates := term_updates s;
                   eta := e; Delta_max := delta |}
         else Some s) ;;
  Some {| X := X s1; term_updates := 0; eta := eta s1; Delta_max := Delta_max s1 |}.

Inductive run_result :=
| Finished (X_final : list R) (snapshots : list (list R))
| Exited (pos : Z)
| Failed.

(** The outer loop [for (iteration = 0; iteration < iter_max; iteration++)],
    with [fuel] iterations still to run, from the point where [X], the
    schedule [etas], the first [eta] and the interval tree are set up; then
    the copy of [X] into [X_final]. *)
Fixpoint iterations_loop (fuel : nat) (iteration : Z)
    (graph : PathHandleGraph) (path_index : XP) (tree : IITree) (etas : list R)
    (iter_max min_term_updates : Z) (delta : R)
    (snapshot sample_from_paths sample_from_nodes : bool)
    (s : sgd_state) (gen : rng) (snapshots : list (list R)) : run_result :=
  match fuel with
  | O => Finished (X s) snapshots
  | S k =>
      let snapshots :=
        if snapshot && (iteration <? u64 (iter_max - 1))
        then snapshots ++ [X s] else snapshots in
      match term_updates_loop (Z.to_nat min_term_updates) graph path_index tree
              sample_from_paths sample_from_nodes s gen with
      | InnerExit pos => Exited pos
      | InnerUndefined => Failed
      | InnerDone s gen =>
          if fleb (Delta_max s) delta then Finished (X s) snapshots
          else
            match next_iteration etas iter_max iteration delta s with
            | None => Failed
            | Some s =>
                iterations_loop k (iteration + 1) graph path_index tree etas
                  iter_max min_term_updates delta
                  snapshot sample_from_paths sample_from_nodes s gen snapshots
            end
      end
  end.

(** The loops from iteration 0. *)
Definition run (graph : PathHandleGraph) (path_index : XP) (tree : IITree)
    (etas : list R) (iter_max min_term_updates : Z) (delta : R)
    (snapshot sample_from_paths sample_from_nodes : bool)
    (s : sgd_state) (gen : rng) (snapshots : list (list R)) : run_result :=
  iterations_loop (Z.to_nat iter_max) 0 graph path_index tree etas
    iter_max min_term_updates delta
    snapshot sample_from_paths sample_from_nodes s gen snapshots.

End DeterministicDriver.

(** ** The [extract] subcommand: [main_extract] *)

Module Extract.

(** Node ids of the loaded graph. *)
Record node_ids := {
  get_id : handle_t -> nid_t;
  min_node_id : nid_t;
  max_node_id : nid_t
}.

(** The test "the node IDs are not compacted": [true] is [exit(1)]. *)
Definition not_compacted (graph : PathHandleGraph) (ids : node_ids) : bool :=
  let shift := min_node_id ids in
  get_node_count graph <=? u64 (max_node_id ids - shift).

(** [atomic_bv_t keep_bv(graph.get_node_count() + 1)] *)
Definition new_keep_bv (graph : PathHandleGraph) : list bool :=
  vec_resize false (u64 (get_node_count graph + 1)).

(** [keep_bv.set(graph.get_id(handle) - shift)] *)
Definition keep (ids : node_ids) (shift : Z) (keep_bv : list bool) (handle : handle_t)
    : option (list bool) :=
  vec_set keep_bv (Z.to_nat (u64 (get_id ids handle - shift))) true.

(** The callback of the pangenomic-range loop: [len] is the pangenomic
    position at which the handle starts. *)
Definition pangenomic_step (graph : PathHandleGraph) (ids : node_ids) (shift : Z)
    (pangenomic_range : Z * Z) (acc : option (list bool * Z)) (h : handle_t)
    : option (list bool * Z) :=
  a <- acc ;;
  let keep_bv := fst a in
  let len := snd a in
  let hl := get_length graph h in
  keep_bv <- (if (len <=? snd pangenomic_range)
                 && (fst pangenomic_range <=? u64 (len + hl))
              then keep ids shift keep_bv h else Some keep_bv) ;;
  Some (keep_bv, u64 (len + hl)).

(** The [for_each_handle] loop run under [if (_pangenomic_range)]. *)
Definition mark_pangenomic_range (graph : PathHandleGraph) (ids : node_ids)
    (pangenomic_range : Z * Z) (keep_bv : list bool) : option (list bool) :=
  let shift := min_node_id ids in
  r <- fold_left (pangenomic_step graph ids shift pangenomic_range)
         (for_each_handle graph) (Some (keep_bv, 0)) ;;
  Some (fst r).

(** The existing paths of the graph, by name. *)
Record path_names := {
  get_path_count : Z;
  has_path : String.string -> bool;
  get_path_handle : String.string -> path_handle_t
}.

Definition empty (line : String.string) : bool :=
  match line with
  | String.EmptyString => true
  | _ => false
  end.

Inductive read_result :=
| Read (paths : list path_handle_t) (num_of_paths_in_file : Z)
       (path_already_seen : list bool)
| Duplicated
| ReadUndefined.

(** The [while (std::getline(path_names_in, line))] loop over the file of
    paths to consider; [Duplicated] is the [exit(1)] on a repeated name. *)
Fixpoint read_path_names (graph : path_names) (lines : list String.string)
    (paths : list path_handle_t) (num_of_paths_in_file : Z)
    (path_already_seen : list bool) : read_result :=
  match lines with
  | [] => Read paths num_of_paths_in_file path_already_seen
  | line :: rest =>
      if empty line then
        read_path_names graph rest paths num_of_paths_in_file path_already_seen
      else if has_path graph line then
        let path := get_path_handle graph line in
        let path_rank := u64 (path - 1) in
        match vec_get path_already_seen (Z.to_nat path_rank) with
        | None => ReadUndefined
        | Some true => Duplicated
        | Some false =>
            match vec_set path_already_seen (Z.to_nat path_rank) true with
            | None => ReadUndefined
            | Some seen =>
                read_path_names graph rest (paths ++ [path])
                  (u64 (num_of_paths_in_file + 1)) seen
            end
        end
      else
        read_path_names graph rest paths (u64 (num_of_paths_in_file + 1))
          path_already_seen
  end.

(** The paths to consider when a file of names is given: [None] is
    [exit(1)], on a duplicate or when no path was found. *)
Definition paths_from_file (graph : path_names) (lines : list String.string)
    : option (option (list path_handle_t)) :=
  match read_path_names graph lines [] 0 (vec_resize false (get_path_count graph)) with
  | ReadUndefined => None
  | Duplicated => Some None
  | Read paths _ _ =>
      Some (match paths with [] => None | _ :: _ => Some paths end)
  end.

(** The loop over the file of paths to lace: a name is taken the first time
    its path is met; [lace_paths_set] is the set of paths taken so far. *)
Fixpoint read_lace_paths (graph : path_names) (lines : list String.string)
    (lace_paths lace_paths_set : list path_handle_t) : list path_handle_t :=
  match lines with
  | [] => lace_paths
  | line :: rest =>
      if negb (empty line) && has_path graph line then
        let path := get_path_handle graph line in
        if existsb (Z.eqb path) lace_paths_set then
          read_lace_paths graph rest lace_paths lace_paths_set
        else
          read_lace_paths graph rest (lace_paths ++ [path]) (path :: lace_paths_set)
      else read_lace_paths graph rest lace_paths lace_paths_set
  end.

End Extract.

(** ** Quantities the statements refer to *)

(** Sum of the lengths of the given handles. *)
Definition total_length (graph : PathHandleGraph) (handles : list handle_t) : Z :=
  fold_right (fun h acc => get_length graph h + acc) 0 handles.

(** Sum of the lengths of the nodes that [for_each_handle] visits before its
    [k]-th handle (counting from zero). *)
Definition length_before (graph : PathHandleGraph) (k : nat) : Z :=
  total_length graph (firstn k (for_each_handle graph)).

(** Total nucleotide length [T] of the selected paths. *)
Definition paths_total (path_index : XP) (paths : list path_handle_t) : Z :=
  fold_right (fun p acc => get_path_length path_index p + acc) 0 paths.

(** The interval [iv] covers position [pos]. *)
Definition covers (iv : interval) (pos : Z) : Prop := iv_st iv <= pos < iv_en iv.

(** The skip conditions of one pass through the loop body that starts with
    generator [gen]: the drawn position is a node-boundary bit, the drawn node
    carries no path, the first position is the path start and the direction
    is backwards, no room is left forwards, or the term distance is zero. *)
Inductive skip_condition (graph : PathHandleGraph) (path_index : XP) (tree : IITree)
    (sample_from_paths sample_from_nodes : bool) (gen : rng) : Prop :=
| hit_node_bit :
    sample_from_paths = false -> sample_from_nodes = false ->
    np_bv path_index (fst (draw gen)) = true ->
    skip_condition graph path_index tree sample_from_paths sample_from_nodes gen
| no_path_on_node :
    sample_from_paths = false -> sample_from_nodes = true ->
    Worker.hit_num_paths_of path_index (get_node_count graph) (fst (draw gen)) = 0 ->
    skip_condition graph path_index tree sample_from_paths sample_from_nodes gen
| at_path_start (path pos_a path_len : Z) (gen' : rng) :
    Worker.pick path_index tree (get_node_count graph)
      sample_from_paths sample_from_nodes (fst (draw gen)) (snd (draw gen))
    = Picked path pos_a path_len gen' ->
    0 < fst (draw gen') ->
    fst (draw (snd (draw gen'))) <> 0 -> pos_a = 0 ->
    skip_condition graph path_index tree sample_from_paths sample_from_nodes gen
| no_room_left (path pos_a path_len : Z) (gen' : rng) :
    Worker.pick path_index tree (get_node_count graph)
      sample_from_paths sample_from_nodes (fst (draw gen)) (snd (draw gen))
    = Picked path pos_a path_len gen' ->
    0 < fst (draw gen') ->
    fst (draw (snd (draw gen'))) = 0 -> u64 (path_len - pos_a) = 0 ->
    skip_condition graph path_index tree sample_from_paths sample_from_nodes gen
| zero_distance (path pos_a path_len pos_b : Z) (gen' : rng) :
    Worker.pick path_index tree (get_node_count graph)
      sample_from_paths sample_from_nodes (fst (draw gen)) (snd (draw gen))
    = Picked path pos_a path_len gen' ->
    Worker.second_position pos_a path_len
      (fst (draw gen')) (fst (draw (snd (draw gen')))) = Some pos_b ->
    snd (Worker.term_of graph path_index path pos_a pos_b) = 0%R ->
    skip_condition graph path_index tree sample_from_paths sample_from_nodes gen.

(** Lexicographic order on (component rank, position, handle integer), as the
    comment above the [std::sort] call describes the comparator. *)
Definition lexicographic_less (a b : Order.handle_layout_t) : bool :=
  (Order.weak_component a <? Order.weak_component b)
  || ((Order.weak_component a =? Order.weak_component b)
      && (fltb (Order.pos a) (Order.pos b)
          || (feqb (Order.pos a) (Order.pos b)
              && (Order.handle a <? Order.handle b)))).




(** Index of a handle's bit in [keep_bv]. *)
Definition keep_index (ids : Extract.node_ids) (h : handle_t) : nat :=
  Z.to_nat (u64 (Extract.get_id ids h - Extract.min_node_id ids)).

(** The [k]-th visited handle [h], as the closed stretch of pangenomic
    positions from its start to its end, meets the closed range. *)
Definition touches_range (graph : PathHandleGraph) (range : Z * Z)
    (k : nat) (h : handle_t) : Prop :=
  length_before graph k <= snd range /\
  fst range <= length_before graph k + get_length graph h.

(** A line of a path-name file that names a path of the graph. *)
Definition names_path (graph : Extract.path_names) (line : String.string) : bool :=
  negb (Extract.empty line) && Extract.has_path graph line.

(** ** Concrete inputs used by the examples below *)

Module Examples.

(** Three nodes of lengths 10, 20, 30 after seeding, first learning rate 30. *)
Definition seeded : sgd_state :=
  {| X := [0; 10; 30]%R; term_updates := 0; eta := 30; Delta_max := 0 |}.

(** The graph of that state: ids 1, 2, 3, forward handles 0, 2, 4. *)
Definition three_nodes : PathHandleGraph :=
  {| get_node_count := 3;
     for_each_handle := [0; 2; 4];
     get_length := fun h => if h <? 2 then 10 else if h <? 4 then 20 else 30;
     get_is_reverse := fun h => Z.odd h;
     unpack_number := fun h => Z.to_nat (Z.shiftr h 1) |}.

(** Three nodes of length 1 (ids 1, 2, 3, forward handles 0, 2, 4). *)
Definition unit_nodes : PathHandleGraph :=
  {| get_node_count := 3;
     for_each_handle := [0; 2; 4];
     get_length := fun _ => 1;
     get_is_reverse := fun h => Z.odd h;
     unpack_number := fun h => Z.to_nat (Z.shiftr h 1) |}.

Definition unit_seeded : sgd_state :=
  {| X := [0; 1; 2]%R; term_updates := 0; eta := 30; Delta_max := 0 |}.

(** The index of [unit_nodes] with a single path, number 0, that visits node 1
    forward: one nucleotide, one step.  In the node-to-path layout each node
    contributes a boundary bit followed by one entry per step on it:
    [np_bv = 1 0 1 1]. *)
Definition unit_paths : XP :=
  {| get_path_length := fun _ => 1;
     get_step_at_position := fun path _ => (path, 0);
     get_handle_of_step := fun _ => 0;
     get_position_of_step := fun _ => 0;
     np_bv := fun k => negb (k =? 1);
     np_bv_size := 4;
     nr_iv := fun k => if k =? 1 then 1 else 0;
     npi_iv := fun _ => 0;
     np_bv_select := fun k => if k =? 1 then 0 else if k =? 2 then 2 else 3 |}.

(** An index of [three_nodes] with a single path, number 0, that visits
    node 1 forward: ten nucleotides, one step. *)
Definition first_node_path : XP :=
  {| get_path_length := fun _ => 10;
     get_step_at_position := fun path _ => (path, 0);
     get_handle_of_step := fun _ => 0;
     get_position_of_step := fun _ => 0;
     np_bv := fun k => negb (k =? 1);
     np_bv_size := 4;
     nr_iv := fun k => if k =? 1 then 1 else 0;
     npi_iv := fun _ => 0;
     np_bv_select := fun k => if k =? 1 then 0 else if k =? 2 then 2 else 3 |}.

(** Four nodes of length 1 in two components, ids {1, 2} and {3, 4}
    (forward handles 0, 2, 4, 6), and a layout of them. *)
Definition two_components : PathHandleGraph :=
  {| get_node_count := 4;
     for_each_handle := [0; 2; 4; 6];
     get_length := fun _ => 1;
     get_is_reverse := fun h => Z.odd h;
     unpack_number := fun h => Z.to_nat (Z.shiftr h 1) |}.

Definition two_components_parts : list (list nid_t) := [[1; 2]; [3; 4]].

Definition two_components_layout : list R := [0; 1; 2; 3]%R.

(** Four nodes in three components, ids {1, 4}, {2} and {3}, with mean ids
    2.5, 2 and 3; the graph visits node 2 first.  The layout puts nodes 2 and
    1 at the same coordinate. *)
Definition interleaved : PathHandleGraph :=
  {| get_node_count := 4;
     for_each_handle := [2; 0; 4; 6];
     get_length := fun _ => 1;
     get_is_reverse := fun h => Z.odd h;
     unpack_number := fun h => Z.to_nat (Z.shiftr h 1) |}.

Definition interleaved_parts : list (list nid_t) := [[1; 4]; [2]; [3]].

Definition interleaved_layout : list R := [5; 5; 6; 7]%R.

(** Two layout triples at the same position: node 1 (handle 0) in the
    component of rank 1, node 2 (handle 2) in the component of rank 0. *)
Definition triple_a : Order.handle_layout_t :=
  {| Order.weak_component := 1; Order.pos := 5; Order.handle := 0 |}.

Definition triple_b : Order.handle_layout_t :=
  {| Order.weak_component := 0; Order.pos := 5; Order.handle := 2 |}.

(** A generator that returns the values of [l] in turn. *)
Definition list_gen (l : list Z) : rng := {| draws := fun k => nth k l 0; cursor := 0 |}.

(** A generator whose every draw is [v]. *)
Definition constant_gen (v : Z) : rng := {| draws := fun _ => v; cursor := 0 |}.

(** A schedule of three entries, the controller before its third tick and a
    state with five counted updates that has not converged. *)
Definition three_etas : list R := [3; 2; 1]%R.

Definition before_last_tick : Controller.control :=
  {| Controller.iteration := 2; Controller.work_todo := true |}.

Definition busy : sgd_state :=
  {| X := [0; 10; 30]%R; term_updates := 5; eta := 2; Delta_max := 1 |}.

(** Node ids 1, 2, 3 for the handles 0, 2, 4. *)
Definition three_ids : Extract.node_ids :=
  {| Extract.get_id := fun h => Z.shiftr h 1 + 1;
     Extract.min_node_id := 1;
     Extract.max_node_id := 3 |}.

(** A graph with the two paths [a] and [b], handles 1 and 2. *)
Definition two_paths : Extract.path_names :=
  {| Extract.get_path_count := 2;
     Extract.has_path := fun n => String.eqb n "a" || String.eqb n "b";
     Extract.get_path_handle := fun n => if String.eqb n "a" then 1 else 2 |}.

Definition line_a : String.string := "a"%string.
Definition line_b : String.string := "b"%string.
Definition line_c : String.string := "c"%string.

(** A file of names: [b], an empty line, the unknown name [c], then [a]. *)
Definition names_file : list String.string :=
  [line_b; String.EmptyString; line_c; line_a].

(** A file that names [a] twice. *)
Definition repeated_file : list String.string := [line_a; line_b; line_a].

(** An index of [three_nodes] with a single path, number 0, that visits
    node 1 and then node 3, both forward: forty nucleotides, two steps, the
    second one starting at position 10. *)
Definition skipping_path : XP :=
  {| get_path_length := fun _ => 40;
     get_step_at_position := fun path pos => (path, if pos <? 10 then 0 else 1);
     get_handle_of_step := fun step => if snd step =? 0 then 0 else 4;
     get_position_of_step := fun step => if snd step =? 0 then 0 else 10;
     np_bv := fun k => negb ((k =? 1) || (k =? 4));
     np_bv_size := 5;
     nr_iv := fun k => if k =? 1 then 1 else if k =? 4 then 2 else 0;
     npi_iv := fun _ => 0;
     np_bv_select := fun k => if k =? 1 then 0 else if k =? 2 then 2 else 3 |}.

(** Draws for two passes that each pick position 0, the Zipf value 10 and
    the forward direction. *)
Definition far_term_gen : rng := list_gen [0; 10; 0; 0; 10; 0].

(** The controller before its first tick. *)
Definition first_tick : Controller.control :=
  {| Controller.iteration := 0; Controller.work_todo := true |}.

(** A rounding that is not exact: downwards, to ten binary digits after the
    point. *)
Definition chop (x : R) : R := (IZR (Zfloor (x * 1024)) / 1024)%R.

(** Two binary64 coordinates, 0 and 1, with the learning rate 0.1 (the
    double [0x1.999999999999ap-4]). *)
Definition two_doubles : Kernel.state float :=
  {| Kernel.X := [0; 1]%float; Kernel.term_updates := 0;
     Kernel.eta := 0x1.999999999999ap-4%float; Kernel.Delta_max := 0%float |}.

(** One binary64 coordinate, 1, with the learning rate 3. *)
Definition one_double : Kernel.state float :=
  {| Kernel.X := [1]%float; Kernel.term_updates := 0;
     Kernel.eta := 3%float; Kernel.Delta_max := 0%float |}.

End Examples.

(** ** Schedule: lemmas *)

Lemma fdiv_some (a b : R) : b <> 0%R -> fdiv a b = Some (a / b)%R.
Proof.
  intros Hb. unfold fdiv. destruct (Req_dec_T b 0) as [E | _]; [contradiction | reflexivity].
Qed.


Lemma flog_some (x : R) : (0 < x)%R -> flog x = Some (ln x).
Proof.
  intros Hx. unfold flog. destruct (Rlt_dec 0 x) as [_ | N]; [reflexivity | contradiction].
Qed.

Lemma iterations_length (n : Z) : length (Schedule.iterations n) = Z.to_nat n.
Proof. unfold Schedule.iterations. now rewrite length_map, length_seq. Qed.

Lemma iterations_nth (n t : Z) :
  0 <= t < n -> nth (Z.to_nat t) (Schedule.iterations n) 0 = t.
Proof.
  intros Ht. unfold Schedule.iterations.
  rewrite (nth_indep _ 0 (Z.of_nat 0)) by (rewrite length_map, length_seq; lia).
  rewrite map_nth, seq_nth by lia. lia.
Qed.

Lemma schedule_defined (w_min w_max eps : R) (T p : Z) :
  (0 < w_min)%R -> (0 < w_max)%R -> (0 < eps)%R -> 2 <= T ->
  Schedule.path_linear_sgd_schedule w_min w_max T p eps =
  Some (map (Schedule.eta_at (1 / w_min) (Schedule.rate w_min w_max T eps) p)
            (Schedule.iterations T)).
Proof.
  intros Hw Hm He HT. unfold Schedule.path_linear_sgd_schedule, Schedule.rate.
  assert (H1 : (0 < 1 / w_min)%R) by (apply Rdiv_lt_0_compat; lra).
  assert (H2 : (0 < eps / w_max)%R) by (apply Rdiv_lt_0_compat; lra).
  assert (H3 : (0 < (1 / w_min) / (eps / w_max))%R) by (apply Rdiv_lt_0_compat; lra).
  assert (H4 : (IZR T - 1 <> 0)%R).
  { assert (2 <= IZR T)%R by (apply IZR_le in HT; exact HT). lra. }
  rewrite (fdiv_some 1 w_min) by lra. cbn [obind].
  rewrite (fdiv_some eps w_max) by lra. cbn [obind].
  rewrite fdiv_some by lra. cbn [obind].
  rewrite flog_some by exact H3. cbn [obind].
  rewrite fdiv_some by exact H4. reflexivity.
Qed.

Lemma schedule_nth (eta_max lambda : R) (T p t : Z) :
  0 <= t < T ->
  nth (Z.to_nat t) (map (Schedule.eta_at eta_max lambda p) (Schedule.iterations T)) 0%R
  = Schedule.eta_at eta_max lambda p t.
Proof.
  intros Ht.
  rewrite (nth_indep _ 0%R (Schedule.eta_at eta_max lambda p 0))
    by (rewrite length_map, iterations_length; lia).
  rewrite map_nth. now rewrite iterations_nth.
Qed.





Lemma rate_pos (w_min w_max eps : R) (T : Z) :
  (0 < w_min)%R -> (0 < w_max)%R -> (0 < eps)%R ->
  (eps / w_max < 1 / w_min)%R -> 2 <= T ->
  (0 < Schedule.rate w_min w_max T eps)%R.
Proof.
  intros Hw Hm He Hlt HT. unfold Schedule.rate.
  assert (H2 : (0 < eps / w_max)%R) by (apply Rdiv_lt_0_compat; lra).
  assert (HT' : (2 <= IZR T)%R) by (apply IZR_le in HT; exact HT).
  assert (Hr : (1 < (1 / w_min) / (eps / w_max))%R).
  { apply (Rmult_lt_reg_r (eps / w_max)); [exact H2 |].
    unfold Rdiv at 2. rewrite Rmult_assoc, Rinv_l by lra. lra. }
  apply Rdiv_lt_0_compat; [| lra].
  rewrite <- ln_1. apply ln_increasing; lra.
Qed.





(** ** Vectors: lemmas *)

Lemma vec_set_some {A} (v : list A) (i : nat) (a : A) :
  (i < length v)%nat -> exists v', vec_set v i a = Some v'.
Proof.
  revert i. induction v as [| x t IH]; intros i Hi; simpl in Hi; [lia |].
  destruct i as [| k]; simpl.
  - now eexists.
  - destruct (IH k) as [t' Ht']; [lia |]. rewrite Ht'. now eexists.
Qed.

Lemma vec_set_length {A} (v v' : list A) (i : nat) (a : A) :
  vec_set v i a = Some v' -> length v' = length v /\ (i < length v)%nat.
Proof.
  revert i v'. induction v as [| x t IH]; intros i v' H; simpl in H; [discriminate |].
  destruct i as [| k].
  - injection H as <-. simpl. lia.
  - destruct (vec_set t k a) as [t' |] eqn:E; simpl in H; [| discriminate].
    injection H as <-. destruct (IH _ _ E). simpl. lia.
Qed.

Lemma vec_get_set_same {A} (v v' : list A) (i : nat) (a : A) :
  vec_set v i a = Some v' -> vec_get v' i = Some a.
Proof.
  revert i v'. induction v as [| x t IH]; intros i v' H; simpl in H; [discriminate |].
  destruct i as [| k].
  - now injection H as <-.
  - destruct (vec_set t k a) as [t' |] eqn:E; simpl in H; [| discriminate].
    injection H as <-. simpl. now apply IH.
Qed.

Lemma vec_get_set_other {A} (v v' : list A) (i j : nat) (a : A) :
  vec_set v i a = Some v' -> j <> i -> vec_get v' j = vec_get v j.
Proof.
  revert i j v'. induction v as [| x t IH]; intros i j v' H Hne; simpl in H; [discriminate |].
  destruct i as [| k].
  - injection H as <-. destruct j; [contradiction | reflexivity].
  - destruct (vec_set t k a) as [t' |] eqn:E; simpl in H; [| discriminate].
    injection H as <-. destruct j as [| j']; [reflexivity |].
    simpl. apply (IH k); [exact E | lia].
Qed.

Lemma vec_get_some {A} (v : list A) (i : nat) :
  (i < length v)%nat -> exists a, vec_get v i = Some a.
Proof.
  intros Hi. unfold vec_get. destruct (nth_error v i) eqn:E; [now eexists |].
  apply nth_error_None in E. lia.
Qed.

(** ** Update kernel *)

Lemma feqb_true (a b : R) : feqb a b = true <-> a = b.
Proof. unfold feqb. destruct (Req_dec_T a b); split; congruence. Qed.

Lemma fltb_true (a b : R) : fltb a b = true <-> (a < b)%R.
Proof. unfold fltb. destruct (Rlt_dec a b); split; intros; congruence || lra. Qed.

Lemma tiny_pos : (0 < tiny)%R.
Proof. unfold tiny. lra. Qed.


Lemma mu_of_range (eta d : R) :
  (0 <= eta)%R -> (0 < d)%R -> (0 <= Worker.mu_of eta d <= 1)%R.
Proof.
  intros He Hd. unfold Worker.mu_of, fgtb.
  assert (0 <= eta * (1 / d))%R.
  { apply Rmult_le_pos; [exact He |]. left. apply Rdiv_lt_0_compat; lra. }
  destruct (fltb 1 (eta * (1 / d))) eqn:E.
  - lra.
  - split; [assumption |]. destruct (Rle_dec (eta * (1 / d)) 1) as [L | G]; [exact L |].
    assert (fltb 1 (eta * (1 / d)) = true) by (apply fltb_true; lra). congruence.
Qed.

(** The update succeeds on indices inside [X] and touches only [X[i]] and [X[j]]. *)
Lemma update_defined (s : sgd_state) (i j : nat) (d : R) :
  (i < length (X s))%nat -> (j < length (X s))%nat ->
  exists s', Worker.update s i j d = Some s'.
Proof.
  intros Hi Hj. unfold Worker.update.
  destruct (vec_get_some (X s) i Hi) as [Xi Ei].
  destruct (vec_get_some (X s) j Hj) as [Xj Ej].
  rewrite Ei, Ej. cbn [obind].
  destruct (vec_set_some (X s) i (Xi - Worker.r_x_of (eta s) d Xi Xj)%R Hi) as [X1 E1].
  rewrite E1. cbn [obind].
  destruct (vec_set_length _ _ _ _ E1) as [L1 _].
  assert (Hj1 : (j < length X1)%nat) by lia.
  destruct (vec_get_some X1 j Hj1) as [Xj' Ej'].
  rewrite Ej'. cbn [obind].
  destruct (vec_set_some X1 j (Xj' + Worker.r_x_of (eta s) d Xi Xj)%R Hj1) as [X2 E2].
  rewrite E2. cbn [obind]. now eexists.
Qed.

(** The steps of one update when every operation is rounded by [rnd]. *)
Lemma rounded_update_steps (rnd : R -> R) (s : Kernel.state R) (i j : nat)
    (d_ij Xi Xj : R) :
  vec_get (Kernel.X s) i = Some Xi -> vec_get (Kernel.X s) j = Some Xj ->
  let A := Kernel.rounded rnd in
  let r_x := Kernel.r_x_of A (Kernel.eta s) d_ij Xi Xj in
  let Delta_abs := Rabs (Kernel.Delta_of A (Kernel.eta s) d_ij Xi Xj) in
  exists X1 Xj' X2,
    vec_set (Kernel.X s) i (rnd (Xi - r_x)%R) = Some X1 /\
    vec_get X1 j = Some Xj' /\
    vec_set X1 j (rnd (Xj' + r_x)%R) = Some X2 /\
    Kernel.update A s i j d_ij
    = Some {| Kernel.X := X2;
              Kernel.term_updates := u64 (Kernel.term_updates s + 1);
              Kernel.eta := Kernel.eta s;
              Kernel.Delta_max := if fgtb Delta_abs (Kernel.Delta_max s)
                                  then Delta_abs else Kernel.Delta_max s |}.
Proof.
  intros Ei Ej A r_x Delta_abs.
  assert (Hi : (i < length (Kernel.X s))%nat).
  { apply nth_error_Some. unfold vec_get in Ei. congruence. }
  assert (Hj : (j < length (Kernel.X s))%nat).
  { apply nth_error_Some. unfold vec_get in Ej. congruence. }
  destruct (vec_set_some (Kernel.X s) i (rnd (Xi - r_x)%R) Hi) as [X1 E1].
  destruct (vec_set_length _ _ _ _ E1) as [L1 _].
  destruct (vec_get_some X1 j ltac:(lia)) as [Xj' Ej'].
  destruct (vec_set_some X1 j (rnd (Xj' + r_x)%R) ltac:(lia)) as [X2 E2].
  exists X1, Xj', X2. repeat split; try assumption.
  unfold Kernel.update. rewrite Ei, Ej. cbn [obind]. fold A. fold r_x.
  cbn [Kernel.fsub Kernel.fadd Kernel.fabs Kernel.fgt A Kernel.rounded].
  rewrite E1. cbn [obind]. rewrite Ej'. cbn [obind]. rewrite E2. reflexivity.
Qed.

(** Without rounding the kernel is the update of the two drivers. *)
Lemma kernel_exact (s : sgd_state) (i j : nat) (d_ij : R) :
  Kernel.update (Kernel.rounded (fun x => x)) (kernel_state s) i j d_ij
  = option_map kernel_state (Worker.update s i j d_ij) /\
  Deterministic.update s i j d_ij = Worker.update s i j d_ij.
Proof.
  split; [| reflexivity].
  unfold Kernel.update, Worker.update, kernel_state. cbn [Kernel.X Kernel.eta].
  cbv zeta.
  destruct (vec_get (X s) i) as [Xi |]; [| reflexivity].
  destruct (vec_get (X s) j) as [Xj |]; [| reflexivity].
  cbn [obind].
  change (Kernel.fsub (Kernel.rounded (fun x => x)) Xi
            (Kernel.r_x_of (Kernel.rounded (fun x => x)) (eta s) d_ij Xi Xj))
    with (Xi - Worker.r_x_of (eta s) d_ij Xi Xj)%R.
  destruct (vec_set (X s) i (Xi - Worker.r_x_of (eta s) d_ij Xi Xj)%R) as [X1 |];
    [| reflexivity].
  cbn [obind].
  destruct (vec_get X1 j) as [Xj' |]; [| reflexivity].
  cbn [obind].
  change (Kernel.fadd (Kernel.rounded (fun x => x)) Xj'
            (Kernel.r_x_of (Kernel.rounded (fun x => x)) (eta s) d_ij Xi Xj))
    with (Xj' + Worker.r_x_of (eta s) d_ij Xi Xj)%R.
  destruct (vec_set X1 j (Xj' + Worker.r_x_of (eta s) d_ij Xi Xj)%R) as [X2 |];
    reflexivity.
Qed.

(** C5 (as amended).  One update at [(i, j)] with [i <> j] computes one
    [r_x = (Delta / mag) * dx], stores [X[i] - r_x] in [X[i]] and
    [X[j] + r_x] in [X[j]], each rounded once.  Whatever the rounding, the
    sum [X[i] + X[j]] changes by exactly the two rounding errors of these
    stores: by at most [u * (|X[i] - r_x| + |X[j] + r_x|)] when each store
    has relative error at most [u] ([2^-53] for doubles), and not at all
    when both stores are exact. *)
Theorem update_sum_up_to_rounding (rnd : R -> R) (s : Kernel.state R) (i j : nat)
    (d_ij Xi Xj : R) :
  i <> j -> vec_get (Kernel.X s) i = Some Xi -> vec_get (Kernel.X s) j = Some Xj ->
  let r_x := Kernel.r_x_of (Kernel.rounded rnd) (Kernel.eta s) d_ij Xi Xj in
  exists s' Xi' Xj',
    Kernel.update (Kernel.rounded rnd) s i j d_ij = Some s' /\
    vec_get (Kernel.X s') i = Some Xi' /\ vec_get (Kernel.X s') j = Some Xj' /\
    Xi' = rnd (Xi - r_x)%R /\ Xj' = rnd (Xj + r_x)%R /\
    ((Xi' + Xj') - (Xi + Xj)
     = (rnd (Xi - r_x) - (Xi - r_x)) + (rnd (Xj + r_x) - (Xj + r_x)))%R /\
    (forall u : R,
       (Rabs (rnd (Xi - r_x) - (Xi - r_x)) <= u * Rabs (Xi - r_x))%R ->
       (Rabs (rnd (Xj + r_x) - (Xj + r_x)) <= u * Rabs (Xj + r_x))%R ->
       (Rabs ((Xi' + Xj') - (Xi + Xj))
        <= u * (Rabs (Xi - r_x) + Rabs (Xj + r_x)))%R) /\
    (rnd (Xi - r_x)%R = (Xi - r_x)%R -> rnd (Xj + r_x)%R = (Xj + r_x)%R ->
     (Xi' + Xj' = Xi + Xj)%R).
Proof.
  intros Hne Ei Ej r_x.
  destruct (rounded_update_steps rnd s i j d_ij Xi Xj Ei Ej)
    as (X1 & Xj1 & X2 & E1 & Ej1 & E2 & Eu).
  fold r_x in E1, E2.
  assert (Ej' : Xj1 = Xj).
  { rewrite (vec_get_set_other _ _ _ _ _ E1) in Ej1 by (intros E; now apply Hne).
    congruence. }
  subst Xj1.
  eexists. exists (rnd (Xi - r_x)%R), (rnd (Xj + r_x)%R).
  split; [exact Eu |]. cbn [Kernel.X].
  split.
  { rewrite (vec_get_set_other _ _ _ _ _ E2) by exact Hne.
    now apply (vec_get_set_same (Kernel.X s)). }
  split; [now apply (vec_get_set_same X1) |].
  split; [reflexivity |]. split; [reflexivity |].
  split; [ring |]. split.
  - intros u Ha Hb.
    replace (rnd (Xi - r_x) + rnd (Xj + r_x) - (Xi + Xj))%R
      with ((rnd (Xi - r_x) - (Xi - r_x)) + (rnd (Xj + r_x) - (Xj + r_x)))%R by ring.
    eapply Rle_trans; [apply Rabs_triang |]. lra.
  - intros Ha Hb. rewrite Ha, Hb. ring.
Qed.

Lemma update_sum_up_to_rounding_witness :
  let r_x := Kernel.r_x_of (Kernel.rounded Examples.chop)
               (Kernel.eta (kernel_state Examples.seeded)) 10%R 0%R 30%R in
  exists s' Xi' Xj',
    Kernel.update (Kernel.rounded Examples.chop) (kernel_state Examples.seeded) 0 2 10%R
    = Some s' /\
    vec_get (Kernel.X s') 0 = Some Xi' /\ vec_get (Kernel.X s') 2 = Some Xj' /\
    Xi' = Examples.chop (0 - r_x)%R /\ Xj' = Examples.chop (30 + r_x)%R /\
    ((Xi' + Xj') - (0 + 30)
     = (Examples.chop (0 - r_x) - (0 - r_x)) + (Examples.chop (30 + r_x) - (30 + r_x)))%R /\
    (forall u : R,
       (Rabs (Examples.chop (0 - r_x) - (0 - r_x)) <= u * Rabs (0 - r_x))%R ->
       (Rabs (Examples.chop (30 + r_x) - (30 + r_x)) <= u * Rabs (30 + r_x))%R ->
       (Rabs ((Xi' + Xj') - (0 + 30))
        <= u * (Rabs (0 - r_x) + Rabs (30 + r_x)))%R) /\
    (Examples.chop (0 - r_x)%R = (0 - r_x)%R -> Examples.chop (30 + r_x)%R = (30 + r_x)%R ->
     (Xi' + Xj' = 0 + 30)%R).
Proof.
  apply (update_sum_up_to_rounding Examples.chop (kernel_state Examples.seeded)
           0 2 10%R 0%R 30%R);
    [discriminate | reflexivity | reflexivity].
Defined.

(** C5, at a failing input.  In binary64, with [X = (0, 1)], [d_ij = 10] and
    [eta = 0.1], the update stores [-0.045000000000000012] and
    [1.0449999999999999]: the exact sum of the two doubles is not the exact
    sum [1] of the coordinates before. *)
Theorem update_sum_not_conserved :
  option_map Kernel.X (Kernel.update Kernel.binary64 Examples.two_doubles 0 1 10%float)
  = Some [(- 0x1.70a3d70a3d70cp-5)%float; 0x1.0b851eb851eb8p+0%float] /\
  Kernel.units (- 0x1.70a3d70a3d70cp-5) + Kernel.units 0x1.0b851eb851eb8p+0
  <> Kernel.units 0 + Kernel.units 1.
Proof.
  split; [vm_compute; reflexivity |].
  apply Z.eqb_neq. vm_compute. reflexivity.
Qed.

(** C6 (as amended).  With a non-negative learning rate and a positive term
    distance, [mu = min(1, eta / d_ij)] lies in [[0, 1]], so the displacement
    [|Delta| = mu * |mag - d_ij| / 2] is at most [|mag - d_ij| / 2]; it is at
    most [d_ij / 2] whenever the current distance [mag] does not exceed
    [2 * d_ij]. *)
Theorem displacement_bound (eta d_ij Xi Xj : R) :
  (0 <= eta)%R -> (0 < d_ij)%R ->
  Rabs (Worker.Delta_of eta d_ij Xi Xj)
  = (Worker.mu_of eta d_ij * Rabs (Worker.mag_of Xi Xj - d_ij) / 2)%R /\
  (Rabs (Worker.Delta_of eta d_ij Xi Xj) <= Rabs (Worker.mag_of Xi Xj - d_ij) / 2)%R /\
  ((Worker.mag_of Xi Xj <= 2 * d_ij)%R ->
   (Rabs (Worker.Delta_of eta d_ij Xi Xj) <= d_ij / 2)%R).
Proof.
  intros He Hd. pose proof (mu_of_range eta d_ij He Hd) as [Hmu0 Hmu1].
  unfold Worker.Delta_of. cbv zeta.
  set (mu := Worker.mu_of eta d_ij) in *. set (mag := Worker.mag_of Xi Xj).
  assert (Hmag : (0 <= mag)%R) by (unfold mag, Worker.mag_of; apply Rabs_pos).
  assert (E : Rabs (mu * (mag - d_ij) / 2) = (mu * Rabs (mag - d_ij) / 2)%R).
  { unfold Rdiv. rewrite !Rabs_mult. rewrite (Rabs_pos_eq mu) by exact Hmu0.
    rewrite (Rabs_pos_eq (/ 2)) by lra. reflexivity. }
  rewrite E. pose proof (Rabs_pos (mag - d_ij)) as Hp.
  split; [reflexivity |]. split; [nra |].
  intros Hclose.
  assert (Rabs (mag - d_ij) <= d_ij)%R by (apply Rabs_le; lra).
  nra.
Qed.

Lemma displacement_bound_witness :
  Rabs (Worker.Delta_of 30 10 0 15)
  = (Worker.mu_of 30 10 * Rabs (Worker.mag_of 0 15 - 10) / 2)%R /\
  (Rabs (Worker.Delta_of 30 10 0 15) <= Rabs (Worker.mag_of 0 15 - 10) / 2)%R /\
  ((Worker.mag_of 0 15 <= 2 * 10)%R ->
   (Rabs (Worker.Delta_of 30 10 0 15) <= 10 / 2)%R).
Proof.
  apply (displacement_bound 30 10 0 15); lra.
Defined.

Lemma mag_of_far (Xi Xj : R) : (Xi - Xj <> 0)%R -> Worker.mag_of Xi Xj = Rabs (Xi - Xj).
Proof.
  intros H. unfold Worker.mag_of, Worker.dx_of.
  destruct (feqb (Xi - Xj) 0) eqn:E; [| reflexivity].
  apply feqb_true in E. contradiction.
Qed.

Lemma mu_of_capped (eta d : R) : (1 < eta * (1 / d))%R -> Worker.mu_of eta d = 1%R.
Proof.
  intros H. unfold Worker.mu_of, fgtb.
  destruct (fltb 1 (eta * (1 / d))) eqn:E; [reflexivity |].
  apply fltb_true in H. congruence.
Qed.

(** C6 as stated fails.  Nodes seeded at [0] and [30], a term of path distance
    [10] between them, learning rate [30]: [mu = 1], [mag = 30], and the
    displacement is [10], twice [d_ij / 2]. *)
Lemma displacement_claim_fails :
  (Worker.mu_of 30 10 = 1)%R /\
  Rabs (Worker.Delta_of 30 10 0 30) = 10%R /\
  (10 / 2 < Rabs (Worker.Delta_of 30 10 0 30))%R.
Proof.
  assert (Hmu : Worker.mu_of 30 10 = 1%R) by (apply mu_of_capped; lra).
  assert (Hmag : Worker.mag_of 0 30 = 30%R).
  { rewrite mag_of_far by lra. rewrite Rabs_minus_sym.
    replace (30 - 0)%R with 30%R by lra. apply Rabs_pos_eq. lra. }
  assert (HD : Rabs (Worker.Delta_of 30 10 0 30) = 10%R).
  { unfold Worker.Delta_of. cbv zeta. rewrite Hmu, Hmag.
    replace (1 * (30 - 10) / 2)%R with 10%R by lra. apply Rabs_pos_eq. lra. }
  rewrite HD. repeat split; [exact Hmu | lra].
Qed.



(** ** Seeding of the coordinates *)

Lemma u64_small (x : Z) : 0 <= x < two64 -> u64 x = x.
Proof. intros H. unfold u64. now apply Z.mod_small. Qed.

Lemma in_firstn_in {A} (k : nat) (l : list A) (a : A) : In a (firstn k l) -> In a l.
Proof.
  revert k. induction l as [| x t IH]; intros k H.
  - now rewrite firstn_nil in H.
  - destruct k as [| k]; simpl in H; [contradiction |].
    destruct H as [-> | H]; [now left | right; now apply (IH k)].
Qed.

Lemma total_length_nonneg (graph : PathHandleGraph) (hs : list handle_t) :
  (forall h, In h hs -> 0 <= get_length graph h) -> 0 <= total_length graph hs.
Proof.
  induction hs as [| h t IH]; intros H; simpl; [lia |].
  assert (0 <= get_length graph h) by (apply H; now left).
  assert (0 <= total_length graph t) by (apply IH; intros; apply H; now right).
  fold (total_length graph t). lia.
Qed.

Lemma total_length_firstn (graph : PathHandleGraph) (hs : list handle_t) (k : nat) :
  (forall h, In h hs -> 0 <= get_length graph h) ->
  0 <= total_length graph (firstn k hs) <= total_length graph hs.
Proof.
  revert k. induction hs as [| h t IH]; intros k H.
  - rewrite firstn_nil. simpl. lia.
  - destruct k as [| k]; simpl.
    + pose proof (total_length_nonneg graph (h :: t) H). simpl in *. lia.
    + assert (0 <= get_length graph h) by (apply H; now left).
      specialize (IH k ltac:(intros; apply H; now right)).
      fold (total_length graph (firstn k t)). fold (total_length graph t). lia.
Qed.

Lemma seed_fold (graph : PathHandleGraph) (hs : list handle_t) :
  forall (X0 : list R) (len : Z),
  NoDup (map (unpack_number graph) hs) ->
  (forall h, In h hs -> (unpack_number graph h < length X0)%nat) ->
  (forall h, In h hs -> 0 <= get_length graph h) ->
  0 <= len -> len + total_length graph hs < two64 ->
  exists X1,
    fold_left (Worker.seed_step graph) hs (Some (X0, len))
    = Some (X1, len + total_length graph hs) /\
    length X1 = length X0 /\
    (forall k h, nth_error hs k = Some h ->
       vec_get X1 (unpack_number graph h)
       = Some (IZR (len + total_length graph (firstn k hs)))) /\
    (forall n, ~ In n (map (unpack_number graph) hs) -> vec_get X1 n = vec_get X0 n).
Proof.
  induction hs as [| h t IH]; intros X0 len Hnd Hin Hlen Hl Hsum.
  - exists X0. simpl. rewrite Z.add_0_r. repeat split; try reflexivity.
    intros k h Hk. destruct k; discriminate.
  - simpl in Hsum. fold (total_length graph t) in Hsum.
    assert (Hh : 0 <= get_length graph h) by (apply Hlen; now left).
    assert (Ht : 0 <= total_length graph t).
    { apply total_length_nonneg. intros; apply Hlen; now right. }
    inversion Hnd as [| n l Hnotin Hnd' [E1 E2]]; subst.
    destruct (vec_set_some X0 (unpack_number graph h) (IZR len)
                ltac:(apply Hin; now left)) as [Xh Eh].
    destruct (vec_set_length _ _ _ _ Eh) as [Lh _].
    destruct (IH Xh (len + get_length graph h) Hnd'
                ltac:(intros; rewrite Lh; apply Hin; now right)
                ltac:(intros; apply Hlen; now right) ltac:(lia) ltac:(lia))
      as (X1 & Efold & L1 & Hval & Hother).
    exists X1. split; [| split; [| split]].
    + cbn [fold_left]. unfold Worker.seed_step at 2. cbn [obind fst snd]. rewrite Eh. cbn [obind].
      rewrite u64_small by (unfold two64 in *; lia).
      rewrite Efold. simpl. fold (total_length graph t). f_equal. f_equal. lia.
    + lia.
    + intros k h' Hk. destruct k as [| k]; simpl in Hk.
      * injection Hk as <-. rewrite Hother by exact Hnotin.
        rewrite (vec_get_set_same _ _ _ _ Eh). simpl. now rewrite Z.add_0_r.
      * rewrite (Hval k h' Hk). simpl. fold (total_length graph (firstn k t)).
        f_equal. f_equal. lia.
    + intros n Hn. simpl in Hn.
      rewrite Hother by (intros C; apply Hn; now right).
      apply (vec_get_set_other _ _ _ _ _ Eh). intros C. apply Hn. now left.
Qed.

(** C4.  In both drivers the seeding loop leaves in [X], at the index of each
    handle, the sum of the lengths of the nodes visited before it: the first
    visited node gets [0] and the values never decrease along the iteration
    order.  (Handles have distinct numbers below the node count and the total
    length fits 64 bits.) *)
Theorem seed_is_prefix_sum (graph : PathHandleGraph) :
  NoDup (map (unpack_number graph) (for_each_handle graph)) ->
  (forall h, In h (for_each_handle graph) ->
     (unpack_number graph h < Z.to_nat (get_node_count graph))%nat) ->
  (forall h, In h (for_each_handle graph) -> 0 <= get_length graph h) ->
  total_length graph (for_each_handle graph) < two64 ->
  exists X0,
    Worker.seed_X graph = Some X0 /\
    Deterministic.seed_X graph = Some X0 /\
    (forall k h, nth_error (for_each_handle graph) k = Some h ->
       vec_get X0 (unpack_number graph h) = Some (IZR (length_before graph k))) /\
    (forall h, nth_error (for_each_handle graph) 0 = Some h ->
       vec_get X0 (unpack_number graph h) = Some 0%R) /\
    (forall k1 k2 h1 h2 x1 x2, (k1 <= k2)%nat ->
       nth_error (for_each_handle graph) k1 = Some h1 ->
       nth_error (for_each_handle graph) k2 = Some h2 ->
       vec_get X0 (unpack_number graph h1) = Some x1 ->
       vec_get X0 (unpack_number graph h2) = Some x2 ->
       (x1 <= x2)%R).
Proof.
  intros Hnd Hin Hlen Hsum.
  destruct (seed_fold graph (for_each_handle graph)
              (vec_resize 0%R (get_node_count graph)) 0 Hnd
              ltac:(intros; unfold vec_resize; rewrite repeat_length; now apply Hin)
              Hlen ltac:(lia) ltac:(lia))
    as (X1 & Efold & L1 & Hval & _).
  assert (Hval' : forall k h, nth_error (for_each_handle graph) k = Some h ->
            vec_get X1 (unpack_number graph h) = Some (IZR (length_before graph k))).
  { intros k h Hk. rewrite (Hval k h Hk). reflexivity. }
  exists X1. split; [| split; [| split; [| split]]].
  - unfold Worker.seed_X. cbv zeta. rewrite Efold. reflexivity.
  - unfold Deterministic.seed_X. cbv zeta.
    change Deterministic.seed_step with Worker.seed_step.
    rewrite Efold. reflexivity.
  - exact Hval'.
  - intros h Hh. rewrite (Hval' 0%nat h Hh). reflexivity.
  - intros k1 k2 h1 h2 x1 x2 Hk Hk1 Hk2 Hx1 Hx2.
    rewrite (Hval' k1 h1 Hk1) in Hx1. rewrite (Hval' k2 h2 Hk2) in Hx2.
    injection Hx1 as <-. injection Hx2 as <-. apply IZR_le.
    unfold length_before.
    replace (firstn k1 (for_each_handle graph))
      with (firstn k1 (firstn k2 (for_each_handle graph)))
      by (rewrite firstn_firstn; f_equal; lia).
    apply total_length_firstn. intros h Hh. apply Hlen.
    now apply (in_firstn_in k2).
Qed.

Lemma seed_is_prefix_sum_witness :
  exists X0,
    Worker.seed_X Examples.three_nodes = Some X0 /\
    Deterministic.seed_X Examples.three_nodes = Some X0 /\
    (forall k h, nth_error (for_each_handle Examples.three_nodes) k = Some h ->
       vec_get X0 (unpack_number Examples.three_nodes h)
       = Some (IZR (length_before Examples.three_nodes k))) /\
    (forall h, nth_error (for_each_handle Examples.three_nodes) 0 = Some h ->
       vec_get X0 (unpack_number Examples.three_nodes h) = Some 0%R) /\
    (forall k1 k2 h1 h2 x1 x2, (k1 <= k2)%nat ->
       nth_error (for_each_handle Examples.three_nodes) k1 = Some h1 ->
       nth_error (for_each_handle Examples.three_nodes) k2 = Some h2 ->
       vec_get X0 (unpack_number Examples.three_nodes h1) = Some x1 ->
       vec_get X0 (unpack_number Examples.three_nodes h2) = Some x2 ->
       (x1 <= x2)%R).
Proof.
  apply (seed_is_prefix_sum Examples.three_nodes).
  - simpl. repeat constructor; simpl; intuition lia.
  - simpl. intros h [<- | [<- | [<- | []]]]; vm_compute; lia.
  - simpl. intros h [<- | [<- | [<- | []]]]; vm_compute; discriminate.
  - vm_compute. reflexivity.
Defined.

(** Seed scenario: lengths 10, 20, 30 give the coordinates 0, 10, 30. *)
Example seed_three_nodes :
  Worker.seed_X Examples.three_nodes = Some [0; 10; 30]%R.
Proof. reflexivity. Qed.

(** ** Path-interval tree *)

Lemma paths_total_nonneg (path_index : XP) (paths : list path_handle_t) :
  (forall p, In p paths -> 0 <= get_path_length path_index p) ->
  0 <= paths_total path_index paths.
Proof.
  induction paths as [| p t IH]; intros H; simpl; [lia |].
  assert (0 <= get_path_length path_index p) by (apply H; now left).
  assert (0 <= paths_total path_index t) by (apply IH; intros; apply H; now right).
  fold (paths_total path_index t). lia.
Qed.

(** The tree-building loop, started with running total [total b]: the total
    grows by the lengths of the paths, earlier intervals stay, and every
    position between the old and the new total is covered. *)
Lemma add_paths_cover (path_index : XP) (paths : list path_handle_t) :
  forall b : tree_build,
  (forall p, In p paths -> 0 <= get_path_length path_index p) ->
  0 <= total_path_len_in_nucleotides b ->
  total_path_len_in_nucleotides b + paths_total path_index paths < two64 ->
  let b' := fold_left (Worker.add_path path_index) paths b in
  total_path_len_in_nucleotides b'
  = total_path_len_in_nucleotides b + paths_total path_index paths /\
  (forall iv, In iv (path_nucleotide_tree b) -> In iv (path_nucleotide_tree b')) /\
  (forall pos, total_path_len_in_nucleotides b <= pos
               < total_path_len_in_nucleotides b + paths_total path_index paths ->
     exists iv, In iv (path_nucleotide_tree b') /\ covers iv pos).
Proof.
  induction paths as [| p t IH]; intros b Hlen Hb Hsum; cbn zeta.
  - simpl. split; [lia |]. split; [auto |]. intros pos Hpos. simpl in Hpos. lia.
  - simpl in Hsum. fold (paths_total path_index t) in Hsum.
    assert (Hp : 0 <= get_path_length path_index p) by (apply Hlen; now left).
    assert (Ht : 0 <= paths_total path_index t).
    { apply paths_total_nonneg. intros; apply Hlen; now right. }
    set (b1 := Worker.add_path path_index b p).
    assert (Etot : total_path_len_in_nucleotides b1
                   = total_path_len_in_nucleotides b + get_path_length path_index p).
    { unfold b1, Worker.add_path. cbn. apply u64_small. unfold two64 in *. lia. }
    assert (Etree : path_nucleotide_tree b1
                    = path_nucleotide_tree b ++
                      [{| iv_st := total_path_len_in_nucleotides b;
                          iv_en := total_path_len_in_nucleotides b
                                   + get_path_length path_index p;
                          iv_data := p |}]).
    { unfold b1, Worker.add_path, iitree_add. cbn.
      rewrite u64_small by (unfold two64 in *; lia). reflexivity. }
    destruct (IH b1 ltac:(intros; apply Hlen; now right) ltac:(lia) ltac:(lia))
      as (Htot' & Hkeep & Hcov).
    cbn [fold_left]. fold b1. split; [| split].
    + rewrite Htot', Etot. simpl. fold (paths_total path_index t). lia.
    + intros iv Hiv. apply Hkeep. rewrite Etree. apply in_or_app. now left.
    + intros pos Hpos. cbn [paths_total fold_right] in Hpos.
      fold (paths_total path_index t) in Hpos.
      destruct (Z_lt_le_dec pos (total_path_len_in_nucleotides b1)) as [Hlt | Hge].
      * eexists. split.
        -- apply Hkeep. rewrite Etree. apply in_or_app. right. now left.
        -- unfold covers. cbn. lia.
      * apply Hcov. lia.
Qed.

Lemma overlap_nonempty (t : IITree) (pos : Z) (iv : interval) :
  In iv t -> covers iv pos -> pos + 1 < two64 -> 0 <= pos ->
  iitree_overlap t pos (u64 (pos + 1)) <> [].
Proof.
  intros Hin [Hst Hen] Hbig Hpos Hnil.
  assert (Hf : In iv (iitree_overlap t pos (u64 (pos + 1)))).
  { unfold iitree_overlap. apply filter_In. split; [exact Hin |].
    rewrite u64_small by lia. apply andb_true_intro. split; apply Z.ltb_lt; lia. }
  rewrite Hnil in Hf. contradiction.
Qed.

Lemma build_tree_covers (path_index : XP) (paths : list path_handle_t) (pos : Z) :
  (forall p, In p paths -> 0 <= get_path_length path_index p) ->
  paths_total path_index paths < two64 ->
  0 <= pos < paths_total path_index paths ->
  total_path_len_in_nucleotides (Worker.build_tree path_index paths)
  = paths_total path_index paths /\
  iitree_overlap (path_nucleotide_tree (Worker.build_tree path_index paths))
    pos (u64 (pos + 1)) <> [].
Proof.
  intros Hlen Hsum Hpos. unfold Worker.build_tree.
  destruct (add_paths_cover path_index paths
              {| path_nucleotide_tree := []; total_path_len_in_nucleotides := 0;
                 longest_path_in_nucleotides := 0 |} Hlen ltac:(simpl; lia)
              ltac:(simpl; lia)) as (Htot & _ & Hcov).
  cbn [total_path_len_in_nucleotides] in *. split; [lia |].
  destruct (Hcov pos ltac:(lia)) as (iv & Hin & Hc).
  apply (overlap_nonempty _ pos iv Hin Hc); lia.
Qed.

Lemma pick_from_paths (path_index : XP) (tree : IITree) (num_nodes : Z)
    (sample_from_nodes : bool) (pos : Z) (gen : rng) :
  iitree_overlap tree pos (u64 (pos + 1)) <> [] ->
  exists path a len,
    Worker.pick path_index tree num_nodes true sample_from_nodes pos gen
    = Picked path a len gen.
Proof.
  intros H. unfold Worker.pick.
  destruct (iitree_overlap tree pos (u64 (pos + 1))) as [| p rest]; [contradiction |].
  now do 3 eexists.
Qed.

(** Once a position is picked the body ends in an update or a [continue],
    never in the fatal exit. *)
Lemma loop_body_picked (graph : PathHandleGraph) (path_index : XP) (tree : IITree)
    (spf sfn : bool) (s : sgd_state) (gen : rng) (path a len : Z) (gen' : rng) :
  Worker.pick path_index tree (get_node_count graph) spf sfn
    (fst (draw gen)) (snd (draw gen)) = Picked path a len gen' ->
  forall pos, Worker.loop_body graph path_index tree spf sfn s gen <> Exit pos.
Proof.
  intros Hpick pos. unfold Worker.loop_body. cbv zeta.
  destruct (draw gen) as [p g] eqn:Ed. cbn [fst snd] in Hpick. rewrite Hpick.
  destruct (draw gen') as [z g1]. destruct (draw g1) as [f g2].
  destruct (Worker.second_position a len z f) as [b |]; [| discriminate].
  destruct (Worker.term_of graph path_index path a b) as [[ti tj] td].
  destruct (feqb td 0); [discriminate |].
  destruct (Worker.update s _ _ td); discriminate.
Qed.

(** C7 (as amended).  With the tree built by giving each selected path the
    interval [[running total, running total + L(P))] and [T] the total length
    (below [2^64]), [overlap(pos, pos + 1)] is non-empty for every [pos] in
    [[0, T)]; and when [sample_from_paths] is true, [sample_from_nodes] is
    false and [T >= 1], every value that [dis] can return lies in [[0, T)],
    so neither driver takes the fatal exit. *)
Theorem overlap_never_empty (graph : PathHandleGraph) (path_index : XP)
    (paths : list path_handle_t) :
  (forall p, In p paths -> 0 <= get_path_length path_index p) ->
  paths_total path_index paths < two64 ->
  (forall pos, 0 <= pos < paths_total path_index paths ->
     iitree_overlap (path_nucleotide_tree (Worker.build_tree path_index paths))
       pos (u64 (pos + 1)) <> [] /\
     iitree_overlap (path_nucleotide_tree (Deterministic.build_tree path_index paths))
       pos (u64 (pos + 1)) <> []) /\
  (1 <= paths_total path_index paths ->
   forall (s : sgd_state) (gen : rng),
     let b := Worker.build_tree path_index paths in
     let dis := Worker.dis_bounds path_index (get_node_count graph)
                  (total_path_len_in_nucleotides b) true false in
     fst dis <= fst (draw gen) <= snd dis ->
     forall pos,
       Worker.loop_body graph path_index (path_nucleotide_tree b) true false s gen
       <> Exit pos /\
       Deterministic.term_update_body graph path_index
         (path_nucleotide_tree (Deterministic.build_tree path_index paths))
         true false s gen <> Exit pos).
Proof.
  intros Hlen Hsum. split.
  - intros pos Hpos.
    destruct (build_tree_covers path_index paths pos Hlen Hsum Hpos) as [_ H].
    split; exact H.
  - intros HT s gen b dis Hdraw pos.
    assert (Hin : 0 <= fst (draw gen) < paths_total path_index paths).
    { destruct (build_tree_covers path_index paths 0 Hlen Hsum ltac:(lia)) as [Etot _].
      unfold dis, b, Worker.dis_bounds in Hdraw. cbn [negb fst snd] in Hdraw.
      rewrite Etot in Hdraw. rewrite u64_small in Hdraw by lia. lia. }
    destruct (build_tree_covers path_index paths _ Hlen Hsum Hin) as [_ Hov].
    destruct (pick_from_paths path_index _ (get_node_count graph) false _
                (snd (draw gen)) Hov) as (path & a & len & Hpick).
    pose proof (loop_body_picked graph path_index _ true false s gen _ _ _ _ Hpick pos) as H.
    split; exact H.
Qed.

Lemma overlap_never_empty_witness :
  (forall pos, 0 <= pos < paths_total Examples.unit_paths [0] ->
     iitree_overlap
       (path_nucleotide_tree (Worker.build_tree Examples.unit_paths [0]))
       pos (u64 (pos + 1)) <> [] /\
     iitree_overlap
       (path_nucleotide_tree (Deterministic.build_tree Examples.unit_paths [0]))
       pos (u64 (pos + 1)) <> []) /\
  (1 <= paths_total Examples.unit_paths [0] ->
   forall (s : sgd_state) (gen : rng),
     let b := Worker.build_tree Examples.unit_paths [0] in
     let dis := Worker.dis_bounds Examples.unit_paths
                  (get_node_count Examples.unit_nodes)
                  (total_path_len_in_nucleotides b) true false in
     fst dis <= fst (draw gen) <= snd dis ->
     forall pos,
       Worker.loop_body Examples.unit_nodes Examples.unit_paths
         (path_nucleotide_tree b) true false s gen <> Exit pos /\
       Deterministic.term_update_body Examples.unit_nodes Examples.unit_paths
         (path_nucleotide_tree (Deterministic.build_tree Examples.unit_paths [0]))
         true false s gen <> Exit pos).
Proof.
  apply (overlap_never_empty Examples.unit_nodes Examples.unit_paths [0]).
  - intros p _. simpl. lia.
  - vm_compute. reflexivity.
Defined.

(** C7 as stated fails in its last part.  With [sample_from_paths] and
    [sample_from_nodes] both true, [dis] ranges over the node ranks
    [[1, num_nodes]] while the body still takes the path branch: three nodes of
    length 1, one selected path of length 1, and the draw [1] finds no interval.  With
    no selected path, [T = 0] and [dis] ranges over all of [[0, 2^64 - 1]].
    Both drivers take the fatal exit. *)
Lemma fatal_exit_reachable :
  (let b := Worker.build_tree Examples.unit_paths [0] in
   Worker.dis_bounds Examples.unit_paths 3 (total_path_len_in_nucleotides b) true true
   = (1, 3) /\
   fst (draw (Examples.constant_gen 1)) = 1 /\
   Worker.loop_body Examples.unit_nodes Examples.unit_paths
     (path_nucleotide_tree b) true true Examples.unit_seeded (Examples.constant_gen 1)
   = Exit 1 /\
   Deterministic.term_update_body Examples.unit_nodes Examples.unit_paths
     (path_nucleotide_tree (Deterministic.build_tree Examples.unit_paths [0]))
     true true Examples.unit_seeded (Examples.constant_gen 1)
   = Exit 1) /\
  (let b := Worker.build_tree Examples.unit_paths [] in
   Worker.dis_bounds Examples.unit_paths 3 (total_path_len_in_nucleotides b) true false
   = (0, two64 - 1) /\
   fst (draw (Examples.constant_gen 0)) = 0 /\
   Worker.loop_body Examples.unit_nodes Examples.unit_paths
     (path_nucleotide_tree b) true false Examples.unit_seeded (Examples.constant_gen 0)
   = Exit 0 /\
   Deterministic.term_update_body Examples.unit_nodes Examples.unit_paths
     (path_nucleotide_tree (Deterministic.build_tree Examples.unit_paths []))
     true false Examples.unit_seeded (Examples.constant_gen 0)
   = Exit 0).
Proof.
  repeat split; reflexivity.
Qed.

(** ** The two loop bodies *)

(** C2.  On the same graph, path index, selected paths, hyperparameters,
    sampling flags, shared state and sequence of draws, one term update of the
    deterministic driver and one pass through a worker's loop body have the
    same outcome: the same skip or exit, or the same term [(i, j, d_ij)] with
    the same new state, in particular the same new [X[i]] and [X[j]].  The
    two drivers also start from the same state and draw [pos] from the same
    range. *)
Theorem deterministic_step_matches_worker (graph : PathHandleGraph)
    (path_index : XP) (path_sgd_use_paths : list path_handle_t)
    (iter_max iter_with_max_learning_rate : Z) (eps eta_max : R)
    (sample_from_paths sample_from_nodes : bool) (s : sgd_state) (gen : rng) :
  Deterministic.initial_state graph iter_max iter_with_max_learning_rate eps eta_max
  = Worker.initial_state graph iter_max iter_with_max_learning_rate eps eta_max /\
  Deterministic.dis_bounds path_index (get_node_count graph)
    (total_path_len_in_nucleotides
       (Deterministic.build_tree path_index path_sgd_use_paths))
    sample_from_paths sample_from_nodes
  = Worker.dis_bounds path_index (get_node_count graph)
      (total_path_len_in_nucleotides (Worker.build_tree path_index path_sgd_use_paths))
      sample_from_paths sample_from_nodes /\
  Deterministic.term_update_body graph path_index
    (path_nucleotide_tree (Deterministic.build_tree path_index path_sgd_use_paths))
    sample_from_paths sample_from_nodes s gen
  = Worker.loop_body graph path_index
      (path_nucleotide_tree (Worker.build_tree path_index path_sgd_use_paths))
      sample_from_paths sample_from_nodes s gen.
Proof.
  split; [| split].
  - unfold Deterministic.initial_state, Worker.initial_state.
    unfold Deterministic.seed_X, Worker.seed_X. reflexivity.
  - unfold Deterministic.dis_bounds, Worker.dis_bounds.
    unfold Deterministic.build_tree, Worker.build_tree. reflexivity.
  - unfold Deterministic.term_update_body, Worker.loop_body.
    destruct (draw gen) as [pos gen1].
    unfold Deterministic.pick, Worker.pick.
    unfold Deterministic.build_tree, Worker.build_tree.
    reflexivity.
Qed.

(** ** Skip conditions *)

Lemma second_position_start (len zipf flip : Z) :
  0 < zipf -> flip <> 0 -> Worker.second_position 0 len zipf flip = None.
Proof.
  intros Hz Hf. unfold Worker.second_position.
  destruct (flip =? 0) eqn:E; [apply Z.eqb_eq in E; contradiction |].
  cbn [negb]. destruct (zipf >? 0) eqn:G; [reflexivity |].
  rewrite Z.gtb_ltb in G. apply Z.ltb_ge in G. lia.
Qed.

Lemma second_position_no_room (a len zipf : Z) :
  0 < zipf -> u64 (len - a) = 0 -> Worker.second_position a len zipf 0 = None.
Proof.
  intros Hz Hr. unfold Worker.second_position. cbn [Z.eqb negb]. rewrite Hr.
  destruct (zipf >? 0) eqn:G; [reflexivity |].
  rewrite Z.gtb_ltb in G. apply Z.ltb_ge in G. lia.
Qed.

(** C8.  When a pass through the loop body meets a skip condition, it ends
    in [continue] with the shared state as it found it: [X], [term_updates]
    and [Delta_max] are unchanged.  This holds in both drivers. *)
Theorem skip_leaves_state (graph : PathHandleGraph) (path_index : XP)
    (tree : IITree) (sample_from_paths sample_from_nodes : bool)
    (s : sgd_state) (gen : rng) :
  skip_condition graph path_index tree sample_from_paths sample_from_nodes gen ->
  exists s' gen',
    Worker.loop_body graph path_index tree sample_from_paths sample_from_nodes s gen
    = Continue s' gen' /\
    Deterministic.term_update_body graph path_index tree
      sample_from_paths sample_from_nodes s gen
    = Continue s' gen' /\
    X s' = X s /\ term_updates s' = term_updates s /\ Delta_max s' = Delta_max s.
Proof.
  intros Hskip.
  assert (H : exists gen', Worker.loop_body graph path_index tree
                sample_from_paths sample_from_nodes s gen = Continue s gen').
  { unfold Worker.loop_body. cbv zeta.
    destruct Hskip as [Hp Hn Hbit | Hp Hn Hhit
                      | path a len g Hpick Hz Hf Ha | path a len g Hpick Hz Hf Hr
                      | path a len b g Hpick Hsec Hd];
      destruct (draw gen) as [pos gen1]; cbn [fst snd] in *.
    - subst. unfold Worker.pick. rewrite Hbit. now eexists.
    - subst. unfold Worker.pick. cbv zeta. rewrite Hhit. cbn [Z.eqb]. now eexists.
    - rewrite Hpick. destruct (draw g) as [zipf g1]. cbn [fst snd] in *.
      destruct (draw g1) as [flip g2]. cbn [fst snd] in *. subst a. rewrite (second_position_start len zipf flip Hz Hf).
      now eexists.
    - rewrite Hpick. destruct (draw g) as [zipf g1]. cbn [fst snd] in *.
      destruct (draw g1) as [flip g2]. cbn [fst snd] in *. subst flip. rewrite (second_position_no_room a len zipf Hz Hr).
      now eexists.
    - rewrite Hpick. destruct (draw g) as [zipf g1]. cbn [fst snd] in *.
      destruct (draw g1) as [flip g2]. cbn [fst snd] in *. rewrite Hsec.
      destruct (Worker.term_of graph path_index path a b) as [[ti tj] td].
      cbn [snd] in Hd. subst td.
      assert (E : feqb 0 0 = true) by now apply feqb_true.
      rewrite E. now eexists. }
  destruct H as [gen' H]. exists s, gen'.
  split; [exact H |]. split; [exact H |]. repeat split.
Qed.

Lemma skip_leaves_state_witness :
  exists s' gen',
    Worker.loop_body Examples.three_nodes Examples.first_node_path
      (path_nucleotide_tree (Worker.build_tree Examples.first_node_path [0]))
      true false Examples.seeded (Examples.list_gen [3; 2; 1])
    = Continue s' gen' /\
    Deterministic.term_update_body Examples.three_nodes Examples.first_node_path
      (path_nucleotide_tree (Worker.build_tree Examples.first_node_path [0]))
      true false Examples.seeded (Examples.list_gen [3; 2; 1])
    = Continue s' gen' /\
    X s' = X Examples.seeded /\
    term_updates s' = term_updates Examples.seeded /\
    Delta_max s' = Delta_max Examples.seeded.
Proof.
  apply (skip_leaves_state Examples.three_nodes Examples.first_node_path).
  eapply (zero_distance _ _ _ _ _ _ 0 3 9 1).
  - reflexivity.
  - reflexivity.
  - cbn. rewrite Rminus_diag. apply Rabs_R0.
Defined.

(** The other skip conditions on small inputs: a node-boundary bit in
    step-uniform mode, a node without paths in node-uniform mode, a step
    backwards from the path start, a step forwards from the path end. *)
Example skip_on_node_bit :
  Worker.loop_body Examples.unit_nodes Examples.unit_paths [] false false
    Examples.unit_seeded (Examples.list_gen [2])
  = Continue Examples.unit_seeded {| draws := draws (Examples.list_gen [2]); cursor := 1 |}.
Proof. reflexivity. Qed.

Example skip_on_empty_node :
  Worker.loop_body Examples.unit_nodes Examples.unit_paths [] false true
    Examples.unit_seeded (Examples.list_gen [3])
  = Continue Examples.unit_seeded {| draws := draws (Examples.list_gen [3]); cursor := 1 |}.
Proof. reflexivity. Qed.

Example skip_at_path_start :
  Worker.loop_body Examples.three_nodes Examples.first_node_path
    (path_nucleotide_tree (Worker.build_tree Examples.first_node_path [0]))
    true false Examples.seeded (Examples.list_gen [0; 2; 1])
  = Continue Examples.seeded {| draws := draws (Examples.list_gen [0; 2; 1]); cursor := 3 |}.
Proof. reflexivity. Qed.

Example skip_at_path_end :
  Worker.loop_body Examples.three_nodes Examples.first_node_path
    (path_nucleotide_tree (Worker.build_tree Examples.first_node_path [0]))
    true false Examples.seeded (Examples.list_gen [9; 2; 0])
  = Continue Examples.seeded {| draws := draws (Examples.list_gen [9; 2; 0]); cursor := 3 |}.
Proof. reflexivity. Qed.

(** ** Order finalizer *)

Lemma fltb_lt (a b : R) : (a < b)%R -> fltb a b = true.
Proof. apply fltb_true. Qed.

Lemma fltb_ge (a b : R) : (b <= a)%R -> fltb a b = false.
Proof.
  intros H. destruct (fltb a b) eqn:E; [| reflexivity]. apply fltb_true in E. lra.
Qed.

Lemma feqb_eq (a b : R) : a = b -> feqb a b = true.
Proof. apply feqb_true. Qed.

Lemma feqb_neq (a b : R) : a <> b -> feqb a b = false.
Proof.
  intros H. destruct (feqb a b) eqn:E; [| reflexivity]. apply feqb_true in E. contradiction.
Qed.

(** Decide the comparisons of doubles that occur in the goal. *)
Ltac fcompare :=
  repeat match goal with
         | |- context [fltb ?a ?b] =>
             first [rewrite (fltb_lt a b) by lra | rewrite (fltb_ge a b) by lra]
         | |- context [feqb ?a ?b] =>
             first [rewrite (feqb_eq a b) by lra | rewrite (feqb_neq a b) by lra]
         end.

(** C10, at a failing input.  Two triples at the same position, [a] in the
    component of rank 1 with the smaller handle, [b] in the component of rank
    0: the comparator puts [a] before [b] although [a]'s component comes later,
    where the lexicographic order does not; it also puts [b] before [a], so it
    is not asymmetric and hence no strict weak ordering. *)
Theorem layout_less_crosses_components :
  Order.weak_component Examples.triple_a > Order.weak_component Examples.triple_b /\
  Order.layout_less Examples.triple_a Examples.triple_b = true /\
  lexicographic_less Examples.triple_a Examples.triple_b = false /\
  Order.layout_less Examples.triple_b Examples.triple_a = true.
Proof.
  unfold Order.layout_less, lexicographic_less, Examples.triple_a, Examples.triple_b.
  cbn [Order.weak_component Order.pos Order.handle].
  fcompare. repeat split.
Qed.

(** Outside the failing case the comparator is the lexicographic one: it is
    the lexicographic order or a tie of positions broken by the handles
    alone. *)
Lemma layout_less_shape (a b : Order.handle_layout_t) :
  Order.layout_less a b
  = lexicographic_less a b
    || (feqb (Order.pos a) (Order.pos b) && (Order.handle a <? Order.handle b)).
Proof.
  unfold Order.layout_less, lexicographic_less.
  destruct (Order.weak_component a <? Order.weak_component b);
    destruct (Order.weak_component a =? Order.weak_component b);
    destruct (fltb (Order.pos a) (Order.pos b));
    destruct (feqb (Order.pos a) (Order.pos b));
    destruct (Order.handle a <? Order.handle b); reflexivity.
Qed.

(** Reading the component table after [clear()] is an access outside the
    vector for every handle: with at least one handle the order is undefined. *)
Lemma order_after_clear (graph : PathHandleGraph) (layout : list R) :
  for_each_handle graph <> [] ->
  Order.order_of_layout graph (vec_clear (A := Z) []) layout = None.
Proof.
  intros H. unfold Order.order_of_layout.
  destruct (for_each_handle graph) as [| h rest]; [contradiction |].
  cbn [Order.layout_triples vec_clear]. unfold vec_get.
  now rewrite nth_error_nil.
Qed.

Lemma order_undefined (graph : PathHandleGraph) (weak_components : list (list nid_t))
    (layout : list R) (snapshot : bool) (snapshots_layouts : list (list R)) :
  for_each_handle graph <> [] ->
  Order.path_linear_sgd_order graph weak_components layout snapshot snapshots_layouts
  = None.
Proof.
  intros H. unfold Order.path_linear_sgd_order.
  destruct (Order.component_table graph weak_components) as [m |]; [| reflexivity].
  cbn [obind]. cbv zeta.
  change (vec_clear m) with (vec_clear (A := Z) []).
  rewrite (order_after_clear graph layout H).
  destruct (if snapshot then _ else _); reflexivity.
Qed.

(** Evaluate a sort over pairs or triples with concrete coordinates. *)
Ltac run_sort :=
  unfold Order.std_sort;
  repeat (progress (unfold Order.pair_less, Order.layout_less;
                    cbn -[IZR Rdiv fltb feqb]; fcompare)).

Example table_two_components :
  Order.component_table Examples.two_components Examples.two_components_parts
  = Some [0; 0; 1; 1].
Proof.
  unfold Order.component_table, Examples.two_components_parts.
  cbn [Order.component_pairs].
  assert (E1 : Order.average_id [1; 2] = Some (3 / 2)%R).
  { unfold Order.average_id. cbn [fold_left length].
    change (u64 (u64 (0 + 1) + 2)) with 3. change (Z.of_nat 2) with 2.
    now rewrite fdiv_some by lra. }
  assert (E2 : Order.average_id [3; 4] = Some (7 / 2)%R).
  { unfold Order.average_id. cbn [fold_left length].
    change (u64 (u64 (0 + 3) + 4)) with 7. change (Z.of_nat 2) with 2.
    now rewrite fdiv_some by lra. }
  rewrite E1, E2. cbn [obind].
  assert (Es : Order.std_sort Order.pair_less [((3 / 2)%R, 0); ((7 / 2)%R, 0 + 1)]
               = [((3 / 2)%R, 0); ((7 / 2)%R, 1)]).
  { run_sort. reflexivity. }
  rewrite Es. reflexivity.
Qed.

(** With the component table still in place, the layout of the two-component
    graph is ordered component by component. *)
Example order_two_components_kept :
  Order.order_of_layout Examples.two_components [0; 0; 1; 1]
    Examples.two_components_layout
  = Some [0; 2; 4; 6].
Proof.
  unfold Order.order_of_layout.
  assert (Et : Order.layout_triples Examples.two_components [0; 0; 1; 1]
                 Examples.two_components_layout 0
                 (for_each_handle Examples.two_components)
               = Some [ {| Order.weak_component := 0; Order.pos := 0; Order.handle := 0 |};
                        {| Order.weak_component := 0; Order.pos := 1; Order.handle := 2 |};
                        {| Order.weak_component := 1; Order.pos := 2; Order.handle := 4 |};
                        {| Order.weak_component := 1; Order.pos := 3; Order.handle := 6 |} ])
    by reflexivity.
  rewrite Et. cbn [obind]. run_sort. reflexivity.
Qed.

Example table_interleaved :
  Order.component_table Examples.interleaved Examples.interleaved_parts
  = Some [1; 0; 2; 1].
Proof.
  unfold Order.component_table, Examples.interleaved_parts.
  cbn [Order.component_pairs].
  assert (E1 : Order.average_id [1; 4] = Some (5 / 2)%R).
  { unfold Order.average_id. cbn [fold_left length].
    change (u64 (u64 (0 + 1) + 4)) with 5. change (Z.of_nat 2) with 2.
    now rewrite fdiv_some by lra. }
  assert (E2 : Order.average_id [2] = Some (2 / 1)%R).
  { unfold Order.average_id. cbn [fold_left length].
    change (u64 (0 + 2)) with 2. change (Z.of_nat 1) with 1.
    now rewrite fdiv_some by lra. }
  assert (E3 : Order.average_id [3] = Some (3 / 1)%R).
  { unfold Order.average_id. cbn [fold_left length].
    change (u64 (0 + 3)) with 3. change (Z.of_nat 1) with 1.
    now rewrite fdiv_some by lra. }
  rewrite E1, E2, E3. cbn [obind].
  assert (Es : Order.std_sort Order.pair_less
                 [((5 / 2)%R, 0); ((2 / 1)%R, 0 + 1); ((3 / 1)%R, 0 + 1 + 1)]
               = [((2 / 1)%R, 1); ((5 / 2)%R, 0); ((3 / 1)%R, 2)]).
  { run_sort. reflexivity. }
  rewrite Es. reflexivity.
Qed.

(** With the component table in place, the comparator alone misorders this
    layout: handle 0, of the component ranked second, comes out before
    handle 2, of the component ranked first, and between the two nodes of its
    own component. *)
Example order_interleaved_kept :
  Order.order_of_layout Examples.interleaved [1; 0; 2; 1] Examples.interleaved_layout
  = Some [0; 2; 6; 4].
Proof.
  unfold Order.order_of_layout.
  assert (Et : Order.layout_triples Examples.interleaved [1; 0; 2; 1]
                 Examples.interleaved_layout 0 (for_each_handle Examples.interleaved)
               = Some [ {| Order.weak_component := 0; Order.pos := 5; Order.handle := 2 |};
                        {| Order.weak_component := 1; Order.pos := 5; Order.handle := 0 |};
                        {| Order.weak_component := 2; Order.pos := 6; Order.handle := 4 |};
                        {| Order.weak_component := 1; Order.pos := 7; Order.handle := 6 |} ])
    by reflexivity.
  rewrite Et. cbn [obind]. run_sort. reflexivity.
Qed.

(** C1, at a failing input.  Two components, ids {1, 2} and {3, 4}, and a
    layout of the four nodes.  The component table is computed as intended,
    ranks 0, 0, 1, 1, and with it the order would be 0, 2, 4, 6; but the table
    is cleared before the triples are built, every lookup in it falls outside
    the vector, and the function has no defined result.  On a second graph,
    whose iteration visits node 2 before node 1, the comparator misorders the
    components even with the table in place. *)
Theorem order_reads_cleared_table :
  Order.component_table Examples.two_components Examples.two_components_parts
  = Some [0; 0; 1; 1] /\
  Order.order_of_layout Examples.two_components [0; 0; 1; 1]
    Examples.two_components_layout = Some [0; 2; 4; 6] /\
  Order.path_linear_sgd_order Examples.two_components Examples.two_components_parts
    Examples.two_components_layout false [] = None /\
  Order.component_table Examples.interleaved Examples.interleaved_parts
  = Some [1; 0; 2; 1] /\
  Order.order_of_layout Examples.interleaved [1; 0; 2; 1] Examples.interleaved_layout
  = Some [0; 2; 6; 4].
Proof.
  split; [exact table_two_components |].
  split; [exact order_two_components_kept |].
  split; [apply order_undefined; discriminate |].
  split; [exact table_interleaved | exact order_interleaved_kept].
Qed.

(** * Further properties of the code *)

(** ** The second position of a term *)

(** X1.  The second position never leaves the path: from a first position in
    [[0, path_len]] and any Zipf value, [pos_in_path_b] stays in
    [[0, path_len]] without wrapping around, lies on the side [flip] chose,
    and is at most [zipf_int] away from the first. *)
Theorem second_position_in_path (pos_a path_len zipf_int flip pos_b : Z) :
  0 <= pos_a <= path_len -> path_len < two64 -> 0 <= zipf_int ->
  Worker.second_position pos_a path_len zipf_int flip = Some pos_b ->
  0 <= pos_b <= path_len /\
  Z.abs (pos_b - pos_a) <= zipf_int /\
  (flip <> 0 -> pos_b <= pos_a) /\
  (flip = 0 -> pos_a <= pos_b) /\
  Deterministic.second_position pos_a path_len zipf_int flip = Some pos_b.
Proof.
  intros Ha Hlen Hz H.
  assert (Hgoal : 0 <= pos_b <= path_len /\ Z.abs (pos_b - pos_a) <= zipf_int /\
                  (flip <> 0 -> pos_b <= pos_a) /\ (flip = 0 -> pos_a <= pos_b)).
  { unfold Worker.second_position in H. unfold two64 in Hlen.
    destruct (flip =? 0) eqn:Ef; cbn [negb] in H.
    - apply Z.eqb_eq in Ef.
      rewrite (u64_small (path_len - pos_a)) in H by (unfold two64; lia).
      destruct (zipf_int >? path_len - pos_a) eqn:Eg.
      + destruct (path_len - pos_a =? 0) eqn:Er; [discriminate |].
        apply Z.eqb_neq in Er.
        pose proof (Z.mod_pos_bound zipf_int (path_len - pos_a) ltac:(lia)) as Hm.
        pose proof (Z.mod_le zipf_int (path_len - pos_a) Hz ltac:(lia)) as Hle.
        injection H as <-. rewrite u64_small by (unfold two64; lia). lia.
      + rewrite Z.gtb_ltb in Eg. apply Z.ltb_ge in Eg.
        injection H as <-. rewrite u64_small by (unfold two64; lia). lia.
    - apply Z.eqb_neq in Ef.
      destruct (zipf_int >? pos_a) eqn:Eg.
      + destruct (pos_a =? 0) eqn:Er; [discriminate |].
        apply Z.eqb_neq in Er.
        pose proof (Z.mod_pos_bound zipf_int pos_a ltac:(lia)) as Hm.
        pose proof (Z.mod_le zipf_int pos_a Hz ltac:(lia)) as Hle.
        injection H as <-. rewrite u64_small by (unfold two64; lia). lia.
      + rewrite Z.gtb_ltb in Eg. apply Z.ltb_ge in Eg.
        injection H as <-. rewrite u64_small by (unfold two64; lia). lia. }
  destruct Hgoal as (H1 & H2 & H3 & H4). repeat split; try assumption; try lia.
Qed.

Lemma second_position_in_path_witness :
  0 <= 5 <= 9 /\
  Z.abs (5 - 3) <= 14 /\
  (0 <> 0 -> 5 <= 3) /\
  (0 = 0 -> 3 <= 5) /\
  Deterministic.second_position 3 9 14 0 = Some 5.
Proof.
  apply (second_position_in_path 3 9 14 0 5); [lia | reflexivity | lia | reflexivity].
Defined.

(** ** The intervals of the selected paths *)

Lemma add_path_tree (path_index : XP) (b : tree_build) (p : path_handle_t) :
  0 <= get_path_length path_index p -> 0 <= total_path_len_in_nucleotides b ->
  total_path_len_in_nucleotides b + get_path_length path_index p < two64 ->
  total_path_len_in_nucleotides (Worker.add_path path_index b p)
  = total_path_len_in_nucleotides b + get_path_length path_index p /\
  path_nucleotide_tree (Worker.add_path path_index b p)
  = path_nucleotide_tree b ++
    [{| iv_st := total_path_len_in_nucleotides b;
        iv_en := total_path_len_in_nucleotides b + get_path_length path_index p;
        iv_data := p |}].
Proof.
  intros Hp Hb Hsum. unfold Worker.add_path, iitree_add. cbn.
  rewrite u64_small by lia. split; reflexivity.
Qed.

(** Every interval added by the loop belongs to a selected path, is as long
    as that path and lies between the old and the new running total. *)
Lemma add_paths_intervals (path_index : XP) (paths : list path_handle_t) :
  forall b : tree_build,
  (forall p, In p paths -> 0 <= get_path_length path_index p) ->
  0 <= total_path_len_in_nucleotides b ->
  total_path_len_in_nucleotides b + paths_total path_index paths < two64 ->
  forall iv, In iv (path_nucleotide_tree (fold_left (Worker.add_path path_index) paths b)) ->
  In iv (path_nucleotide_tree b) \/
  (In (iv_data iv) paths /\
   iv_en iv = iv_st iv + get_path_length path_index (iv_data iv) /\
   total_path_len_in_nucleotides b <= iv_st iv /\
   iv_en iv <= total_path_len_in_nucleotides b + paths_total path_index paths).
Proof.
  induction paths as [| p t IH]; intros b Hlen Hb Hsum iv Hin.
  - left. exact Hin.
  - cbn [paths_total fold_right] in Hsum. fold (paths_total path_index t) in Hsum.
    assert (Hp : 0 <= get_path_length path_index p) by (apply Hlen; now left).
    assert (Ht : 0 <= paths_total path_index t).
    { apply paths_total_nonneg. intros; apply Hlen; now right. }
    destruct (add_path_tree path_index b p Hp Hb ltac:(lia)) as [Etot Etree].
    cbn [fold_left] in Hin.
    destruct (IH (Worker.add_path path_index b p)
                ltac:(intros; apply Hlen; now right) ltac:(lia) ltac:(lia) iv Hin)
      as [Hold | (Hd & He & Hs & Hu)].
    + rewrite Etree in Hold. apply in_app_or in Hold. destruct Hold as [Hold | [<- | []]].
      * now left.
      * right. cbn. fold (paths_total path_index t). repeat split; auto; lia.
    + right. cbn [paths_total fold_right]. fold (paths_total path_index t).
      repeat split; [now right | exact He | lia | lia].
Qed.

(** No two intervals of the tree cover the same position. *)
Lemma add_paths_disjoint (path_index : XP) (paths : list path_handle_t) :
  forall b : tree_build,
  (forall p, In p paths -> 0 <= get_path_length path_index p) ->
  0 <= total_path_len_in_nucleotides b ->
  total_path_len_in_nucleotides b + paths_total path_index paths < two64 ->
  (forall iv, In iv (path_nucleotide_tree b) ->
     iv_en iv <= total_path_len_in_nucleotides b) ->
  (forall iv1 iv2 pos, In iv1 (path_nucleotide_tree b) ->
     In iv2 (path_nucleotide_tree b) -> covers iv1 pos -> covers iv2 pos -> iv1 = iv2) ->
  forall iv1 iv2 pos,
    In iv1 (path_nucleotide_tree (fold_left (Worker.add_path path_index) paths b)) ->
    In iv2 (path_nucleotide_tree (fold_left (Worker.add_path path_index) paths b)) ->
    covers iv1 pos -> covers iv2 pos -> iv1 = iv2.
Proof.
  induction paths as [| p t IH]; intros b Hlen Hb Hsum Hend Huniq; [exact Huniq |].
  cbn [paths_total fold_right] in Hsum. fold (paths_total path_index t) in Hsum.
  assert (Hp : 0 <= get_path_length path_index p) by (apply Hlen; now left).
  assert (Ht : 0 <= paths_total path_index t).
  { apply paths_total_nonneg. intros; apply Hlen; now right. }
  destruct (add_path_tree path_index b p Hp Hb ltac:(lia)) as [Etot Etree].
  cbn [fold_left].
  apply (IH (Worker.add_path path_index b p));
    [intros; apply Hlen; now right | lia | lia | |].
  - intros iv Hin. rewrite Etree in Hin. rewrite Etot.
    apply in_app_or in Hin. destruct Hin as [Hin | [<- | []]].
    + specialize (Hend iv Hin). lia.
    + cbn. lia.
  - intros iv1 iv2 pos H1 H2 [C1 C1'] [C2 C2']. rewrite Etree in H1, H2.
    apply in_app_or in H1. apply in_app_or in H2.
    destruct H1 as [H1 | [<- | []]]; destruct H2 as [H2 | [<- | []]].
    + apply (Huniq iv1 iv2 pos); [assumption | assumption | split | split]; assumption.
    + specialize (Hend iv1 H1). cbn in C2. lia.
    + specialize (Hend iv2 H2). cbn in C1. lia.
    + reflexivity.
Qed.

Lemma add_paths_longest (path_index : XP) (paths : list path_handle_t) :
  forall b : tree_build,
  let b' := fold_left (Worker.add_path path_index) paths b in
  longest_path_in_nucleotides b <= longest_path_in_nucleotides b' /\
  (forall p, In p paths -> get_path_length path_index p <= longest_path_in_nucleotides b') /\
  (longest_path_in_nucleotides b' = longest_path_in_nucleotides b \/
   exists p, In p paths /\ longest_path_in_nucleotides b' = get_path_length path_index p) /\
  length (path_nucleotide_tree b') = (length (path_nucleotide_tree b) + length paths)%nat.
Proof.
  induction paths as [| p t IH]; intros b; cbn zeta.
  - cbn. split; [lia |]. split; [intros p [] |]. split; [now left | lia].
  - cbn [fold_left]. destruct (IH (Worker.add_path path_index b p)) as (H1 & H2 & H3 & H4).
    assert (Hstep : longest_path_in_nucleotides (Worker.add_path path_index b p)
                    = Z.max (get_path_length path_index p) (longest_path_in_nucleotides b)).
    { unfold Worker.add_path. cbn.
      destruct (get_path_length path_index p >? longest_path_in_nucleotides b) eqn:E.
      - rewrite Z.gtb_ltb in E. apply Z.ltb_lt in E. lia.
      - rewrite Z.gtb_ltb in E. apply Z.ltb_ge in E. lia. }
    assert (Hlen : length (path_nucleotide_tree (Worker.add_path path_index b p))
                   = S (length (path_nucleotide_tree b))).
    { unfold Worker.add_path, iitree_add. cbn. rewrite length_app. cbn. lia. }
    split; [lia |]. split; [| split].
    + intros q [<- | Hq]; [lia | now apply H2].
    + destruct H3 as [H3 | (q & Hq & H3)].
      * rewrite H3, Hstep.
        destruct (Z.max_spec (get_path_length path_index p)
                    (longest_path_in_nucleotides b)) as [[_ E] | [_ E]]; rewrite E.
        -- now left.
        -- right. exists p. split; [now left | reflexivity].
      * right. exists q. split; [now right | exact H3].
    + rewrite H4, Hlen. cbn. lia.
Qed.

(** X2.  After the loop over the selected paths, the running total is the sum
    of their lengths, the tree holds one interval per path, and
    [longest_path_in_nucleotides] is the largest of the lengths (zero when no
    path is selected).  The same holds in both drivers. *)
Theorem build_tree_totals (path_index : XP) (paths : list path_handle_t) :
  (forall p, In p paths -> 0 <= get_path_length path_index p) ->
  paths_total path_index paths < two64 ->
  let b := Worker.build_tree path_index paths in
  Deterministic.build_tree path_index paths = b /\
  total_path_len_in_nucleotides b = paths_total path_index paths /\
  length (path_nucleotide_tree b) = length paths /\
  (forall p, In p paths -> get_path_length path_index p <= longest_path_in_nucleotides b) /\
  (paths = [] -> longest_path_in_nucleotides b = 0) /\
  (paths <> [] -> exists p, In p paths /\
                            longest_path_in_nucleotides b = get_path_length path_index p).
Proof.
  intros Hlen Hsum b. unfold b, Worker.build_tree.
  pose proof (add_paths_cover path_index paths
                {| path_nucleotide_tree := []; total_path_len_in_nucleotides := 0;
                   longest_path_in_nucleotides := 0 |} Hlen) as Hc.
  cbn [total_path_len_in_nucleotides] in Hc.
  destruct (Hc ltac:(lia) ltac:(lia)) as (Htot & _ & _). clear Hc.
  destruct (add_paths_longest path_index paths
              {| path_nucleotide_tree := []; total_path_len_in_nucleotides := 0;
                 longest_path_in_nucleotides := 0 |}) as (H1 & H2 & H3 & H4).
  cbn [total_path_len_in_nucleotides longest_path_in_nucleotides
       path_nucleotide_tree length] in *.
  split; [reflexivity |]. split; [lia |]. split; [lia |]. split; [exact H2 |]. split.
  - intros ->. reflexivity.
  - intros Hne. destruct H3 as [H3 | H3]; [| exact H3].
    destruct paths as [| p t]; [contradiction |].
    exists p. split; [now left |].
    pose proof (H2 p ltac:(now left)). pose proof (Hlen p ltac:(now left)).
    lia.
Qed.

Lemma build_tree_totals_witness :
  let b := Worker.build_tree Examples.first_node_path [0; 0] in
  Deterministic.build_tree Examples.first_node_path [0; 0] = b /\
  total_path_len_in_nucleotides b = paths_total Examples.first_node_path [0; 0] /\
  length (path_nucleotide_tree b) = length [0; 0] /\
  (forall p, In p [0; 0] ->
     get_path_length Examples.first_node_path p <= longest_path_in_nucleotides b) /\
  ([0; 0] = [] -> longest_path_in_nucleotides b = 0) /\
  ([0; 0] <> [] ->
   exists p, In p [0; 0] /\
             longest_path_in_nucleotides b = get_path_length Examples.first_node_path p).
Proof.
  apply (build_tree_totals Examples.first_node_path [0; 0]).
  - intros p _. cbn. lia.
  - reflexivity.
Defined.

Lemma overlap_covers (t : IITree) (pos : Z) (iv : interval) :
  0 <= pos -> pos + 1 < two64 ->
  In iv (iitree_overlap t pos (u64 (pos + 1))) -> In iv t /\ covers iv pos.
Proof.
  intros Hpos Hbig Hin. unfold iitree_overlap in Hin. apply filter_In in Hin.
  destruct Hin as [Hin Hb]. rewrite u64_small in Hb by lia.
  apply andb_prop in Hb. destruct Hb as [H1 H2].
  apply Z.ltb_lt in H1. apply Z.ltb_lt in H2. split; [exact Hin |]. unfold covers. lia.
Qed.

(** X3.  Path-uniform sampling lands inside a selected path.  For a drawn
    [pos] in [[0, T)] the query answers with one interval only (all returned
    intervals are the same one), and the body continues with a selected path,
    [path_len = L(path) - 1] and a position [pos - start] in
    [[0, path_len]], without wrap-around.  The same holds in both drivers. *)
Theorem pick_inside_path (path_index : XP) (paths : list path_handle_t)
    (num_nodes : Z) (sample_from_nodes : bool) (pos : Z) (gen : rng) :
  (forall p, In p paths -> 0 <= get_path_length path_index p) ->
  paths_total path_index paths < two64 ->
  0 <= pos < paths_total path_index paths ->
  let tree := path_nucleotide_tree (Worker.build_tree path_index paths) in
  exists iv,
    In iv tree /\ covers iv pos /\
    (forall iv', In iv' (iitree_overlap tree pos (u64 (pos + 1))) -> iv' = iv) /\
    In (iv_data iv) paths /\
    0 <= pos - iv_st iv <= get_path_length path_index (iv_data iv) - 1 /\
    Worker.pick path_index tree num_nodes true sample_from_nodes pos gen
    = Picked (iv_data iv) (pos - iv_st iv)
        (get_path_length path_index (iv_data iv) - 1) gen /\
    Deterministic.pick path_index
      (path_nucleotide_tree (Deterministic.build_tree path_index paths))
      num_nodes true sample_from_nodes pos gen
    = Picked (iv_data iv) (pos - iv_st iv)
        (get_path_length path_index (iv_data iv) - 1) gen.
Proof.
  intros Hlen Hsum Hpos tree.
  destruct (build_tree_covers path_index paths pos Hlen Hsum Hpos) as [Etot Hne].
  fold tree in Hne.
  assert (Hiv : forall iv, In iv tree ->
            In (iv_data iv) paths /\
            iv_en iv = iv_st iv + get_path_length path_index (iv_data iv) /\
            0 <= iv_st iv /\ iv_en iv <= paths_total path_index paths).
  { intros iv Hin. unfold tree, Worker.build_tree in Hin.
    pose proof (add_paths_intervals path_index paths
                  {| path_nucleotide_tree := []; total_path_len_in_nucleotides := 0;
                   longest_path_in_nucleotides := 0 |} Hlen) as Hi.
    cbn [total_path_len_in_nucleotides path_nucleotide_tree] in Hi.
    destruct (Hi ltac:(lia) ltac:(lia) iv Hin) as [[] | H]. cbn in H. tauto. }
  assert (Huniq : forall iv1 iv2, In iv1 tree -> In iv2 tree ->
            covers iv1 pos -> covers iv2 pos -> iv1 = iv2).
  { intros iv1 iv2 H1 H2. unfold tree, Worker.build_tree in H1, H2.
    pose proof (add_paths_disjoint path_index paths
                  {| path_nucleotide_tree := []; total_path_len_in_nucleotides := 0;
                   longest_path_in_nucleotides := 0 |} Hlen) as Hd.
    cbn [total_path_len_in_nucleotides path_nucleotide_tree] in Hd.
    apply (Hd ltac:(lia) ltac:(lia) ltac:(intros ? []) ltac:(intros ? ? ? [])
             iv1 iv2 pos H1 H2). }
  assert (Hmem : forall iv', In iv' (iitree_overlap tree pos (u64 (pos + 1))) ->
            In iv' tree /\ covers iv' pos).
  { intros iv'. apply overlap_covers; lia. }
  assert (Hpick : forall iv rest, iitree_overlap tree pos (u64 (pos + 1)) = iv :: rest ->
            Worker.pick path_index tree num_nodes true sample_from_nodes pos gen
            = Picked (iv_data iv) (pos - iv_st iv)
                (get_path_length path_index (iv_data iv) - 1) gen).
  { intros iv rest E. unfold Worker.pick. rewrite E.
    destruct (Hmem iv ltac:(rewrite E; now left)) as [Hin [C1 C2]].
    destruct (Hiv iv Hin) as (_ & He & Hs & Hu).
    rewrite !u64_small by lia. reflexivity. }
  destruct (iitree_overlap tree pos (u64 (pos + 1))) as [| iv rest] eqn:E;
    [contradiction |].
  destruct (Hmem iv ltac:(now left)) as [Hin Hc].
  destruct (Hiv iv Hin) as (Hd & He & Hs & Hu).
  exists iv. split; [exact Hin |]. split; [exact Hc |]. split; [| split; [exact Hd |]].
  - intros iv' Hin'. destruct (Hmem iv' Hin') as [Hi' Hc'].
    now apply Huniq.
  - destruct Hc as [C1 C2]. split; [lia |].
    pose proof (Hpick iv rest eq_refl) as P. split; exact P.
Qed.

Lemma pick_inside_path_witness :
  let tree := path_nucleotide_tree (Worker.build_tree Examples.first_node_path [0; 0]) in
  exists iv,
    In iv tree /\ covers iv 13 /\
    (forall iv', In iv' (iitree_overlap tree 13 (u64 (13 + 1))) -> iv' = iv) /\
    In (iv_data iv) [0; 0] /\
    0 <= 13 - iv_st iv <= get_path_length Examples.first_node_path (iv_data iv) - 1 /\
    Worker.pick Examples.first_node_path tree 3 true false 13 (Examples.constant_gen 0)
    = Picked (iv_data iv) (13 - iv_st iv)
        (get_path_length Examples.first_node_path (iv_data iv) - 1)
        (Examples.constant_gen 0) /\
    Deterministic.pick Examples.first_node_path
      (path_nucleotide_tree (Deterministic.build_tree Examples.first_node_path [0; 0]))
      3 true false 13 (Examples.constant_gen 0)
    = Picked (iv_data iv) (13 - iv_st iv)
        (get_path_length Examples.first_node_path (iv_data iv) - 1)
        (Examples.constant_gen 0).
Proof.
  apply (pick_inside_path Examples.first_node_path [0; 0] 3 false 13
           (Examples.constant_gen 0)).
  - intros p _. cbn. lia.
  - reflexivity.
  - cbn. lia.
Defined.

(** ** More on the update kernel *)

(** The steps of one update, spelled out. *)
Lemma update_steps (s : sgd_state) (i j : nat) (d_ij Xi Xj : R) :
  vec_get (X s) i = Some Xi -> vec_get (X s) j = Some Xj ->
  let r_x := Worker.r_x_of (eta s) d_ij Xi Xj in
  let Delta_abs := Rabs (Worker.Delta_of (eta s) d_ij Xi Xj) in
  exists X1 Xj' X2,
    vec_set (X s) i (Xi - r_x)%R = Some X1 /\
    vec_get X1 j = Some Xj' /\
    vec_set X1 j (Xj' + r_x)%R = Some X2 /\
    Worker.update s i j d_ij
    = Some {| X := X2;
              term_updates := u64 (term_updates s + 1);
              eta := eta s;
              Delta_max := if fgtb Delta_abs (Delta_max s)
                           then Delta_abs else Delta_max s |}.
Proof.
  intros Ei Ej r_x Delta_abs.
  assert (Hi : (i < length (X s))%nat).
  { apply nth_error_Some. unfold vec_get in Ei. congruence. }
  assert (Hj : (j < length (X s))%nat).
  { apply nth_error_Some. unfold vec_get in Ej. congruence. }
  destruct (vec_set_some (X s) i (Xi - r_x)%R Hi) as [X1 E1].
  destruct (vec_set_length _ _ _ _ E1) as [L1 _].
  destruct (vec_get_some X1 j ltac:(lia)) as [Xj' Ej'].
  destruct (vec_set_some X1 j (Xj' + r_x)%R ltac:(lia)) as [X2 E2].
  exists X1, Xj', X2. repeat split; try assumption.
  unfold Worker.update. rewrite Ei, Ej. cbn [obind]. fold r_x.
  rewrite E1. cbn [obind]. rewrite Ej'. cbn [obind]. rewrite E2. reflexivity.
Qed.

Lemma fgtb_max (a b : R) : (if fgtb a b then a else b) = Rmax b a.
Proof.
  unfold fgtb, fltb, Rmax.
  destruct (Rlt_dec b a) as [L | G]; destruct (Rle_dec b a) as [L' | G']; lra.
Qed.

(** What one update does to the shared state. *)
Lemma update_effect (s : sgd_state) (i j : nat) (d_ij Xi Xj : R) :
  vec_get (X s) i = Some Xi -> vec_get (X s) j = Some Xj ->
  exists s',
    Worker.update s i j d_ij = Some s' /\
    Deterministic.update s i j d_ij = Some s' /\
    length (X s') = length (X s) /\
    (forall k, k <> i -> k <> j -> vec_get (X s') k = vec_get (X s) k) /\
    eta s' = eta s /\
    term_updates s' = u64 (term_updates s + 1) /\
    Delta_max s' = Rmax (Delta_max s) (Rabs (Worker.Delta_of (eta s) d_ij Xi Xj)) /\
    (Delta_max s <= Delta_max s')%R.
Proof.
  intros Ei Ej.
  destruct (update_steps s i j d_ij Xi Xj Ei Ej) as (X1 & Xj' & X2 & E1 & Ej' & E2 & Eu).
  eexists. split; [exact Eu |]. split; [exact Eu |]. cbn [X eta term_updates Delta_max].
  destruct (vec_set_length _ _ _ _ E1) as [L1 _].
  destruct (vec_set_length _ _ _ _ E2) as [L2 _].
  rewrite fgtb_max.
  split; [lia |]. split; [| split; [reflexivity | split; [reflexivity | split]]].
  - intros k Hi Hj.
    rewrite (vec_get_set_other _ _ _ _ _ E2) by exact Hj.
    apply (vec_get_set_other _ _ _ _ _ E1). exact Hi.
  - reflexivity.
  - apply Rmax_l.
Qed.

(** X4.  One update is local.  On indices inside [X] it succeeds, keeps the
    size of [X], leaves every coordinate other than [X[i]] and [X[j]] as it
    was, does not touch [eta], counts one more term update (modulo [2^64])
    and leaves in [Delta_max] the larger of its old value and [|Delta|]. *)
Theorem update_is_local (s : sgd_state) (i j : nat) (d_ij Xi Xj : R) :
  vec_get (X s) i = Some Xi -> vec_get (X s) j = Some Xj ->
  exists s',
    Worker.update s i j d_ij = Some s' /\
    Deterministic.update s i j d_ij = Some s' /\
    length (X s') = length (X s) /\
    (forall k, k <> i -> k <> j -> vec_get (X s') k = vec_get (X s) k) /\
    eta s' = eta s /\
    term_updates s' = u64 (term_updates s + 1) /\
    Delta_max s' = Rmax (Delta_max s) (Rabs (Worker.Delta_of (eta s) d_ij Xi Xj)) /\
    (Delta_max s <= Delta_max s')%R.
Proof.
  apply update_effect.
Qed.

Lemma update_is_local_witness :
  exists s',
    Worker.update Examples.seeded 0 2 10 = Some s' /\
    Deterministic.update Examples.seeded 0 2 10 = Some s' /\
    length (X s') = length (X Examples.seeded) /\
    (forall k, k <> 0%nat -> k <> 2%nat ->
       vec_get (X s') k = vec_get (X Examples.seeded) k) /\
    eta s' = eta Examples.seeded /\
    term_updates s' = u64 (term_updates Examples.seeded + 1) /\
    Delta_max s' = Rmax (Delta_max Examples.seeded)
                     (Rabs (Worker.Delta_of (eta Examples.seeded) 10 0 30)) /\
    (Delta_max Examples.seeded <= Delta_max s')%R.
Proof.
  apply (update_is_local Examples.seeded 0 2 10 0 30); reflexivity.
Defined.

(** ** The update under rounding

    What the update keeps when every operation is rounded by a monotone
    [rnd] that fixes zero, as rounding to nearest does. *)

Section Rounding.

Variable rnd : R -> R.
Hypothesis rnd_monotone : forall x y : R, (x <= y)%R -> (rnd x <= rnd y)%R.
Hypothesis rnd_zero : rnd 0 = 0%R.

Lemma rnd_nonneg (x : R) : (0 <= x)%R -> (0 <= rnd x)%R.
Proof. intros H. rewrite <- rnd_zero. now apply rnd_monotone. Qed.

Lemma rnd_nonpos (x : R) : (x <= 0)%R -> (rnd x <= 0)%R.
Proof. intros H. rewrite <- rnd_zero. now apply rnd_monotone. Qed.

Lemma rounded_mu_nonneg (eta d : R) :
  (0 <= eta)%R -> (0 < d)%R -> (0 <= Kernel.mu_of (Kernel.rounded rnd) eta d)%R.
Proof.
  intros He Hd.
  assert (E : Kernel.mu_of (Kernel.rounded rnd) eta d
              = if fgtb (rnd (eta * rnd (1 / d))) 1 then 1%R else rnd (eta * rnd (1 / d)))
    by reflexivity.
  rewrite E. destruct (fgtb _ 1); [lra |].
  apply rnd_nonneg. apply Rmult_le_pos; [exact He |].
  apply rnd_nonneg. left. apply Rdiv_lt_0_compat; lra.
Qed.

Lemma quotient_sign (a b : R) :
  (0 <= b)%R ->
  ((0 <= a)%R -> (0 <= a / b)%R) /\ ((a <= 0)%R -> (a / b <= 0)%R).
Proof.
  intros Hb.
  assert (Hi : (0 <= / b)%R).
  { destruct Hb as [Hb | <-]; [left; now apply Rinv_0_lt_compat | rewrite Rinv_0; lra]. }
  unfold Rdiv. split; intros Ha; nra.
Qed.

(** The sign of the rounded [r_x]: that of [dx * (mag - d_ij)]. *)
Lemma rounded_r_x_sign (eta d Xi Xj : R) :
  (0 <= eta)%R -> (0 < d)%R ->
  let A := Kernel.rounded rnd in
  let dx := Kernel.dx_of A Xi Xj in
  let mag := Kernel.mag_of A Xi Xj in
  let r_x := Kernel.r_x_of A eta d Xi Xj in
  ((0 <= dx)%R -> (d <= mag)%R -> (0 <= r_x)%R) /\
  ((0 <= dx)%R -> (mag <= d)%R -> (r_x <= 0)%R) /\
  ((dx <= 0)%R -> (d <= mag)%R -> (r_x <= 0)%R) /\
  ((dx <= 0)%R -> (mag <= d)%R -> (0 <= r_x)%R).
Proof.
  intros He Hd A dx mag r_x.
  pose proof (rounded_mu_nonneg eta d He Hd) as Hmu. fold A in Hmu.
  assert (Hmag : (0 <= mag)%R) by apply Rabs_pos.
  set (Delta := Kernel.Delta_of A eta d Xi Xj).
  assert (HD : ((d <= mag)%R -> (0 <= Delta)%R) /\ ((mag <= d)%R -> (Delta <= 0)%R)).
  { assert (ED : Delta = rnd (rnd (Kernel.mu_of A eta d * rnd (mag - d)) / 2))
      by reflexivity.
    rewrite ED. split; intros H.
    - apply rnd_nonneg.
      assert (0 <= rnd (Kernel.mu_of A eta d * rnd (mag - d)))%R.
      { apply rnd_nonneg. apply Rmult_le_pos; [exact Hmu |]. apply rnd_nonneg. lra. }
      lra.
    - apply rnd_nonpos.
      assert (rnd (Kernel.mu_of A eta d * rnd (mag - d)) <= 0)%R.
      { apply rnd_nonpos. assert (rnd (mag - d) <= 0)%R by (apply rnd_nonpos; lra). nra. }
      lra. }
  destruct HD as [HD1 HD2].
  set (r := rnd (Delta / mag)).
  assert (Hr : ((d <= mag)%R -> (0 <= r)%R) /\ ((mag <= d)%R -> (r <= 0)%R)).
  { destruct (quotient_sign Delta mag Hmag) as [Q1 Q2]. split; intros H.
    - apply rnd_nonneg. apply Q1. now apply HD1.
    - apply rnd_nonpos. apply Q2. now apply HD2. }
  destruct Hr as [Hr1 Hr2].
  assert (Erx : r_x = rnd (r * dx)) by reflexivity.
  rewrite Erx.
  repeat split; intros Hdx Hm.
  - apply rnd_nonneg. specialize (Hr1 Hm). nra.
  - apply rnd_nonpos. specialize (Hr2 Hm). nra.
  - apply rnd_nonpos. specialize (Hr1 Hm). nra.
  - apply rnd_nonneg. specialize (Hr2 Hm). nra.
Qed.

Lemma rounded_dx_sign (Xi Xj : R) :
  let dx := Kernel.dx_of (Kernel.rounded rnd) Xi Xj in
  ((Xj <= Xi)%R -> (0 <= dx)%R) /\
  ((Xi < Xj)%R -> rnd (Xi - Xj) <> 0%R -> (dx <= 0)%R).
Proof.
  intros dx.
  assert (E : dx = if feqb (rnd (Xi - Xj)) 0 then rnd tiny else rnd (Xi - Xj))
    by reflexivity.
  rewrite E. clear E dx. split.
  - intros H. destruct (feqb (rnd (Xi - Xj)) 0).
    + apply rnd_nonneg. pose proof tiny_pos. lra.
    + apply rnd_nonneg. lra.
  - intros H Hn. destruct (feqb (rnd (Xi - Xj)) 0) eqn:E.
    + apply feqb_true in E. contradiction.
    + apply rnd_nonpos. lra.
Qed.

End Rounding.

Lemma chop_monotone (x y : R) : (x <= y)%R -> (Examples.chop x <= Examples.chop y)%R.
Proof.
  intros H. unfold Examples.chop.
  assert (Hz : (IZR (Zfloor (x * 1024)) <= IZR (Zfloor (y * 1024)))%R).
  { apply IZR_le. apply Zfloor_le. lra. }
  lra.
Qed.

Lemma chop_integer (z : Z) : Examples.chop (IZR z) = IZR z.
Proof.
  unfold Examples.chop. rewrite <- mult_IZR, ZfloorZ, mult_IZR. field.
Qed.

(** X5.  One update never moves a pair the wrong way, whatever is lost to
    rounding.  With a monotone rounding that fixes zero and the two
    coordinates, a non-negative learning rate and a positive [d_ij]: when the
    computed separation [mag] is at least [d_ij] the two coordinates do not
    move apart ([X[i]] does not move away from [X[j]], nor [X[j]] from
    [X[i]]), and when [mag] is at most [d_ij] they do not move together. *)
Theorem update_direction (rnd : R -> R) (s : Kernel.state R) (i j : nat)
    (d_ij Xi Xj : R) :
  (forall x y : R, (x <= y)%R -> (rnd x <= rnd y)%R) -> rnd 0%R = 0%R ->
  rnd Xi = Xi -> rnd Xj = Xj ->
  i <> j -> vec_get (Kernel.X s) i = Some Xi -> vec_get (Kernel.X s) j = Some Xj ->
  (0 <= Kernel.eta s)%R -> (0 < d_ij)%R ->
  let mag := Kernel.mag_of (Kernel.rounded rnd) Xi Xj in
  exists s' Xi' Xj',
    Kernel.update (Kernel.rounded rnd) s i j d_ij = Some s' /\
    vec_get (Kernel.X s') i = Some Xi' /\ vec_get (Kernel.X s') j = Some Xj' /\
    ((Xj <= Xi)%R -> (d_ij <= mag)%R -> (Xi' <= Xi)%R /\ (Xj <= Xj')%R) /\
    ((Xj <= Xi)%R -> (mag <= d_ij)%R -> (Xi <= Xi')%R /\ (Xj' <= Xj)%R) /\
    ((Xi < Xj)%R -> rnd (Xi - Xj)%R <> 0%R -> (d_ij <= mag)%R ->
     (Xi <= Xi')%R /\ (Xj' <= Xj)%R) /\
    ((Xi < Xj)%R -> rnd (Xi - Xj)%R <> 0%R -> (mag <= d_ij)%R ->
     (Xi' <= Xi)%R /\ (Xj <= Xj')%R).
Proof.
  intros Hmono H0 Hfi Hfj Hne Ei Ej He Hd mag.
  destruct (rounded_update_steps rnd s i j d_ij Xi Xj Ei Ej)
    as (X1 & Xj1 & X2 & E1 & Ej1 & E2 & Eu).
  set (r_x := Kernel.r_x_of (Kernel.rounded rnd) (Kernel.eta s) d_ij Xi Xj) in *.
  assert (Ej' : Xj1 = Xj).
  { rewrite (vec_get_set_other _ _ _ _ _ E1) in Ej1 by (intros E; now apply Hne).
    congruence. }
  subst Xj1.
  destruct (rounded_r_x_sign rnd Hmono H0 (Kernel.eta s) d_ij Xi Xj He Hd)
    as (S1 & S2 & S3 & S4).
  destruct (rounded_dx_sign rnd Hmono H0 Xi Xj) as [D1 D2].
  fold r_x in S1, S2, S3, S4. fold mag in S1, S2, S3, S4.
  assert (Hdown : (0 <= r_x)%R -> (rnd (Xi - r_x) <= Xi)%R /\ (Xj <= rnd (Xj + r_x))%R).
  { intros Hr. split.
    - rewrite <- Hfi at 2. apply Hmono. lra.
    - rewrite <- Hfj at 1. apply Hmono. lra. }
  assert (Hup : (r_x <= 0)%R -> (Xi <= rnd (Xi - r_x))%R /\ (rnd (Xj + r_x) <= Xj)%R).
  { intros Hr. split.
    - rewrite <- Hfi at 1. apply Hmono. lra.
    - rewrite <- Hfj at 2. apply Hmono. lra. }
  eexists. exists (rnd (Xi - r_x)%R), (rnd (Xj + r_x)%R).
  split; [exact Eu |]. cbn [Kernel.X].
  split.
  { rewrite (vec_get_set_other _ _ _ _ _ E2) by exact Hne.
    now apply (vec_get_set_same (Kernel.X s)). }
  split; [now apply (vec_get_set_same X1) |].
  split; [| split; [| split]].
  - intros Ho Hm. apply Hdown. apply S1; [now apply D1 | exact Hm].
  - intros Ho Hm. apply Hup. apply S2; [now apply D1 | exact Hm].
  - intros Ho Hn Hm. apply Hup. apply S3; [now apply D2 | exact Hm].
  - intros Ho Hn Hm. apply Hdown. apply S4; [now apply D2 | exact Hm].
Qed.

Lemma update_direction_witness :
  let mag := Kernel.mag_of (Kernel.rounded Examples.chop) 30%R 0%R in
  exists s' Xi' Xj',
    Kernel.update (Kernel.rounded Examples.chop) (kernel_state Examples.seeded) 2 0 7%R
    = Some s' /\
    vec_get (Kernel.X s') 2 = Some Xi' /\ vec_get (Kernel.X s') 0 = Some Xj' /\
    ((0 <= 30)%R -> (7 <= mag)%R -> (Xi' <= 30)%R /\ (0 <= Xj')%R) /\
    ((0 <= 30)%R -> (mag <= 7)%R -> (30 <= Xi')%R /\ (Xj' <= 0)%R) /\
    ((30 < 0)%R -> Examples.chop (30 - 0) <> 0%R -> (7 <= mag)%R ->
     (30 <= Xi')%R /\ (Xj' <= 0)%R) /\
    ((30 < 0)%R -> Examples.chop (30 - 0) <> 0%R -> (mag <= 7)%R ->
     (Xi' <= 30)%R /\ (0 <= Xj')%R).
Proof.
  apply (update_direction Examples.chop (kernel_state Examples.seeded) 2 0 7%R 30%R 0%R).
  - exact chop_monotone.
  - apply (chop_integer 0).
  - apply (chop_integer 30).
  - apply (chop_integer 0).
  - discriminate.
  - reflexivity.
  - reflexivity.
  - cbn. lra.
  - lra.
Defined.

Lemma vec_set_back {A} (v v1 v2 : list A) (i : nat) (a b : A) :
  vec_set v i a = Some v1 -> vec_set v1 i b = Some v2 -> vec_get v i = Some b -> v2 = v.
Proof.
  revert i v1 v2. induction v as [| x t IH]; intros i v1 v2 H1 H2 Hg; [discriminate |].
  destruct i as [| k]; cbn in H1.
  - injection H1 as <-. cbn in H2. injection H2 as <-. cbn in Hg. congruence.
  - destruct (vec_set t k a) as [t1 |] eqn:E1; cbn in H1; [| discriminate].
    injection H1 as <-. cbn in H2.
    destruct (vec_set t1 k b) as [t2 |] eqn:E2; cbn in H2; [| discriminate].
    injection H2 as <-. f_equal. apply (IH k t1 t2 E1 E2). exact Hg.
Qed.

Lemma vec_set_twice {A} (v v1 v2 : list A) (i : nat) (a b : A) :
  vec_set v i a = Some v1 -> vec_set v1 i b = Some v2 -> vec_set v i b = Some v2.
Proof.
  revert i v1 v2. induction v as [| x t IH]; intros i v1 v2 H1 H2; [discriminate |].
  destruct i as [| k]; cbn in H1.
  - injection H1 as <-. exact H2.
  - destruct (vec_set t k a) as [t1 |] eqn:E1; cbn in H1; [| discriminate].
    injection H1 as <-. cbn in H2.
    destruct (vec_set t1 k b) as [t2 |] eqn:E2; cbn in H2; [| discriminate].
    injection H2 as <-. cbn. rewrite (IH k t1 t2 E1 E2). reflexivity.
Qed.

(** X6.  A term whose two handles are the same node (a path that visits a
    node twice) is still applied and counted: [dx] is the [1e-9] of the
    guard, and the only coordinate written is [X[i]], which receives
    [(X[i] - r_x) + r_x], rounded after each of the two operations.  [X] is
    unchanged when these two operations are exact; in binary64 it need not
    be: from [X[i] = 1] with [d_ij = 10] and [eta = 3] the update leaves
    [0.99999999999999978]. *)
Theorem update_same_node (rnd : R -> R) (s : Kernel.state R) (i : nat)
    (d_ij Xi : R) :
  rnd 0%R = 0%R -> vec_get (Kernel.X s) i = Some Xi ->
  let A := Kernel.rounded rnd in
  let r_x := Kernel.r_x_of A (Kernel.eta s) d_ij Xi Xi in
  (exists s',
     Kernel.update A s i i d_ij = Some s' /\
     vec_set (Kernel.X s) i (rnd (rnd (Xi - r_x) + r_x)%R) = Some (Kernel.X s') /\
     Kernel.term_updates s' = u64 (Kernel.term_updates s + 1) /\
     Kernel.dx_of A Xi Xi = rnd tiny /\
     (rnd (Xi - r_x)%R = (Xi - r_x)%R -> rnd Xi = Xi -> Kernel.X s' = Kernel.X s)) /\
  option_map Kernel.X (Kernel.update Kernel.binary64 Examples.one_double 0 0 10%float)
  = Some [0x1.ffffffffffffep-1%float].
Proof.
  intros H0 Ei A r_x. split; [| vm_compute; reflexivity].
  destruct (rounded_update_steps rnd s i i d_ij Xi Xi Ei Ei)
    as (X1 & Xj1 & X2 & E1 & Ej1 & E2 & Eu).
  fold A in E1, E2, Eu. fold r_x in E1, E2.
  rewrite (vec_get_set_same _ _ _ _ E1) in Ej1. injection Ej1 as <-.
  eexists. split; [exact Eu |]. cbn [Kernel.X Kernel.term_updates].
  pose proof (vec_set_twice _ _ _ _ _ _ E1 E2) as E12.
  split; [exact E12 |]. split; [reflexivity |]. split.
  - assert (E : Kernel.dx_of A Xi Xi
                = if feqb (rnd (Xi - Xi)%R) 0%R then rnd tiny else rnd (Xi - Xi)%R)
      by reflexivity.
    rewrite E. replace (Xi - Xi)%R with 0%R by ring. rewrite H0.
    now rewrite (feqb_eq 0 0).
  - intros Ha Hb. apply (vec_set_back (Kernel.X s) X1 X2 i _ _ E1 E2).
    rewrite Ei. f_equal. rewrite Ha. replace (Xi - r_x + r_x)%R with Xi by ring.
    now symmetry.
Qed.

Lemma update_same_node_witness :
  let A := Kernel.rounded Examples.chop in
  let r_x := Kernel.r_x_of A (Kernel.eta (kernel_state Examples.seeded)) 10%R 10%R 10%R in
  (exists s',
     Kernel.update A (kernel_state Examples.seeded) 1 1 10%R = Some s' /\
     vec_set (Kernel.X (kernel_state Examples.seeded)) 1
       (Examples.chop (Examples.chop (10 - r_x) + r_x)) = Some (Kernel.X s') /\
     Kernel.term_updates s'
     = u64 (Kernel.term_updates (kernel_state Examples.seeded) + 1) /\
     Kernel.dx_of A 10%R 10%R = Examples.chop tiny /\
     (Examples.chop (10 - r_x) = (10 - r_x)%R -> Examples.chop 10 = 10%R ->
      Kernel.X s' = Kernel.X (kernel_state Examples.seeded))) /\
  option_map Kernel.X (Kernel.update Kernel.binary64 Examples.one_double 0 0 10%float)
  = Some [0x1.ffffffffffffep-1%float].
Proof.
  apply (update_same_node Examples.chop (kernel_state Examples.seeded) 1 10%R 10%R).
  - apply (chop_integer 0).
  - reflexivity.
Defined.

(** ** Terms and the loop body *)

(** X7.  The term distance is symmetric in the two positions and never
    negative, and two positions inside the same step give the same handle
    twice at distance zero (so the body skips them). *)
Theorem term_of_distance (graph : PathHandleGraph) (path_index : XP)
    (path : path_handle_t) (pos_a pos_b : Z) :
  let t := Worker.term_of graph path_index path pos_a pos_b in
  Worker.term_of graph path_index path pos_b pos_a = (snd (fst t), fst (fst t), snd t) /\
  (0 <= snd t)%R /\
  (get_step_at_position path_index path pos_a
   = get_step_at_position path_index path pos_b ->
   fst (fst t) = snd (fst t) /\ snd t = 0%R /\ feqb (snd t) 0 = true).
Proof.
  cbv zeta. unfold Worker.term_of. cbn [fst snd]. split; [| split].
  - f_equal. apply Rabs_minus_sym.
  - apply Rabs_pos.
  - intros E. rewrite E. split; [reflexivity |].
    assert (Z0 : forall x : R, Rabs (x - x) = 0%R).
    { intros x. rewrite Rminus_diag. apply Rabs_R0. }
    split; [apply Z0 | apply feqb_true; apply Z0].
Qed.

Lemma update_in_range (s s' : sgd_state) (i j : nat) (d : R) :
  Worker.update s i j d = Some s' ->
  exists Xi Xj, vec_get (X s) i = Some Xi /\ vec_get (X s) j = Some Xj.
Proof.
  unfold Worker.update. intros H.
  destruct (vec_get (X s) i) as [Xi |]; [| discriminate].
  destruct (vec_get (X s) j) as [Xj |]; [| discriminate].
  now exists Xi, Xj.
Qed.

(** The outcomes of one pass through the loop body. *)
Lemma loop_body_effect (graph : PathHandleGraph) (path_index : XP)
    (tree : IITree) (sample_from_paths sample_from_nodes : bool)
    (s : sgd_state) (gen : rng) :
  match Worker.loop_body graph path_index tree
          sample_from_paths sample_from_nodes s gen with
  | Updated i j d_ij s' gen' =>
      (0 < d_ij)%R /\ Worker.update s i j d_ij = Some s' /\
      length (X s') = length (X s) /\ eta s' = eta s /\
      term_updates s' = u64 (term_updates s + 1) /\
      (Delta_max s <= Delta_max s')%R /\
      draws gen' = draws gen /\
      (cursor gen + 3 <= cursor gen' <= cursor gen + 4)%nat
  | Continue s' gen' =>
      s' = s /\ draws gen' = draws gen /\
      (cursor gen + 1 <= cursor gen' <= cursor gen + 4)%nat
  | Exit pos =>
      sample_from_paths = true /\ pos = fst (draw gen) /\
      iitree_overlap tree pos (u64 (pos + 1)) = []
  | Undefined => True
  end.
Proof.
  unfold Worker.loop_body. cbv zeta.
  assert (Hpick :
    match Worker.pick path_index tree (get_node_count graph)
            sample_from_paths sample_from_nodes (fst (draw gen)) (snd (draw gen)) with
    | Picked _ _ _ g | PickContinue g =>
        draws g = draws gen /\ (cursor gen + 1 <= cursor g <= cursor gen + 2)%nat
    | PickExit pos =>
        sample_from_paths = true /\ pos = fst (draw gen) /\
        iitree_overlap tree pos (u64 (pos + 1)) = []
    end).
  { unfold Worker.pick. cbv zeta. destruct sample_from_paths.
    - destruct (iitree_overlap tree _ _) eqn:E; cbn; [now repeat split | split; [reflexivity | lia]].
    - destruct sample_from_nodes.
      + destruct (Worker.hit_num_paths_of _ _ _ =? 0); cbn; (split; [reflexivity | lia]).
      + destruct (np_bv path_index _); cbn; (split; [reflexivity | lia]). }
  destruct (draw gen) as [pos gen1] eqn:Ed. cbn [fst snd] in Hpick.
  destruct (Worker.pick _ _ _ _ _ pos gen1) as [path a len g | g | p].
  - destruct Hpick as [Hd Hc].
    destruct (draw g) as [zipf g1] eqn:E1. destruct (draw g1) as [flip g2] eqn:E2.
    assert (Hg2 : draws g2 = draws gen /\ cursor g2 = (cursor g + 2)%nat).
    { unfold draw in E1, E2. injection E1 as _ <-. injection E2 as _ <-. cbn.
      split; [exact Hd | lia]. }
    destruct Hg2 as [Hd2 Hc2].
    destruct (Worker.second_position a len zipf flip) as [b |].
    + destruct (Worker.term_of graph path_index path a b) as [[ti tj] td] eqn:Et.
      destruct (feqb td 0) eqn:Ez.
      * split; [reflexivity |]. split; [exact Hd2 | lia].
      * destruct (Worker.update s _ _ td) as [s' |] eqn:Eu; [| exact I].
        destruct (update_in_range _ _ _ _ _ Eu) as (Xi & Xj & Ei & Ej).
        destruct (update_effect s _ _ td Xi Xj Ei Ej)
          as (s2 & Eu2 & _ & Hl & _ & He & Ht & _ & Hm).
        rewrite Eu in Eu2. injection Eu2 as <-.
        assert (Htd : (0 < td)%R).
        { assert (Hge : (0 <= td)%R).
          { unfold Worker.term_of in Et. injection Et as _ _ <-. apply Rabs_pos. }
          destruct Hge as [Hlt | Heq]; [exact Hlt |].
          symmetry in Heq. apply feqb_true in Heq. congruence. }
        repeat split; try assumption; lia.
    + split; [reflexivity |]. split; [exact Hd2 | lia].
  - destruct Hpick as [Hd Hc]. split; [reflexivity |]. split; [exact Hd | lia].
  - exact Hpick.
Qed.

(** With every handle of the paths numbered inside [X], a pass through the
    loop body has a defined result. *)
Lemma loop_body_defined (graph : PathHandleGraph) (path_index : XP)
    (tree : IITree) (sample_from_paths sample_from_nodes : bool)
    (s : sgd_state) (gen : rng) :
  (forall step,
     (unpack_number graph (get_handle_of_step path_index step) < length (X s))%nat) ->
  Worker.loop_body graph path_index tree
    sample_from_paths sample_from_nodes s gen <> Undefined.
Proof.
  intros Hin. unfold Worker.loop_body. cbv zeta.
  destruct (draw gen) as [pos gen1].
  destruct (Worker.pick _ _ _ _ _ pos gen1) as [path a len g | g | p];
    [| discriminate | discriminate].
  destruct (draw g) as [zipf g1]. destruct (draw g1) as [flip g2].
  destruct (Worker.second_position a len zipf flip) as [b |]; [| discriminate].
  destruct (Worker.term_of graph path_index path a b) as [[ti tj] td] eqn:Et.
  destruct (feqb td 0); [discriminate |].
  assert (Hi : (unpack_number graph ti < length (X s))%nat).
  { unfold Worker.term_of in Et. injection Et as <- _ _. apply Hin. }
  assert (Hj : (unpack_number graph tj < length (X s))%nat).
  { unfold Worker.term_of in Et. injection Et as _ <- _. apply Hin. }
  destruct (update_defined s _ _ td Hi Hj) as [s' Eu].
  rewrite Eu. discriminate.
Qed.

(** X8.  What one pass through the loop body can do.  When every handle on
    the paths has its number inside [X] (the compact handle set the code
    assumes), a pass ends in one of three ways.  An update has a strictly
    positive [d_ij], is the kernel's update of the incoming state, keeps the
    size of [X] and the learning rate, counts one term update and does not
    lower [Delta_max]; a skip returns the state untouched; the fatal exit
    happens only on the [sample_from_paths] branch, for the drawn position,
    when the interval query is empty.  Every pass consumes between one and
    four draws. *)
Theorem loop_body_outcomes (graph : PathHandleGraph) (path_index : XP)
    (tree : IITree) (sample_from_paths sample_from_nodes : bool)
    (s : sgd_state) (gen : rng) :
  (forall step,
     (unpack_number graph (get_handle_of_step path_index step) < length (X s))%nat) ->
  match Worker.loop_body graph path_index tree
          sample_from_paths sample_from_nodes s gen with
  | Updated i j d_ij s' gen' =>
      (0 < d_ij)%R /\ Worker.update s i j d_ij = Some s' /\
      length (X s') = length (X s) /\ eta s' = eta s /\
      term_updates s' = u64 (term_updates s + 1) /\
      (Delta_max s <= Delta_max s')%R /\
      draws gen' = draws gen /\
      (cursor gen + 3 <= cursor gen' <= cursor gen + 4)%nat
  | Continue s' gen' =>
      s' = s /\ draws gen' = draws gen /\
      (cursor gen + 1 <= cursor gen' <= cursor gen + 4)%nat
  | Exit pos =>
      sample_from_paths = true /\ pos = fst (draw gen) /\
      iitree_overlap tree pos (u64 (pos + 1)) = []
  | Undefined => False
  end.
Proof.
  intros Hin.
  pose proof (loop_body_effect graph path_index tree
                sample_from_paths sample_from_nodes s gen) as H.
  pose proof (loop_body_defined graph path_index tree
                sample_from_paths sample_from_nodes s gen Hin) as D.
  destruct (Worker.loop_body graph path_index tree
              sample_from_paths sample_from_nodes s gen);
    [exact H | exact H | exact H | now apply D].
Qed.

Lemma loop_body_outcomes_witness :
  match Worker.loop_body Examples.three_nodes Examples.skipping_path
          (path_nucleotide_tree (Worker.build_tree Examples.skipping_path [0]))
          true false Examples.seeded Examples.far_term_gen with
  | Updated i j d_ij s' gen' =>
      (0 < d_ij)%R /\ Worker.update Examples.seeded i j d_ij = Some s' /\
      length (X s') = length (X Examples.seeded) /\ eta s' = eta Examples.seeded /\
      term_updates s' = u64 (term_updates Examples.seeded + 1) /\
      (Delta_max Examples.seeded <= Delta_max s')%R /\
      draws gen' = draws Examples.far_term_gen /\
      (cursor Examples.far_term_gen + 3 <= cursor gen'
       <= cursor Examples.far_term_gen + 4)%nat
  | Continue s' gen' =>
      s' = Examples.seeded /\ draws gen' = draws Examples.far_term_gen /\
      (cursor Examples.far_term_gen + 1 <= cursor gen'
       <= cursor Examples.far_term_gen + 4)%nat
  | Exit pos =>
      true = true /\ pos = fst (draw Examples.far_term_gen) /\
      iitree_overlap
        (path_nucleotide_tree (Worker.build_tree Examples.skipping_path [0]))
        pos (u64 (pos + 1)) = []
  | Undefined => False
  end.
Proof.
  apply (loop_body_outcomes Examples.three_nodes Examples.skipping_path
           (path_nucleotide_tree (Worker.build_tree Examples.skipping_path [0]))
           true false Examples.seeded Examples.far_term_gen).
  intros step. cbn. destruct (snd step =? 0); cbn; lia.
Defined.

(** ** The controller *)

Lemma fleb_true (a b : R) : fleb a b = true <-> (a <= b)%R.
Proof. unfold fleb. destruct (Rle_dec a b); split; intros; congruence || lra. Qed.

Lemma fleb_false (a b : R) : (b < a)%R -> fleb a b = false.
Proof.
  intros H. destruct (fleb a b) eqn:E; [| reflexivity]. apply fleb_true in E. lra.
Qed.

Lemma gtb_true (a b : Z) : (a >? b) = true <-> b < a.
Proof. rewrite Z.gtb_ltb. apply Z.ltb_lt. Qed.

Lemma gtb_false (a b : Z) : (a >? b) = false <-> a <= b.
Proof. rewrite Z.gtb_ltb. apply Z.ltb_ge. Qed.

(** X9.  The controller reads one entry past the schedule.  With a schedule
    of [iter_max] entries, a pass that finds enough term updates and no
    convergence stores [etas[iteration]] for the incremented counter: for
    [iteration + 1 < iter_max] that is the next learning rate, but on the
    pass that brings the counter to [iter_max] the index is outside the
    vector. *)
Theorem controller_reads_past_schedule (etas : list R)
    (iter_max min_term_updates : Z) (delta : R)
    (c : Controller.control) (s : sgd_state) :
  length etas = Z.to_nat iter_max -> iter_max < two64 ->
  0 <= Controller.iteration c ->
  min_term_updates < term_updates s -> (delta < Delta_max s)%R ->
  (Controller.iteration c + 1 < iter_max ->
   exists e,
     vec_get etas (Z.to_nat (Controller.iteration c + 1)) = Some e /\
     Controller.checker_pass etas iter_max min_term_updates delta c s
     = Some ({| Controller.iteration := Controller.iteration c + 1;
                Controller.work_todo := Controller.work_todo c |},
             {| X := X s; term_updates := 0; eta := e; Delta_max := delta |})) /\
  (Controller.iteration c + 1 = iter_max ->
   Controller.checker_pass etas iter_max min_term_updates delta c s = None).
Proof.
  intros Hlen Hmax Hit Hupd Hdelta.
  assert (Hgt : (term_updates s >? min_term_updates) = true) by now apply gtb_true.
  assert (Hfle : fleb (Delta_max s) delta = false) by now apply fleb_false.
  split.
  - intros Hlt.
    destruct (vec_get_some etas (Z.to_nat (Controller.iteration c + 1)) ltac:(lia))
      as [e Ee].
    exists e. split; [exact Ee |].
    unfold Controller.checker_pass. rewrite Hgt. cbv zeta.
    rewrite u64_small by lia.
    assert (Hle : (Controller.iteration c + 1 >? iter_max) = false)
      by (apply gtb_false; lia).
    rewrite Hle, Hfle, Ee. reflexivity.
  - intros Heq.
    unfold Controller.checker_pass. rewrite Hgt. cbv zeta.
    rewrite u64_small by lia.
    assert (Hle : (Controller.iteration c + 1 >? iter_max) = false)
      by (apply gtb_false; lia).
    rewrite Hle, Hfle.
    assert (Hnone : vec_get etas (Z.to_nat (Controller.iteration c + 1)) = None).
    { unfold vec_get. apply nth_error_None. lia. }
    rewrite Hnone. reflexivity.
Qed.

(** X10.  A defined controller pass never touches [X].  It does nothing at
    all unless strictly more than [min_term_updates] updates were counted;
    otherwise it increments the counter, resets [term_updates], and clears
    the run flag exactly when the counter exceeds [iter_max] or
    [Delta_max <= delta]. *)
Theorem controller_pass_effect (etas : list R) (iter_max min_term_updates : Z)
    (delta : R) (c c' : Controller.control) (s s' : sgd_state) :
  Controller.checker_pass etas iter_max min_term_updates delta c s = Some (c', s') ->
  X s' = X s /\
  (term_updates s <= min_term_updates -> c' = c /\ s' = s) /\
  (min_term_updates < term_updates s ->
   Controller.iteration c' = u64 (Controller.iteration c + 1) /\
   term_updates s' = 0 /\
   (Controller.work_todo c' = false <->
    Controller.work_todo c = false \/
    iter_max < u64 (Controller.iteration c + 1) \/ (Delta_max s <= delta)%R)).
Proof.
  unfold Controller.checker_pass. cbv zeta. intros H.
  destruct (term_updates s >? min_term_updates) eqn:Hgt.
  - apply gtb_true in Hgt.
    destruct (u64 (Controller.iteration c + 1) >? iter_max) eqn:Hit.
    + apply gtb_true in Hit. injection H as <- <-. cbn.
      split; [reflexivity |]. split; [lia |]. intros _. repeat split; auto.
    + apply gtb_false in Hit.
      destruct (fleb (Delta_max s) delta) eqn:Hd.
      * apply fleb_true in Hd. injection H as <- <-. cbn.
        split; [reflexivity |]. split; [lia |]. intros _. repeat split; auto.
      * destruct (vec_get etas _) as [e |]; [| discriminate].
        injection H as <- <-. cbn.
        split; [reflexivity |]. split; [lia |]. intros _.
        split; [reflexivity |]. split; [reflexivity |]. split.
        -- intros E. now left.
        -- intros [E | [E | E]]; [exact E | lia |].
           apply fleb_true in E. congruence.
  - apply gtb_false in Hgt. injection H as <- <-.
    split; [reflexivity |]. split; [auto | lia].
Qed.

Lemma controller_reads_past_schedule_witness :
  (Controller.iteration Examples.before_last_tick + 1 < 3 ->
   exists e,
     vec_get Examples.three_etas
       (Z.to_nat (Controller.iteration Examples.before_last_tick + 1)) = Some e /\
     Controller.checker_pass Examples.three_etas 3 1 0
       Examples.before_last_tick Examples.busy
     = Some ({| Controller.iteration :=
                  Controller.iteration Examples.before_last_tick + 1;
                Controller.work_todo := Controller.work_todo Examples.before_last_tick |},
             {| X := X Examples.busy; term_updates := 0; eta := e; Delta_max := 0 |})) /\
  (Controller.iteration Examples.before_last_tick + 1 = 3 ->
   Controller.checker_pass Examples.three_etas 3 1 0
     Examples.before_last_tick Examples.busy = None).
Proof.
  apply (controller_reads_past_schedule Examples.three_etas 3 1 0
           Examples.before_last_tick Examples.busy).
  - reflexivity.
  - reflexivity.
  - cbn. lia.
  - cbn. lia.
  - cbn. lra.
Defined.

Lemma controller_pass_effect_witness :
  let c' := {| Controller.iteration := 1; Controller.work_todo := true |} in
  let s' := {| X := [0; 10; 30]%R; term_updates := 0; eta := 2; Delta_max := 0 |} in
  X s' = X Examples.busy /\
  (term_updates Examples.busy <= 1 -> c' = Examples.first_tick /\ s' = Examples.busy) /\
  (1 < term_updates Examples.busy ->
   Controller.iteration c' = u64 (Controller.iteration Examples.first_tick + 1) /\
   term_updates s' = 0 /\
   (Controller.work_todo c' = false <->
    Controller.work_todo Examples.first_tick = false \/
    3 < u64 (Controller.iteration Examples.first_tick + 1) \/
    (Delta_max Examples.busy <= 0)%R)).
Proof.
  apply (controller_pass_effect Examples.three_etas 3 1 0 Examples.first_tick
           {| Controller.iteration := 1; Controller.work_todo := true |}
           Examples.busy
           {| X := [0; 10; 30]%R; term_updates := 0; eta := 2; Delta_max := 0 |}).
  unfold Controller.checker_pass. cbn.
  rewrite fleb_false by lra. reflexivity.
Defined.

(** ** The loops of the deterministic driver *)

Lemma u64_add_l (a b : Z) : u64 (u64 a + b) = u64 (a + b).
Proof. unfold u64. apply Zplus_mod_idemp_l. Qed.

Lemma u64_idem (a : Z) : u64 (u64 a) = u64 a.
Proof. unfold u64. apply Z.mod_mod. unfold two64. lia. Qed.

(** The effect of [n] passes through the body. *)
Lemma term_updates_loop_effect (n : nat) (graph : PathHandleGraph) (path_index : XP)
    (tree : IITree) (spf sfn : bool) :
  forall (s : sgd_state) (gen : rng),
  match DeterministicDriver.term_updates_loop n graph path_index tree spf sfn s gen with
  | DeterministicDriver.InnerDone s' gen' =>
      length (X s') = length (X s) /\ eta s' = eta s /\
      (Delta_max s <= Delta_max s')%R /\
      (exists k, (k <= n)%nat /\
                 u64 (term_updates s') = u64 (term_updates s + Z.of_nat k)) /\
      (n = 0%nat -> s' = s) /\
      draws gen' = draws gen /\
      (cursor gen + n <= cursor gen' <= cursor gen + 4 * n)%nat
  | DeterministicDriver.InnerExit pos => spf = true
  | DeterministicDriver.InnerUndefined => True
  end.
Proof.
  induction n as [| n IH]; intros s gen.
  - cbn. repeat split; try lra; try lia.
    exists 0%nat. split; [lia |]. now rewrite Z.add_0_r.
  - cbn [DeterministicDriver.term_updates_loop].
    change Deterministic.term_update_body with Worker.loop_body.
    pose proof (loop_body_effect graph path_index tree spf sfn s gen) as Hb.
    destruct (Worker.loop_body graph path_index tree spf sfn s gen)
      as [i j d s1 g1 | s1 g1 | pos |].
    + destruct Hb as (_ & _ & Hl & He & Ht & Hm & Hd & Hc).
      specialize (IH s1 g1).
      destruct (DeterministicDriver.term_updates_loop n graph path_index tree spf sfn s1 g1)
        as [s' g' | pos |]; [| exact IH | exact I].
      destruct IH as (Hl' & He' & Hm' & (k & Hk & Ht') & _ & Hd' & Hc').
      split; [congruence |]. split; [congruence |]. split; [lra |].
      split; [| split; [discriminate | split; [congruence | lia]]].
      exists (S k). split; [lia |].
      rewrite Ht', Ht, u64_add_l. f_equal. lia.
    + destruct Hb as (-> & Hd & Hc).
      specialize (IH s g1).
      destruct (DeterministicDriver.term_updates_loop n graph path_index tree spf sfn s g1)
        as [s' g' | pos |]; [| exact IH | exact I].
      destruct IH as (Hl' & He' & Hm' & (k & Hk & Ht') & _ & Hd' & Hc').
      split; [exact Hl' |]. split; [exact He' |]. split; [exact Hm' |].
      split; [| split; [discriminate | split; [congruence | lia]]].
      exists k. split; [lia | exact Ht'].
    + tauto.
    + exact I.
Qed.

(** X11.  The inner loop of the deterministic driver: [n] passes keep the
    size of [X] and the learning rate, never lower [Delta_max], count at most
    [n] term updates (a skipped pass counts none) and consume between [n] and
    [4 n] draws; the loop ends in the fatal exit only when sampling from
    paths. *)
Theorem term_updates_loop_invariants (n : nat) (graph : PathHandleGraph)
    (path_index : XP) (tree : IITree) (sample_from_paths sample_from_nodes : bool)
    (s : sgd_state) (gen : rng) :
  match DeterministicDriver.term_updates_loop n graph path_index tree
          sample_from_paths sample_from_nodes s gen with
  | DeterministicDriver.InnerDone s' gen' =>
      length (X s') = length (X s) /\ eta s' = eta s /\
      (Delta_max s <= Delta_max s')%R /\
      (exists k, (k <= n)%nat /\
                 u64 (term_updates s') = u64 (term_updates s + Z.of_nat k)) /\
      (n = 0%nat -> s' = s) /\
      draws gen' = draws gen /\
      (cursor gen + n <= cursor gen' <= cursor gen + 4 * n)%nat
  | DeterministicDriver.InnerExit pos => sample_from_paths = true
  | DeterministicDriver.InnerUndefined => True
  end.
Proof.
  apply term_updates_loop_effect.
Qed.

(** The end of an iteration is defined whenever the schedule has [iter_max]
    entries. *)
Lemma next_iteration_effect (etas : list R) (iter_max iteration : Z) (delta : R)
    (s : sgd_state) :
  (Z.to_nat iter_max <= length etas)%nat -> iter_max < two64 ->
  0 <= iteration < iter_max ->
  exists s',
    DeterministicDriver.next_iteration etas iter_max iteration delta s = Some s' /\
    X s' = X s /\ term_updates s' = 0 /\
    (iteration + 1 < iter_max ->
     vec_get etas (Z.to_nat (iteration + 1)) = Some (eta s') /\ Delta_max s' = delta) /\
    (iteration + 1 = iter_max -> eta s' = eta s /\ Delta_max s' = Delta_max s).
Proof.
  intros Hlen Hmax Hit. unfold DeterministicDriver.next_iteration.
  rewrite u64_small by lia.
  destruct (iteration + 1 <? iter_max) eqn:E.
  - apply Z.ltb_lt in E.
    destruct (vec_get_some etas (Z.to_nat (iteration + 1)) ltac:(lia)) as [e Ee].
    rewrite Ee. cbn [obind]. eexists. split; [reflexivity |]. cbn.
    repeat split; try reflexivity; try lia; try exact Ee.
  - apply Z.ltb_ge in E. cbn [obind]. eexists. split; [reflexivity |]. cbn.
    repeat split; try reflexivity; lia.
Qed.

(** X12.  The deterministic driver never reads past its schedule.  At the
    end of every iteration [0 <= iteration < iter_max] the step to the next
    one is defined when [etas] has [iter_max] entries: it loads
    [etas[iteration + 1]] and resets [Delta_max] to [delta] only when
    [iteration + 1 < iter_max], keeps both in the last iteration, and always
    resets [term_updates] and leaves [X] alone. *)
Theorem next_iteration_defined (etas : list R) (iter_max iteration : Z) (delta : R)
    (s : sgd_state) :
  (Z.to_nat iter_max <= length etas)%nat -> iter_max < two64 ->
  0 <= iteration < iter_max ->
  exists s',
    DeterministicDriver.next_iteration etas iter_max iteration delta s = Some s' /\
    X s' = X s /\ term_updates s' = 0 /\
    (iteration + 1 < iter_max ->
     vec_get etas (Z.to_nat (iteration + 1)) = Some (eta s') /\ Delta_max s' = delta) /\
    (iteration + 1 = iter_max -> eta s' = eta s /\ Delta_max s' = Delta_max s).
Proof.
  apply next_iteration_effect.
Qed.

Lemma next_iteration_defined_witness :
  exists s',
    DeterministicDriver.next_iteration Examples.three_etas 3 2 0 Examples.busy = Some s' /\
    X s' = X Examples.busy /\ term_updates s' = 0 /\
    (2 + 1 < 3 ->
     vec_get Examples.three_etas (Z.to_nat (2 + 1)) = Some (eta s') /\
     Delta_max s' = 0%R) /\
    (2 + 1 = 3 -> eta s' = eta Examples.busy /\ Delta_max s' = Delta_max Examples.busy).
Proof.
  apply (next_iteration_defined Examples.three_etas 3 2 0 Examples.busy).
  - cbn. lia.
  - reflexivity.
  - lia.
Defined.

Lemma snapshot_test (snapshot : bool) (iteration iter_max : Z) :
  1 <= iter_max < two64 ->
  (snapshot && (iteration <? u64 (iter_max - 1))) = true
  <-> snapshot = true /\ iteration < iter_max - 1.
Proof.
  intros H. rewrite u64_small by lia. rewrite andb_true_iff, Z.ltb_lt. reflexivity.
Qed.

(** The outer loop without term updates. *)
Lemma iterations_loop_idle (graph : PathHandleGraph) (path_index : XP) (tree : IITree)
    (etas : list R) (iter_max min_term_updates : Z) (delta : R)
    (snapshot spf sfn : bool) :
  min_term_updates <= 0 -> 1 <= iter_max < two64 ->
  (Z.to_nat iter_max <= length etas)%nat ->
  forall (fuel : nat) (iteration : Z) (s : sgd_state) (gen : rng)
         (snapshots : list (list R)),
  0 <= iteration -> iteration + Z.of_nat fuel <= iter_max ->
  exists k,
    DeterministicDriver.iterations_loop fuel iteration graph path_index tree etas
      iter_max min_term_updates delta snapshot spf sfn s gen snapshots
    = DeterministicDriver.Finished (X s) (snapshots ++ repeat (X s) k) /\
    (k <= Z.to_nat (iter_max - 1 - iteration))%nat /\
    (snapshot = false -> k = 0%nat).
Proof.
  intros Hmin Hmax Hlen.
  assert (Hn : Z.to_nat min_term_updates = 0%nat) by lia.
  induction fuel as [| fuel IH]; intros iteration s gen snapshots Hit Hfuel.
  - exists 0%nat. cbn. rewrite app_nil_r. repeat split; lia.
  - cbn [DeterministicDriver.iterations_loop]. rewrite Hn.
    cbn [DeterministicDriver.term_updates_loop].
    assert (Hpush : exists k0,
              (if snapshot && (iteration <? u64 (iter_max - 1))
               then snapshots ++ [X s] else snapshots)
              = snapshots ++ repeat (X s) k0 /\
              (k0 <= 1)%nat /\ (k0 = 1%nat -> iteration < iter_max - 1) /\
              (snapshot = false -> k0 = 0%nat)).
    { destruct (snapshot && (iteration <? u64 (iter_max - 1))) eqn:E.
      - apply snapshot_test in E; [| exact Hmax]. destruct E as [-> E].
        exists 1%nat. cbn. repeat split; try lia; try discriminate.
      - exists 0%nat. cbn. rewrite app_nil_r. repeat split; lia. }
    destruct Hpush as (k0 & -> & Hk0 & Hk0' & Hk0'').
    destruct (fleb (Delta_max s) delta).
    + exists k0. split; [reflexivity |]. split; [| exact Hk0''].
      destruct k0 as [| [| ?]]; [lia | specialize (Hk0' eq_refl); lia | lia].
    + destruct (next_iteration_effect etas iter_max iteration delta s Hlen
                  ltac:(lia) ltac:(lia)) as (s' & En & EX & _).
      rewrite En.
      destruct (IH (iteration + 1) s' gen (snapshots ++ repeat (X s) k0)
                  ltac:(lia) ltac:(lia)) as (k & Ek & Hk & Hk').
      exists (k0 + k)%nat. rewrite Ek, EX, <- app_assoc, <- repeat_app.
      split; [reflexivity |]. split.
      * destruct k0 as [| [| ?]]; [lia | specialize (Hk0' eq_refl); lia | lia].
      * intros Hs. rewrite (Hk0'' Hs), (Hk' Hs). reflexivity.
Qed.

(** X13.  With [min_term_updates = 0] the deterministic loops return the
    layout they started from, whatever the other parameters: no term is
    sampled, and every snapshot taken is a copy of that layout (at most
    [iter_max - 1] of them, none without [snapshot]). *)
Theorem run_without_updates (graph : PathHandleGraph) (path_index : XP)
    (tree : IITree) (etas : list R) (iter_max min_term_updates : Z) (delta : R)
    (snapshot sample_from_paths sample_from_nodes : bool)
    (s : sgd_state) (gen : rng) (snapshots : list (list R)) :
  min_term_updates <= 0 -> iter_max < two64 ->
  (Z.to_nat iter_max <= length etas)%nat ->
  exists k,
    DeterministicDriver.run graph path_index tree etas iter_max min_term_updates delta
      snapshot sample_from_paths sample_from_nodes s gen snapshots
    = DeterministicDriver.Finished (X s) (snapshots ++ repeat (X s) k) /\
    (k <= Z.to_nat (iter_max - 1))%nat /\
    (snapshot = false -> k = 0%nat).
Proof.
  intros Hmin Hmax Hlen. unfold DeterministicDriver.run.
  destruct (Z_lt_le_dec iter_max 1) as [Hsmall | Hbig].
  - replace (Z.to_nat iter_max) with 0%nat by lia.
    exists 0%nat. cbn. rewrite app_nil_r. repeat split; lia.
  - destruct (iterations_loop_idle graph path_index tree etas iter_max min_term_updates
                delta snapshot sample_from_paths sample_from_nodes Hmin ltac:(lia) Hlen
                (Z.to_nat iter_max) 0 s gen snapshots ltac:(lia) ltac:(lia))
      as (k & Ek & Hk & Hk').
    exists k. rewrite Z.sub_0_r in Hk. repeat split; assumption.
Qed.

Lemma run_without_updates_witness :
  exists k,
    DeterministicDriver.run Examples.three_nodes Examples.first_node_path [] [1]%R
      1 0 1000000000 false true false Examples.seeded (Examples.constant_gen 0) []
    = DeterministicDriver.Finished (X Examples.seeded)
        ([] ++ repeat (X Examples.seeded) k) /\
    (k <= Z.to_nat (1 - 1))%nat /\
    (false = false -> k = 0%nat).
Proof.
  apply (run_without_updates Examples.three_nodes Examples.first_node_path [] [1]%R
           1 0 1000000000 false true false Examples.seeded (Examples.constant_gen 0) []).
  - lia.
  - reflexivity.
  - cbn. lia.
Defined.

Lemma next_iteration_X (etas : list R) (iter_max iteration : Z) (delta : R)
    (s s' : sgd_state) :
  DeterministicDriver.next_iteration etas iter_max iteration delta s = Some s' ->
  X s' = X s.
Proof.
  unfold DeterministicDriver.next_iteration. intros H.
  destruct (u64 (iteration + 1) <? iter_max).
  - destruct (vec_get etas _); [| discriminate]. now injection H as <-.
  - now injection H as <-.
Qed.

Lemma iterations_loop_effect (graph : PathHandleGraph) (path_index : XP)
    (tree : IITree) (etas : list R) (iter_max min_term_updates : Z) (delta : R)
    (snapshot spf sfn : bool) :
  1 <= iter_max < two64 ->
  forall (fuel : nat) (iteration : Z) (s : sgd_state) (gen : rng)
         (snapshots : list (list R)),
  0 <= iteration ->
  match DeterministicDriver.iterations_loop fuel iteration graph path_index tree etas
          iter_max min_term_updates delta snapshot spf sfn s gen snapshots with
  | DeterministicDriver.Finished X_final snapshots' =>
      length X_final = length (X s) /\
      exists new,
        snapshots' = snapshots ++ new /\
        (length new <= Z.to_nat (iter_max - 1 - iteration))%nat /\
        (forall x, In x new -> length x = length (X s)) /\
        (snapshot = false -> new = [])
  | DeterministicDriver.Exited pos => spf = true
  | DeterministicDriver.Failed => True
  end.
Proof.
  intros Hmax. induction fuel as [| fuel IH]; intros iteration s gen snapshots Hit.
  - cbn. split; [reflexivity |]. exists []. rewrite app_nil_r.
    repeat split; try reflexivity; [cbn; lia | intros x []].
  - cbn [DeterministicDriver.iterations_loop].
    assert (Hpush : exists new0,
              (if snapshot && (iteration <? u64 (iter_max - 1))
               then snapshots ++ [X s] else snapshots) = snapshots ++ new0 /\
              (length new0 <= 1)%nat /\
              (length new0 = 1%nat -> iteration < iter_max - 1) /\
              (forall x, In x new0 -> x = X s) /\
              (snapshot = false -> new0 = [])).
    { destruct (snapshot && (iteration <? u64 (iter_max - 1))) eqn:E.
      - apply snapshot_test in E; [| exact Hmax]. destruct E as [-> E].
        exists [X s]. cbn. repeat split; try lia; try discriminate;
          try (intros x [<- | []]; reflexivity).
      - exists []. rewrite app_nil_r. cbn. repeat split; try lia; try reflexivity;
          try (intros x []). }
    destruct Hpush as (new0 & -> & Hn0 & Hn0' & Hx0 & Hs0).
    assert (Hcount : (length new0 + Z.to_nat (iter_max - 1 - (iteration + 1))
                      <= Z.to_nat (iter_max - 1 - iteration))%nat).
    { destruct new0 as [| x [| y t]]; cbn in *; [lia | specialize (Hn0' eq_refl); lia | lia]. }
    pose proof (term_updates_loop_effect (Z.to_nat min_term_updates) graph path_index
                  tree spf sfn s gen) as Hin.
    destruct (DeterministicDriver.term_updates_loop _ graph path_index tree spf sfn s gen)
      as [s1 g1 | pos |]; [| exact Hin | exact I].
    destruct Hin as (Hl1 & _).
    destruct (fleb (Delta_max s1) delta).
    + split; [exact Hl1 |]. exists new0. split; [reflexivity |].
      split; [lia |]. split; [| exact Hs0].
      intros x Hx. now rewrite (Hx0 x Hx).
    + destruct (DeterministicDriver.next_iteration etas iter_max iteration delta s1)
        as [s2 |] eqn:En; [| exact I].
      pose proof (next_iteration_X _ _ _ _ _ _ En) as EX.
      specialize (IH (iteration + 1) s2 g1 (snapshots ++ new0) ltac:(lia)).
      destruct (DeterministicDriver.iterations_loop fuel (iteration + 1) graph path_index
                  tree etas iter_max min_term_updates delta snapshot spf sfn s2 g1
                  (snapshots ++ new0)) as [Xf snaps' | pos |]; [| exact IH | exact I].
      destruct IH as (Hlf & new & -> & Hln & Hx & Hs).
      split; [congruence |]. exists (new0 ++ new). rewrite app_assoc.
      split; [reflexivity |]. split; [rewrite length_app; lia |]. split.
      * intros x Hin. apply in_app_or in Hin. destruct Hin as [Hin | Hin].
        -- now rewrite (Hx0 x Hin).
        -- rewrite (Hx x Hin). congruence.
      * intros Hf. rewrite (Hs0 Hf), (Hs Hf). reflexivity.
Qed.

(** X14.  Whatever is sampled, a finished deterministic run returns a layout
    of the size it started with, and the snapshots it appended are at most
    [iter_max - 1] layouts of that size (none without [snapshot]); earlier
    entries of [snapshots] are kept.  The run ends in the fatal exit only
    when sampling from paths. *)
Theorem run_invariants (graph : PathHandleGraph) (path_index : XP)
    (tree : IITree) (etas : list R) (iter_max min_term_updates : Z) (delta : R)
    (snapshot sample_from_paths sample_from_nodes : bool)
    (s : sgd_state) (gen : rng) (snapshots : list (list R)) :
  iter_max < two64 ->
  match DeterministicDriver.run graph path_index tree etas iter_max min_term_updates
          delta snapshot sample_from_paths sample_from_nodes s gen snapshots with
  | DeterministicDriver.Finished X_final snapshots' =>
      length X_final = length (X s) /\
      exists new,
        snapshots' = snapshots ++ new /\
        (length new <= Z.to_nat (iter_max - 1))%nat /\
        (forall x, In x new -> length x = length (X s)) /\
        (snapshot = false -> new = [])
  | DeterministicDriver.Exited pos => sample_from_paths = true
  | DeterministicDriver.Failed => True
  end.
Proof.
  intros Hmax. unfold DeterministicDriver.run.
  destruct (Z_lt_le_dec iter_max 1) as [Hsmall | Hbig].
  - replace (Z.to_nat iter_max) with 0%nat by lia. cbn.
    split; [reflexivity |]. exists []. rewrite app_nil_r.
    repeat split; try reflexivity; [cbn; lia | intros x []].
  - pose proof (iterations_loop_effect graph path_index tree etas iter_max
                  min_term_updates delta snapshot sample_from_paths sample_from_nodes
                  ltac:(lia) (Z.to_nat iter_max) 0 s gen snapshots ltac:(lia)) as H.
    rewrite Z.sub_0_r in H. exact H.
Qed.

(** A run that samples.  On [three_nodes] with the path over nodes 1 and 3,
    the first pass picks position 0 and the position 10 after it: the term
    (node 1, node 3, 10) moves the seeded layout [0, 10, 30] to
    [10, 10, 20], and with [delta = 10] the run stops after this iteration,
    with the snapshot taken before it. *)
Lemma far_tree :
  path_nucleotide_tree (Deterministic.build_tree Examples.skipping_path [0])
  = [{| iv_st := 0; iv_en := 40; iv_data := 0 |}].
Proof. reflexivity. Qed.

Lemma far_term :
  Deterministic.term_of Examples.three_nodes Examples.skipping_path 0 0 10
  = (0, 4, 10%R).
Proof.
  unfold Deterministic.term_of. cbn -[IZR Rabs Rminus].
  f_equal. rewrite Rabs_left by lra. lra.
Qed.

Lemma far_update :
  Deterministic.update Examples.seeded 0 2 10
  = Some {| X := [10; 10; 20]%R; term_updates := 1; eta := 30; Delta_max := 10 |}.
Proof.
  assert (Emu : Deterministic.mu_of 30 10 = 1%R).
  { unfold Deterministic.mu_of, fgtb. cbv zeta. rewrite (fltb_lt 1 (30 * (1 / 10))) by lra.
    reflexivity. }
  assert (Edx : Deterministic.dx_of 0 30 = (-30)%R).
  { unfold Deterministic.dx_of. cbv zeta. rewrite (feqb_neq (0 - 30) 0) by lra. lra. }
  assert (Emag : Deterministic.mag_of 0 30 = 30%R).
  { unfold Deterministic.mag_of. rewrite Edx. rewrite Rabs_left by lra. lra. }
  assert (EDelta : Deterministic.Delta_of 30 10 0 30 = 10%R).
  { unfold Deterministic.Delta_of. cbv zeta. rewrite Emu, Emag. lra. }
  assert (Erx : Deterministic.r_x_of 30 10 0 30 = (-10)%R).
  { unfold Deterministic.r_x_of. cbv zeta. rewrite EDelta, Emag, Edx. lra. }
  unfold Deterministic.update, Examples.seeded.
  cbn [X eta Delta_max term_updates vec_get nth_error obind vec_set].
  rewrite EDelta, Erx. rewrite Rabs_right by lra.
  unfold fgtb. rewrite (fltb_lt 0 10) by lra.
  f_equal. f_equal. f_equal; [lra |]. f_equal. f_equal. lra.
Qed.

Lemma far_body :
  Deterministic.term_update_body Examples.three_nodes Examples.skipping_path
    [{| iv_st := 0; iv_en := 40; iv_data := 0 |}] true false
    Examples.seeded Examples.far_term_gen
  = Updated 0 2 10
      {| X := [10; 10; 20]%R; term_updates := 1; eta := 30; Delta_max := 10 |}
      {| draws := draws Examples.far_term_gen; cursor := 3 |}.
Proof.
  unfold Deterministic.term_update_body. cbv zeta.
  change (draw Examples.far_term_gen)
    with (0, {| draws := draws Examples.far_term_gen; cursor := 1 |}).
  cbv iota beta.
  change (Deterministic.pick Examples.skipping_path
            [{| iv_st := 0; iv_en := 40; iv_data := 0 |}]
            (get_node_count Examples.three_nodes) true false 0
            {| draws := draws Examples.far_term_gen; cursor := 1 |})
    with (Picked 0 0 39 {| draws := draws Examples.far_term_gen; cursor := 1 |}).
  cbv iota beta.
  change (draw {| draws := draws Examples.far_term_gen; cursor := 1 |})
    with (10, {| draws := draws Examples.far_term_gen; cursor := 2 |}).
  cbv iota beta.
  change (draw {| draws := draws Examples.far_term_gen; cursor := 2 |})
    with (0, {| draws := draws Examples.far_term_gen; cursor := 3 |}).
  cbv iota beta.
  change (Deterministic.second_position 0 39 10 0) with (Some 10).
  cbv iota beta.
  rewrite far_term. cbv iota beta.
  rewrite (feqb_neq 10 0) by lra.
  change (unpack_number Examples.three_nodes 0) with 0%nat.
  change (unpack_number Examples.three_nodes 4) with 2%nat.
  rewrite far_update. reflexivity.
Qed.

Example run_with_sampling :
  DeterministicDriver.run Examples.three_nodes Examples.skipping_path
    (path_nucleotide_tree (Deterministic.build_tree Examples.skipping_path [0]))
    [30; 1]%R 2 1 10 true true false Examples.seeded Examples.far_term_gen []
  = DeterministicDriver.Finished [10; 10; 20]%R [[0; 10; 30]%R].
Proof.
  rewrite far_tree. unfold DeterministicDriver.run.
  change (Z.to_nat 2) with 2%nat. cbn [DeterministicDriver.iterations_loop].
  change (Z.to_nat 1) with 1%nat. cbn [DeterministicDriver.term_updates_loop].
  rewrite far_body. cbn [Delta_max X].
  rewrite (proj2 (fleb_true 10 10)) by lra.
  reflexivity.
Qed.

Lemma run_invariants_witness :
  match DeterministicDriver.run Examples.three_nodes Examples.skipping_path
          (path_nucleotide_tree (Deterministic.build_tree Examples.skipping_path [0]))
          [30; 1]%R 2 1 10 true true false Examples.seeded Examples.far_term_gen [] with
  | DeterministicDriver.Finished X_final snapshots' =>
      length X_final = length (X Examples.seeded) /\
      exists new,
        snapshots' = [] ++ new /\
        (length new <= Z.to_nat (2 - 1))%nat /\
        (forall x, In x new -> length x = length (X Examples.seeded)) /\
        (true = false -> new = [])
  | DeterministicDriver.Exited pos => true = true
  | DeterministicDriver.Failed => True
  end.
Proof.
  apply (run_invariants Examples.three_nodes Examples.skipping_path
           (path_nucleotide_tree (Deterministic.build_tree Examples.skipping_path [0]))
           [30; 1]%R 2 1 10 true true false Examples.seeded Examples.far_term_gen []).
  reflexivity.
Defined.

(** ** More on the order finalizer *)

Lemma linear_insert_perm {A} (comp : A -> A -> bool) (val : A) (l : list A) :
  Permutation (Order.linear_insert comp val l) (val :: l).
Proof.
  induction l as [| e rest IH]; cbn; [reflexivity |].
  destruct (comp val e); [| reflexivity].
  rewrite IH. apply perm_swap.
Qed.

Lemma insertion_step_perm {A} (comp : A -> A -> bool) (sorted : list A) (val : A) :
  Permutation (Order.insertion_step comp sorted val) (val :: sorted).
Proof.
  unfold Order.insertion_step. destruct sorted as [| first rest]; [reflexivity |].
  destruct (comp val first); [reflexivity |].
  rewrite <- Permutation_rev, linear_insert_perm.
  apply perm_skip. symmetry. apply Permutation_rev.
Qed.

Lemma std_sort_fold_perm {A} (comp : A -> A -> bool) (l acc : list A) :
  Permutation (fold_left (Order.insertion_step comp) l acc) (acc ++ l).
Proof.
  revert acc. induction l as [| x t IH]; intros acc; cbn.
  - now rewrite app_nil_r.
  - rewrite IH, insertion_step_perm. cbn. apply Permutation_middle.
Qed.

Lemma std_sort_perm {A} (comp : A -> A -> bool) (l : list A) :
  Permutation (Order.std_sort comp l) l.
Proof. unfold Order.std_sort. apply (std_sort_fold_perm comp l []). Qed.

Lemma layout_triples_handles (graph : PathHandleGraph) (table : list Z)
    (layout : list R) (handles : list handle_t) :
  forall i : nat,
  (forall h, In h handles -> (unpack_number graph h < length table)%nat) ->
  (i + length handles <= length layout)%nat ->
  exists triples,
    Order.layout_triples graph table layout i handles = Some triples /\
    map Order.handle triples = handles.
Proof.
  induction handles as [| h rest IH]; intros i Hnum Hlen.
  - exists []. split; reflexivity.
  - cbn [Order.layout_triples].
    destruct (vec_get_some table (unpack_number graph h) ltac:(apply Hnum; now left))
      as [c Ec].
    destruct (vec_get_some layout i ltac:(cbn in Hlen; lia)) as [x Ex].
    destruct (IH (S i) ltac:(intros; apply Hnum; now right) ltac:(cbn in Hlen; lia))
      as (tl & Et & Em).
    rewrite Ec, Ex, Et. cbn [obind]. eexists. split; [reflexivity |].
    cbn. now rewrite Em.
Qed.

(** X15.  On a graph of at most 16 handles, where [std::sort] is the
    insertion sort alone, the sort-and-project step loses and repeats no
    handle.  Given a component table with an entry for every handle number
    and a layout with an entry for every visited handle, the order computed
    from them is a rearrangement of the handles [for_each_handle] visits,
    although the comparator is no strict weak ordering. *)
Theorem order_is_rearrangement (graph : PathHandleGraph) (table : list Z)
    (layout : list R) :
  (length (for_each_handle graph) <= 16)%nat ->
  (forall h, In h (for_each_handle graph) ->
     (unpack_number graph h < length table)%nat) ->
  (length (for_each_handle graph) <= length layout)%nat ->
  exists order,
    Order.order_of_layout graph table layout = Some order /\
    Permutation order (for_each_handle graph) /\
    length order = length (for_each_handle graph) /\
    (NoDup (for_each_handle graph) -> NoDup order).
Proof.
  intros _ Hnum Hlen. unfold Order.order_of_layout.
  destruct (layout_triples_handles graph table layout (for_each_handle graph) 0 Hnum
              ltac:(lia)) as (triples & Et & Em).
  rewrite Et. cbn [obind]. eexists. split; [reflexivity |].
  assert (P : Permutation (map Order.handle (Order.std_sort Order.layout_less triples))
                (for_each_handle graph)).
  { rewrite <- Em. apply Permutation_map. apply std_sort_perm. }
  split; [exact P |]. split.
  - now apply Permutation_length.
  - intros Hnd. apply (Permutation_NoDup (l := for_each_handle graph)); [| exact Hnd].
    now symmetry.
Qed.

Lemma order_is_rearrangement_witness :
  exists order,
    Order.order_of_layout Examples.interleaved [1; 0; 2; 1] Examples.interleaved_layout
    = Some order /\
    Permutation order (for_each_handle Examples.interleaved) /\
    length order = length (for_each_handle Examples.interleaved) /\
    (NoDup (for_each_handle Examples.interleaved) -> NoDup order).
Proof.
  apply (order_is_rearrangement Examples.interleaved [1; 0; 2; 1]
           Examples.interleaved_layout).
  - cbn. lia.
  - intros h [<- | [<- | [<- | [<- | []]]]]; vm_compute; lia.
  - cbn. lia.
Defined.

(** X16.  Where the comparator is the lexicographic one.  On two triples
    whose positions differ, or where the first is not in a later component
    than the second, [layout_less] is the lexicographic order on (component,
    position, handle); the two differ only on equal positions across
    components, and there the handles alone decide. *)
Theorem layout_less_lexicographic (a b : Order.handle_layout_t) :
  (Order.pos a <> Order.pos b \/ Order.weak_component a <= Order.weak_component b ->
   Order.layout_less a b = lexicographic_less a b) /\
  (Order.pos a = Order.pos b -> Order.weak_component b < Order.weak_component a ->
   lexicographic_less a b = false /\
   Order.layout_less a b = (Order.handle a <? Order.handle b)).
Proof.
  unfold Order.layout_less, lexicographic_less. split.
  - intros [Hp | Hc].
    + rewrite (feqb_neq _ _ Hp). cbn [andb]. rewrite !orb_false_r. reflexivity.
    + destruct (Order.weak_component a <? Order.weak_component b) eqn:E1;
        [reflexivity |].
      apply Z.ltb_ge in E1.
      assert (E2 : (Order.weak_component a =? Order.weak_component b) = true)
        by (apply Z.eqb_eq; lia).
      rewrite E2. cbn [orb andb]. reflexivity.
  - intros Hp Hc.
    assert (E1 : (Order.weak_component a <? Order.weak_component b) = false)
      by (apply Z.ltb_ge; lia).
    assert (E2 : (Order.weak_component a =? Order.weak_component b) = false)
      by (apply Z.eqb_neq; lia).
    rewrite E1, E2, (feqb_eq _ _ Hp). cbn [orb andb]. split; reflexivity.
Qed.

Lemma layout_less_lexicographic_witness :
  (Order.pos Examples.triple_a <> Order.pos Examples.triple_b \/
   Order.weak_component Examples.triple_a <= Order.weak_component Examples.triple_b ->
   Order.layout_less Examples.triple_a Examples.triple_b
   = lexicographic_less Examples.triple_a Examples.triple_b) /\
  (Order.pos Examples.triple_a = Order.pos Examples.triple_b ->
   Order.weak_component Examples.triple_b < Order.weak_component Examples.triple_a ->
   lexicographic_less Examples.triple_a Examples.triple_b = false /\
   Order.layout_less Examples.triple_a Examples.triple_b
   = (Order.handle Examples.triple_a <? Order.handle Examples.triple_b)).
Proof.
  apply (layout_less_lexicographic Examples.triple_a Examples.triple_b).
Defined.

(** ** Component ranks *)






(** *** The insertion sort sorts, for a comparator that is asymmetric and
    negatively transitive *)

Section SortSorted.

Context {A : Type} (comp : A -> A -> bool).
Hypothesis comp_asym : forall a b, comp a b = true -> comp b a = false.
Hypothesis comp_negtrans :
  forall a b c, comp a b = false -> comp b c = false -> comp a c = false.






End SortSorted.













(** ** The state a run starts from *)

Lemma seed_X_defined (graph : PathHandleGraph) :
  NoDup (map (unpack_number graph) (for_each_handle graph)) ->
  (forall h, In h (for_each_handle graph) ->
     (unpack_number graph h < Z.to_nat (get_node_count graph))%nat) ->
  (forall h, In h (for_each_handle graph) -> 0 <= get_length graph h) ->
  total_length graph (for_each_handle graph) < two64 ->
  exists X0, Worker.seed_X graph = Some X0 /\
             length X0 = Z.to_nat (get_node_count graph).
Proof.
  intros Hnd Hin Hlen Hsum.
  destruct (seed_fold graph (for_each_handle graph)
              (vec_resize 0%R (get_node_count graph)) 0 Hnd
              ltac:(intros; unfold vec_resize; rewrite repeat_length; now apply Hin)
              Hlen ltac:(lia) ltac:(lia))
    as (X1 & Efold & L1 & _).
  exists X1. split.
  - unfold Worker.seed_X. cbv zeta. rewrite Efold. reflexivity.
  - rewrite L1. unfold vec_resize. apply repeat_length.
Qed.

(** X19.  The state both drivers start from.  On a graph with a compact
    handle set, with [eta_max > 0], [eps > 0], [iter_max >= 2] and a peak in
    range, the initial state is defined: [X] is the seeded layout, no update
    is counted, [Delta_max] is zero and the first learning rate is
    [etas.front()], a positive number.  The schedule does not receive
    [eta_max] but [w_min = 1 / eta_max], from which it computes its own
    maximum [1 / w_min]: the first rate is
    [(1 / w_min) * exp (- lambda * peak)], which is [1 / w_min] when the peak
    is at iteration 0 and at most [1 / w_min] when [eps < eta_max]. *)
Theorem initial_state_defined (graph : PathHandleGraph) (iter_max peak : Z)
    (eps eta_max : R) :
  NoDup (map (unpack_number graph) (for_each_handle graph)) ->
  (forall h, In h (for_each_handle graph) ->
     (unpack_number graph h < Z.to_nat (get_node_count graph))%nat) ->
  (forall h, In h (for_each_handle graph) -> 0 <= get_length graph h) ->
  total_length graph (for_each_handle graph) < two64 ->
  (0 < eta_max)%R -> (0 < eps)%R -> 2 <= iter_max -> 0 <= peak < iter_max ->
  let w_min := (1 / eta_max)%R in
  let lambda := Schedule.rate w_min 1 iter_max eps in
  exists s0,
    Worker.initial_state graph iter_max peak eps eta_max = Some s0 /\
    Deterministic.initial_state graph iter_max peak eps eta_max = Some s0 /\
    Worker.seed_X graph = Some (X s0) /\
    term_updates s0 = 0 /\ Delta_max s0 = 0%R /\
    eta s0 = (1 / w_min * exp (- lambda * IZR peak))%R /\
    (0 < eta s0)%R /\
    (peak = 0 -> eta s0 = (1 / w_min)%R) /\
    ((eps < eta_max)%R -> (eta s0 <= 1 / w_min)%R).
Proof.
  intros Hnd Hin Hlen Hsum Hmax Heps HT Hp w_min lambda.
  destruct (seed_X_defined graph Hnd Hin Hlen Hsum) as (X0 & EX & _).
  assert (Hw : (0 < w_min)%R) by (apply Rdiv_lt_0_compat; lra).
  assert (Hhi : (0 < 1 / w_min)%R) by (apply Rdiv_lt_0_compat; lra).
  pose proof (schedule_defined w_min 1 eps iter_max peak Hw ltac:(lra) Heps HT) as Es.
  assert (E0 : vec_get (map (Schedule.eta_at (1 / w_min) lambda peak)
                          (Schedule.iterations iter_max)) 0
               = Some (1 / w_min * exp (- lambda * IZR peak))%R).
  { unfold vec_get.
    assert (Hl : (0 < length (map (Schedule.eta_at (1 / w_min) lambda peak)
                            (Schedule.iterations iter_max)))%nat)
      by (rewrite length_map, iterations_length; lia).
    rewrite (nth_error_nth' _ 0%R Hl). f_equal.
    change 0%nat with (Z.to_nat 0). rewrite schedule_nth by lia.
    unfold Schedule.eta_at.
    replace (Z.abs (0 - peak)) with peak by lia. reflexivity. }
  exists {| X := X0; term_updates := 0;
            eta := (1 / w_min * exp (- lambda * IZR peak))%R; Delta_max := 0 |}.
  assert (Ei : Worker.initial_state graph iter_max peak eps eta_max
               = Some {| X := X0; term_updates := 0;
                         eta := (1 / w_min * exp (- lambda * IZR peak))%R;
                         Delta_max := 0 |}).
  { unfold Worker.initial_state. rewrite EX. cbn [obind].
    rewrite fdiv_some by lra. cbn [obind]. cbv zeta. fold w_min. rewrite Es. cbn [obind].
    fold lambda. rewrite E0. reflexivity. }
  cbn [X term_updates eta Delta_max].
  split; [exact Ei |]. split; [exact Ei |]. split; [exact EX |].
  split; [reflexivity |]. split; [reflexivity |]. split; [reflexivity |].
  split; [| split].
  - apply Rmult_lt_0_compat; [exact Hhi | apply exp_pos].
  - intros ->. rewrite Rmult_0_r, exp_0. lra.
  - intros Hlt.
    assert (Hrate : (0 < lambda)%R).
    { apply rate_pos; try assumption; try lra.
      unfold w_min. replace (1 / (1 / eta_max))%R with eta_max by (field; lra). lra. }
    assert (Hpz : (0 <= IZR peak)%R) by (apply IZR_le; lia).
    assert (Hexp : (exp (- lambda * IZR peak) <= 1)%R).
    { rewrite <- exp_0.
      destruct (Req_dec_T (- lambda * IZR peak) 0) as [E | N]; [rewrite E; lra |].
      left. apply exp_increasing. nra. }
    rewrite <- (Rmult_1_r (1 / w_min)) at 2. apply Rmult_le_compat_l; lra.
Qed.

Lemma initial_state_defined_witness :
  let w_min := (1 / 49)%R in
  let lambda := Schedule.rate w_min 1 200 (1 / 100) in
  exists s0,
    Worker.initial_state Examples.three_nodes 200 100 (1 / 100) 49 = Some s0 /\
    Deterministic.initial_state Examples.three_nodes 200 100 (1 / 100) 49 = Some s0 /\
    Worker.seed_X Examples.three_nodes = Some (X s0) /\
    term_updates s0 = 0 /\ Delta_max s0 = 0%R /\
    eta s0 = (1 / w_min * exp (- lambda * IZR 100))%R /\
    (0 < eta s0)%R /\
    (100 = 0 -> eta s0 = (1 / w_min)%R) /\
    ((1 / 100 < 49)%R -> (eta s0 <= 1 / w_min)%R).
Proof.
  apply (initial_state_defined Examples.three_nodes 200 100 (1 / 100) 49).
  - simpl. repeat constructor; simpl; intuition lia.
  - simpl. intros h [<- | [<- | [<- | []]]]; vm_compute; lia.
  - simpl. intros h [<- | [<- | [<- | []]]]; vm_compute; discriminate.
  - vm_compute. reflexivity.
  - lra.
  - lra.
  - lia.
  - lia.
Defined.

(** In binary64 the maximum the schedule computes need not be [eta_max]:
    [1 / (1 / 49)] is [49.000000000000007]. *)
Example recomputed_eta_max_differs :
  let A := Kernel.binary64 in
  Kernel.fquo A (Kernel.f1 A) (Kernel.fquo A (Kernel.f1 A) 49%float)
  = 0x1.8800000000001p+5%float /\
  Kernel.feq A (Kernel.fquo A (Kernel.f1 A) (Kernel.fquo A (Kernel.f1 A) 49%float))
    49%float = false.
Proof. split; vm_compute; reflexivity. Qed.

(** X20.  The order finalizer is defined only on the empty graph.  Since the
    component table is cleared before it is read, [path_linear_sgd_order] has
    no defined result on any graph with a handle, whatever the components,
    the layout and the snapshots; on a graph without handles it returns the
    empty order as soon as the table itself can be built. *)
Theorem order_defined_only_when_empty (graph : PathHandleGraph)
    (weak_components : list (list nid_t)) (layout : list R)
    (snapshot : bool) (snapshots_layouts : list (list R)) :
  (for_each_handle graph <> [] ->
   Order.path_linear_sgd_order graph weak_components layout snapshot snapshots_layouts
   = None) /\
  (for_each_handle graph = [] ->
   Order.component_table graph weak_components <> None ->
   Order.path_linear_sgd_order graph weak_components layout snapshot snapshots_layouts
   = Some ([], map (fun _ => []) (if snapshot then snapshots_layouts else []))).
Proof.
  split; [apply order_undefined |].
  intros He Ht. unfold Order.path_linear_sgd_order.
  destruct (Order.component_table graph weak_components) as [m |]; [| contradiction].
  cbn [obind]. cbv zeta.
  assert (Ho : forall l, Order.order_of_layout graph (vec_clear m) l = Some []).
  { intros l. unfold Order.order_of_layout. rewrite He. reflexivity. }
  assert (Hs : forall ls, Order.snapshot_orders graph (vec_clear m) ls
                          = Some (map (fun _ => []) ls)).
  { induction ls as [| l t IH]; [reflexivity |].
    cbn [Order.snapshot_orders]. rewrite Ho, IH. reflexivity. }
  rewrite Ho. destruct snapshot; [rewrite Hs |]; reflexivity.
Qed.

Lemma order_defined_only_when_empty_witness :
  Order.path_linear_sgd_order Examples.two_components Examples.two_components_parts
    Examples.two_components_layout true [Examples.two_components_layout] = None.
Proof.
  apply (proj1 (order_defined_only_when_empty Examples.two_components
                  Examples.two_components_parts Examples.two_components_layout
                  true [Examples.two_components_layout])).
  discriminate.
Defined.

(** * The [extract] subcommand *)

(** ** The bits of [keep_bv] *)

Lemma keep_index_bound (graph : PathHandleGraph) (ids : Extract.node_ids) (h : handle_t) :
  Extract.not_compacted graph ids = false ->
  - two64 < Extract.min_node_id ids - Extract.max_node_id ids ->
  Extract.min_node_id ids <= Extract.get_id ids h <= Extract.max_node_id ids ->
  Z.of_nat (keep_index ids h) < get_node_count graph.
Proof.
  intros Hc Hrange Hid. unfold Extract.not_compacted in Hc. cbv zeta in Hc.
  apply Z.leb_gt in Hc. unfold keep_index.
  rewrite u64_small in Hc by lia. rewrite u64_small by lia. lia.
Qed.

(** X21.  Why the compaction test protects [keep_bv].  Once the test "the
    node IDs are not compacted" has passed, every handle whose id lies
    between the smallest and the largest node id has its bit inside
    [keep_bv]: [keep_bv.set(id - shift)] is defined, keeps the size of the
    vector, sets that bit and leaves the others. *)
Theorem keep_after_compaction_test (graph : PathHandleGraph) (ids : Extract.node_ids)
    (keep_bv : list bool) (h : handle_t) :
  Extract.not_compacted graph ids = false ->
  - two64 < Extract.min_node_id ids - Extract.max_node_id ids ->
  get_node_count graph + 1 < two64 ->
  length keep_bv = length (Extract.new_keep_bv graph) ->
  Extract.min_node_id ids <= Extract.get_id ids h <= Extract.max_node_id ids ->
  exists keep_bv',
    Extract.keep ids (Extract.min_node_id ids) keep_bv h = Some keep_bv' /\
    length keep_bv' = length keep_bv /\
    Z.of_nat (keep_index ids h) < get_node_count graph /\
    vec_get keep_bv' (keep_index ids h) = Some true /\
    (forall i, i <> keep_index ids h -> vec_get keep_bv' i = vec_get keep_bv i).
Proof.
  intros Hc Hrange Hn Hlen Hid.
  pose proof (keep_index_bound graph ids h Hc Hrange Hid) as Hb.
  assert (Hl : length keep_bv = Z.to_nat (get_node_count graph + 1)).
  { rewrite Hlen. unfold Extract.new_keep_bv, vec_resize. rewrite repeat_length.
    rewrite u64_small by lia. reflexivity. }
  unfold Extract.keep. fold (keep_index ids h).
  destruct (vec_set_some keep_bv (keep_index ids h) true ltac:(lia)) as [k' E].
  exists k'. split; [exact E |].
  destruct (vec_set_length _ _ _ _ E) as [L _].
  split; [exact L |]. split; [exact Hb |]. split.
  - apply (vec_get_set_same _ _ _ _ E).
  - intros i Hi. apply (vec_get_set_other _ _ _ _ _ E). exact Hi.
Qed.

Lemma keep_after_compaction_test_witness :
  exists keep_bv',
    Extract.keep Examples.three_ids (Extract.min_node_id Examples.three_ids)
      (Extract.new_keep_bv Examples.three_nodes) 4 = Some keep_bv' /\
    length keep_bv' = length (Extract.new_keep_bv Examples.three_nodes) /\
    Z.of_nat (keep_index Examples.three_ids 4) < get_node_count Examples.three_nodes /\
    vec_get keep_bv' (keep_index Examples.three_ids 4) = Some true /\
    (forall i, i <> keep_index Examples.three_ids 4 ->
       vec_get keep_bv' i = vec_get (Extract.new_keep_bv Examples.three_nodes) i).
Proof.
  apply (keep_after_compaction_test Examples.three_nodes Examples.three_ids
           (Extract.new_keep_bv Examples.three_nodes) 4).
  - reflexivity.
  - reflexivity.
  - reflexivity.
  - reflexivity.
  - vm_compute. split; discriminate.
Defined.

(** ** The pangenomic range *)

Lemma firstn_succ {A} (l : list A) (a : nat) (h : A) :
  nth_error l a = Some h -> firstn (S a) l = firstn a l ++ [h].
Proof.
  revert a. induction l as [| x t IH]; intros a H; [destruct a; discriminate |].
  destruct a as [| a]; cbn in H.
  - now injection H as <-.
  - cbn [firstn app]. f_equal. now apply IH.
Qed.

Lemma total_length_app (graph : PathHandleGraph) (l1 l2 : list handle_t) :
  total_length graph (l1 ++ l2) = total_length graph l1 + total_length graph l2.
Proof.
  induction l1 as [| x t IH]; cbn; [reflexivity |].
  fold (total_length graph (t ++ l2)). fold (total_length graph t). lia.
Qed.

Lemma pangenomic_fold (graph : PathHandleGraph) (ids : Extract.node_ids)
    (range : Z * Z) (hs : list handle_t) :
  forall (keep_bv : list bool) (len : Z),
  (forall h, In h hs -> (keep_index ids h < length keep_bv)%nat) ->
  (forall h, In h hs -> 0 <= get_length graph h) ->
  0 <= len -> len + total_length graph hs < two64 ->
  exists keep_bv',
    fold_left (Extract.pangenomic_step graph ids (Extract.min_node_id ids) range) hs
      (Some (keep_bv, len))
    = Some (keep_bv', len + total_length graph hs) /\
    length keep_bv' = length keep_bv /\
    (forall i, vec_get keep_bv' i = Some true <->
       vec_get keep_bv i = Some true \/
       exists k h, nth_error hs k = Some h /\ keep_index ids h = i /\
                   len + total_length graph (firstn k hs) <= snd range /\
                   fst range <= len + total_length graph (firstn k hs)
                                + get_length graph h).
Proof.
  induction hs as [| h t IH]; intros keep_bv len Hidx Hlen Hl Hsum.
  - exists keep_bv. cbn. rewrite Z.add_0_r. repeat split; auto.
    intros [H | (k & h & Hk & _)]; [exact H | destruct k; discriminate].
  - cbn [total_length fold_right] in Hsum. fold (total_length graph t) in Hsum.
    assert (Hh : 0 <= get_length graph h) by (apply Hlen; now left).
    assert (Ht : 0 <= total_length graph t).
    { apply total_length_nonneg. intros; apply Hlen; now right. }
    assert (Hstep : exists k1,
              Extract.pangenomic_step graph ids (Extract.min_node_id ids) range
                (Some (keep_bv, len)) h = Some (k1, len + get_length graph h) /\
              length k1 = length keep_bv /\
              (forall i, vec_get k1 i = Some true <->
                 vec_get keep_bv i = Some true \/
                 (keep_index ids h = i /\ len <= snd range /\
                  fst range <= len + get_length graph h))).
    { unfold Extract.pangenomic_step. cbn [obind fst snd].
      rewrite !u64_small by (unfold two64 in *; lia).
      destruct ((len <=? snd range) && (fst range <=? len + get_length graph h)) eqn:E.
      - apply andb_prop in E. destruct E as [E1 E2].
        apply Z.leb_le in E1. apply Z.leb_le in E2.
        unfold Extract.keep. fold (keep_index ids h).
        destruct (vec_set_some keep_bv (keep_index ids h) true
                    ltac:(apply Hidx; now left)) as [k1 Ek].
        destruct (vec_set_length _ _ _ _ Ek) as [L _].
        exists k1. rewrite Ek. cbn [obind]. split; [reflexivity |]. split; [exact L |].
        intros i. destruct (Nat.eq_dec i (keep_index ids h)) as [-> | Hne].
        + rewrite (vec_get_set_same _ _ _ _ Ek). split; [intros _; right; auto | auto].
        + rewrite (vec_get_set_other _ _ _ _ _ Ek) by exact Hne.
          split; [now left | intros [H | [H _]]; [exact H | congruence]].
      - exists keep_bv. cbn [obind]. split; [reflexivity |]. split; [reflexivity |].
        intros i. split; [now left | intros [H | (_ & H1 & H2)]; [exact H |]].
        apply Z.leb_le in H1. apply Z.leb_le in H2. rewrite H1, H2 in E. discriminate. }
    destruct Hstep as (k1 & Es & L1 & Hbits1).
    destruct (IH k1 (len + get_length graph h)
                ltac:(intros; rewrite L1; apply Hidx; now right)
                ltac:(intros; apply Hlen; now right) ltac:(lia) ltac:(lia))
      as (k' & Ef & L' & Hbits).
    exists k'. cbn [fold_left]. rewrite Es, Ef. cbn [total_length fold_right].
    fold (total_length graph t).
    split; [do 2 f_equal; lia |]. split; [lia |].
    intros i. rewrite Hbits, Hbits1. split.
    + intros [[H | (Hi & H1 & H2)] | (k & h' & Hk & Hi & H1 & H2)].
      * now left.
      * right. exists 0%nat, h. cbn. rewrite Z.add_0_r. auto.
      * right. exists (S k), h'. cbn [nth_error firstn total_length fold_right].
        fold (total_length graph (firstn k t)). repeat split; auto; lia.
    + intros [H | (k & h' & Hk & Hi & H1 & H2)]; [left; now left |].
      destruct k as [| k].
      * cbn in Hk. injection Hk as <-. cbn in H1, H2. rewrite Z.add_0_r in H1, H2.
        left. right. auto.
      * right. exists k, h'. cbn [nth_error firstn total_length fold_right] in *.
        fold (total_length graph (firstn k t)) in *. repeat split; auto; lia.
Qed.

(** X22.  What the pangenomic range keeps.  After the compaction test, the
    loop over the handles is defined and sets exactly the bits of the
    handles whose stretch of pangenomic positions, taken from its start to
    its end inclusive, meets the closed range [[first, second]].  Every
    handle holding a position of the range is among them, and they are
    consecutive in the iteration order. *)
Theorem pangenomic_range_keeps (graph : PathHandleGraph) (ids : Extract.node_ids)
    (range : Z * Z) :
  Extract.not_compacted graph ids = false ->
  - two64 < Extract.min_node_id ids - Extract.max_node_id ids ->
  0 <= get_node_count graph -> get_node_count graph + 1 < two64 ->
  (forall h, In h (for_each_handle graph) ->
     Extract.min_node_id ids <= Extract.get_id ids h <= Extract.max_node_id ids) ->
  (forall h, In h (for_each_handle graph) -> 0 <= get_length graph h) ->
  total_length graph (for_each_handle graph) < two64 ->
  exists keep_bv,
    Extract.mark_pangenomic_range graph ids range (Extract.new_keep_bv graph)
    = Some keep_bv /\
    length keep_bv = length (Extract.new_keep_bv graph) /\
    (forall i, vec_get keep_bv i = Some true <->
       exists k h, nth_error (for_each_handle graph) k = Some h /\
                   keep_index ids h = i /\ touches_range graph range k h) /\
    (forall k h q, nth_error (for_each_handle graph) k = Some h ->
       fst range <= q <= snd range ->
       length_before graph k <= q < length_before graph k + get_length graph h ->
       touches_range graph range k h) /\
    (forall k1 k2 k3 h1 h2 h3,
       (k1 <= k2 <= k3)%nat ->
       nth_error (for_each_handle graph) k1 = Some h1 ->
       nth_error (for_each_handle graph) k2 = Some h2 ->
       nth_error (for_each_handle graph) k3 = Some h3 ->
       touches_range graph range k1 h1 -> touches_range graph range k3 h3 ->
       touches_range graph range k2 h2).
Proof.
  intros Hc Hrange Hn0 Hn Hid Hlen Hsum.
  assert (Hl : length (Extract.new_keep_bv graph) = Z.to_nat (get_node_count graph + 1)).
  { unfold Extract.new_keep_bv, vec_resize. rewrite repeat_length.
    rewrite u64_small by lia. reflexivity. }
  assert (Hfalse : forall i, vec_get (Extract.new_keep_bv graph) i <> Some true).
  { intros i H. unfold vec_get in H. apply nth_error_In in H.
    unfold Extract.new_keep_bv, vec_resize in H. apply repeat_spec in H. discriminate. }
  destruct (pangenomic_fold graph ids range (for_each_handle graph)
              (Extract.new_keep_bv graph) 0) as (k' & Ef & L' & Hbits).
  { intros h Hh. rewrite Hl.
    pose proof (keep_index_bound graph ids h Hc Hrange (Hid h Hh)). lia. }
  { exact Hlen. }
  { lia. }
  { lia. }
  exists k'. split; [| split; [exact L' | split; [| split]]].
  - unfold Extract.mark_pangenomic_range. cbv zeta. rewrite Ef. reflexivity.
  - intros i. rewrite Hbits. unfold touches_range, length_before. split.
    + intros [H | (k & h & Hk & Hi & H1 & H2)]; [now apply Hfalse in H |].
      exists k, h. repeat split; auto; lia.
    + intros (k & h & Hk & Hi & H1 & H2). right. exists k, h. repeat split; auto; lia.
  - intros k h q Hk Hq Hpos. unfold touches_range. lia.
  - intros k1 k2 k3 h1 h2 h3 Hk Hk1 Hk2 Hk3 [A1 A2] [B1 B2]. unfold touches_range in *.
    assert (Hmono : forall a b, (a <= b)%nat ->
              length_before graph a <= length_before graph b).
    { intros a b Hab. unfold length_before.
      replace (firstn a (for_each_handle graph))
        with (firstn a (firstn b (for_each_handle graph)))
        by (rewrite firstn_firstn; f_equal; lia).
      apply total_length_firstn. intros h Hh. apply Hlen. now apply (in_firstn_in b). }
    assert (Hnext : forall a h, nth_error (for_each_handle graph) a = Some h ->
              length_before graph (S a) = length_before graph a + get_length graph h).
    { intros a h Ha. unfold length_before.
      rewrite (firstn_succ _ a h Ha), total_length_app. cbn. lia. }
    assert (Hh2 : 0 <= get_length graph h2).
    { apply Hlen. now apply nth_error_In with (n := k2). }
    split.
    + pose proof (Hmono k2 k3 ltac:(lia)). lia.
    + destruct (Nat.eq_dec k1 k2) as [-> | Hne].
      * rewrite Hk1 in Hk2. injection Hk2 as <-. lia.
      * pose proof (Hnext k1 h1 Hk1). pose proof (Hmono (S k1) k2 ltac:(lia)). lia.
Qed.

Lemma pangenomic_range_keeps_witness :
  exists keep_bv,
    Extract.mark_pangenomic_range Examples.three_nodes Examples.three_ids (5, 25)
      (Extract.new_keep_bv Examples.three_nodes) = Some keep_bv /\
    length keep_bv = length (Extract.new_keep_bv Examples.three_nodes) /\
    (forall i, vec_get keep_bv i = Some true <->
       exists k h, nth_error (for_each_handle Examples.three_nodes) k = Some h /\
                   keep_index Examples.three_ids h = i /\
                   touches_range Examples.three_nodes (5, 25) k h) /\
    (forall k h q, nth_error (for_each_handle Examples.three_nodes) k = Some h ->
       fst (5, 25) <= q <= snd (5, 25) ->
       length_before Examples.three_nodes k <= q
       < length_before Examples.three_nodes k + get_length Examples.three_nodes h ->
       touches_range Examples.three_nodes (5, 25) k h) /\
    (forall k1 k2 k3 h1 h2 h3,
       (k1 <= k2 <= k3)%nat ->
       nth_error (for_each_handle Examples.three_nodes) k1 = Some h1 ->
       nth_error (for_each_handle Examples.three_nodes) k2 = Some h2 ->
       nth_error (for_each_handle Examples.three_nodes) k3 = Some h3 ->
       touches_range Examples.three_nodes (5, 25) k1 h1 ->
       touches_range Examples.three_nodes (5, 25) k3 h3 ->
       touches_range Examples.three_nodes (5, 25) k2 h2).
Proof.
  apply (pangenomic_range_keeps Examples.three_nodes Examples.three_ids (5, 25)).
  - reflexivity.
  - reflexivity.
  - cbn. lia.
  - reflexivity.
  - cbn. intros h [<- | [<- | [<- | []]]]; vm_compute; split; discriminate.
  - cbn. intros h [<- | [<- | [<- | []]]]; vm_compute; discriminate.
  - vm_compute. reflexivity.
Defined.

(** With the range 5-25 on nodes of lengths 10, 20, 30 the first two nodes
    are kept. *)
Example pangenomic_range_example :
  Extract.mark_pangenomic_range Examples.three_nodes Examples.three_ids (5, 25)
    (Extract.new_keep_bv Examples.three_nodes)
  = Some [true; true; false; false].
Proof. reflexivity. Qed.

(** ** Files of path names *)

Lemma rank_injective (p q : Z) :
  0 <= p < two64 -> 0 <= q < two64 -> u64 (p - 1) = u64 (q - 1) -> p = q.
Proof.
  intros Hp Hq E. unfold u64 in E.
  assert (H2 : 0 < two64) by (unfold two64; lia).
  destruct (Z.eq_dec p 0) as [-> | Np]; destruct (Z.eq_dec q 0) as [-> | Nq].
  - reflexivity.
  - rewrite (Z.mod_small (q - 1)) in E by lia.
    replace (0 - 1) with (-1 + 1 * two64 - two64) in E by lia.
    replace (-1 + 1 * two64 - two64) with (two64 - 1 + (-1) * two64) in E by lia.
    rewrite Z.mod_add in E by lia. rewrite Z.mod_small in E by lia. lia.
  - rewrite (Z.mod_small (p - 1)) in E by lia.
    replace (0 - 1) with (two64 - 1 + (-1) * two64) in E by lia.
    rewrite Z.mod_add in E by lia. rewrite Z.mod_small in E by lia. lia.
  - rewrite !Z.mod_small in E by lia. lia.
Qed.

(** The reading loop, from any point of the file. *)
Lemma read_path_names_spec (graph : Extract.path_names) (lines : list String.string) :
  (forall line, 0 <= Extract.get_path_handle graph line < two64) ->
  forall (paths : list path_handle_t) (num : Z) (seen : list bool),
  NoDup paths ->
  (forall p, In p paths -> 0 <= p < two64) ->
  (forall r, vec_get seen r = Some true <->
     exists p, In p paths /\ Z.to_nat (u64 (p - 1)) = r) ->
  match Extract.read_path_names graph lines paths num seen with
  | Extract.Read paths' num' seen' =>
      paths' = paths ++ map (Extract.get_path_handle graph)
                          (filter (names_path graph) lines) /\
      NoDup paths'
  | Extract.Duplicated =>
      ~ NoDup (paths ++ map (Extract.get_path_handle graph)
                          (filter (names_path graph) lines))
  | Extract.ReadUndefined =>
      exists line, In line lines /\ names_path graph line = true /\
        (length seen <= Z.to_nat (u64 (Extract.get_path_handle graph line - 1)))%nat
  end.
Proof.
  intros Hh. induction lines as [| line rest IH]; intros paths num seen Hnd Hpr Hseen.
  - cbn. rewrite app_nil_r. now split.
  - cbn [Extract.read_path_names].
    assert (Hskip : names_path graph line = false ->
              forall num',
              match Extract.read_path_names graph rest paths num' seen with
              | Extract.Read paths' _ _ =>
                  paths' = paths ++ map (Extract.get_path_handle graph)
                                      (filter (names_path graph) (line :: rest)) /\
                  NoDup paths'
              | Extract.Duplicated =>
                  ~ NoDup (paths ++ map (Extract.get_path_handle graph)
                                      (filter (names_path graph) (line :: rest)))
              | Extract.ReadUndefined =>
                  exists l, In l (line :: rest) /\ names_path graph l = true /\
                    (length seen
                     <= Z.to_nat (u64 (Extract.get_path_handle graph l - 1)))%nat
              end).
    { intros Hnp num'. cbn [filter]. rewrite Hnp.
      specialize (IH paths num' seen Hnd Hpr Hseen).
      destruct (Extract.read_path_names graph rest paths num' seen);
        [exact IH | exact IH |].
      destruct IH as (l & Hl & Hv & Hr). exists l. split; [now right | now split]. }
    destruct (Extract.empty line) eqn:Ee.
    { apply Hskip. unfold names_path. now rewrite Ee. }
    destruct (Extract.has_path graph line) eqn:Ep.
    2:{ apply Hskip. unfold names_path. now rewrite Ee, Ep. }
    clear Hskip.
    assert (Hvalid : names_path graph line = true)
      by (unfold names_path; now rewrite Ee, Ep).
    cbn [filter]. rewrite Hvalid.
    set (p := Extract.get_path_handle graph line).
    set (r := Z.to_nat (u64 (p - 1))).
    destruct (vec_get seen r) as [[|] |] eqn:Eg.
    + (* already seen *)
      apply Hseen in Eg. destruct Eg as (q & Hq & Er).
      assert (q = p).
      { apply rank_injective; [now apply Hpr | apply Hh |].
        unfold r in Er. pose proof (Z.mod_pos_bound (q - 1) two64 ltac:(unfold two64; lia)).
        pose proof (Z.mod_pos_bound (p - 1) two64 ltac:(unfold two64; lia)).
        unfold u64 in *. lia. }
      subst q. intros Hn. cbn [map] in Hn.
      apply NoDup_remove_2 in Hn. apply Hn. apply in_or_app. now left.
    + (* first time *)
      assert (Hr : (r < length seen)%nat).
      { apply nth_error_Some. unfold vec_get in Eg. congruence. }
      destruct (vec_set_some seen r true Hr) as [seen' Es]. rewrite Es.
      destruct (vec_set_length _ _ _ _ Es) as [Ls _].
      assert (Hnotin : ~ In p paths).
      { intros Hin. assert (vec_get seen r = Some true) by (apply Hseen; now exists p).
        congruence. }
      specialize (IH (paths ++ [p]) (u64 (num + 1)) seen').
      assert (Hnd' : NoDup (paths ++ [p])).
      { apply NoDup_app; [exact Hnd | repeat constructor; intros [] |].
        intros a Ha [<- | []]. contradiction. }
      specialize (IH Hnd').
      assert (Hpr' : forall q, In q (paths ++ [p]) -> 0 <= q < two64).
      { intros q Hq. apply in_app_or in Hq. destruct Hq as [Hq | [<- | []]];
          [now apply Hpr | apply Hh]. }
      specialize (IH Hpr').
      assert (Hseen' : forall k, vec_get seen' k = Some true <->
                exists q, In q (paths ++ [p]) /\ Z.to_nat (u64 (q - 1)) = k).
      { intros k. destruct (Nat.eq_dec k r) as [-> | Hne].
        - rewrite (vec_get_set_same _ _ _ _ Es). split; [| auto].
          intros _. exists p. split; [apply in_or_app; right; now left | reflexivity].
        - rewrite (vec_get_set_other _ _ _ _ _ Es) by exact Hne. rewrite Hseen.
          split; intros (q & Hq & Ek).
          + exists q. split; [apply in_or_app; now left | exact Ek].
          + exists q. split; [| exact Ek].
            apply in_app_or in Hq. destruct Hq as [Hq | [<- | []]]; [exact Hq |].
            exfalso. apply Hne. now symmetry. }
      specialize (IH Hseen').
      destruct (Extract.read_path_names graph rest (paths ++ [p]) (u64 (num + 1)) seen').
      * cbn [map]. rewrite <- app_assoc in IH. exact IH.
      * cbn [map]. rewrite <- app_assoc in IH. exact IH.
      * destruct IH as (l & Hl & Hv & Hlen). exists l.
        split; [now right | split; [exact Hv | lia]].
    + (* outside the vector *)
      exists line. split; [now left |]. split; [exact Hvalid |].
      apply nth_error_None. exact Eg.
Qed.

(** X23.  The file of paths to consider.  With path handles that fit 64
    bits, the reading loop accepts the file exactly as the list of the paths
    its lines name, in file order (empty lines and unknown names are passed
    over): the accepted list has no repetition and is not empty; the
    program exits when no line names a path or when a path is named twice;
    and the only undefined case is a path whose handle minus one is not below
    [get_path_count]. *)
Theorem paths_from_file_spec (graph : Extract.path_names) (lines : list String.string) :
  (forall line, 0 <= Extract.get_path_handle graph line < two64) ->
  let named := map (Extract.get_path_handle graph) (filter (names_path graph) lines) in
  match Extract.paths_from_file graph lines with
  | Some (Some paths) => paths = named /\ NoDup paths /\ paths <> []
  | Some None => named = [] \/ ~ NoDup named
  | None =>
      exists line, In line lines /\ names_path graph line = true /\
        Z.to_nat (Extract.get_path_count graph)
        <= Z.to_nat (u64 (Extract.get_path_handle graph line - 1))
  end%nat.
Proof.
  intros Hh named. unfold Extract.paths_from_file.
  pose proof (read_path_names_spec graph lines Hh [] 0
                (vec_resize false (Extract.get_path_count graph))
                ltac:(constructor) ltac:(intros p []) ) as H.
  assert (Hinit : forall r,
            vec_get (vec_resize false (Extract.get_path_count graph)) r = Some true <->
            exists p, In p (@nil Z) /\ Z.to_nat (u64 (p - 1)) = r).
  { intros r. split.
    - intros E. unfold vec_get in E. apply nth_error_In in E.
      unfold vec_resize in E. apply repeat_spec in E. discriminate.
    - intros (p & [] & _). }
  specialize (H Hinit). cbn [app] in H. fold named in H.
  destruct (Extract.read_path_names graph lines [] 0
              (vec_resize false (Extract.get_path_count graph)))
    as [paths num seen | |].
  - destruct H as [E Hnd]. destruct paths as [| p t].
    + left. now symmetry.
    + split; [exact E |]. split; [exact Hnd | discriminate].
  - right. exact H.
  - destruct H as (line & Hl & Hv & Hlen). exists line.
    unfold vec_resize in Hlen. rewrite repeat_length in Hlen. auto.
Qed.

Lemma paths_from_file_spec_witness :
  let named := map (Extract.get_path_handle Examples.two_paths)
                 (filter (names_path Examples.two_paths) Examples.names_file) in
  match Extract.paths_from_file Examples.two_paths Examples.names_file with
  | Some (Some paths) => paths = named /\ NoDup paths /\ paths <> []
  | Some None => named = [] \/ ~ NoDup named
  | None =>
      exists line, In line Examples.names_file /\
        names_path Examples.two_paths line = true /\
        Z.to_nat (Extract.get_path_count Examples.two_paths)
        <= Z.to_nat (u64 (Extract.get_path_handle Examples.two_paths line - 1))
  end%nat.
Proof.
  apply (paths_from_file_spec Examples.two_paths Examples.names_file).
  intros line. cbn. destruct (String.eqb line "a"); vm_compute; (split; [discriminate | reflexivity]).
Defined.

(** A file naming [b], an unknown path and [a] gives the handles 2 and 1; a
    file naming [a] twice is refused. *)
Example paths_from_file_examples :
  Extract.paths_from_file Examples.two_paths Examples.names_file
  = Some (Some [2; 1]) /\
  Extract.paths_from_file Examples.two_paths Examples.repeated_file = Some None.
Proof. split; reflexivity. Qed.

Lemma existsb_eqb_in (p : Z) (l : list Z) : existsb (Z.eqb p) l = true <-> In p l.
Proof.
  rewrite existsb_exists. split.
  - intros (x & Hx & E). apply Z.eqb_eq in E. now subst.
  - intros H. exists p. split; [exact H | apply Z.eqb_refl].
Qed.

Lemma read_lace_paths_spec (graph : Extract.path_names) (lines : list String.string) :
  forall lace set : list path_handle_t,
  NoDup lace -> (forall p, In p set <-> In p lace) ->
  let r := Extract.read_lace_paths graph lines lace set in
  NoDup r /\
  (exists new, r = lace ++ new) /\
  (forall p, In p r <->
     In p lace \/
     In p (map (Extract.get_path_handle graph) (filter (names_path graph) lines))).
Proof.
  induction lines as [| line rest IH]; intros lace set Hnd Hset; cbv zeta.
  - cbn. split; [exact Hnd |]. split; [exists []; now rewrite app_nil_r |].
    intros p. tauto.
  - cbn [Extract.read_lace_paths filter]. fold (names_path graph line).
    destruct (names_path graph line) eqn:Ev.
    + destruct (existsb (Z.eqb (Extract.get_path_handle graph line)) set) eqn:Ex.
      * apply existsb_eqb_in in Ex. apply Hset in Ex.
        destruct (IH lace set Hnd Hset) as (H1 & H2 & H3).
        split; [exact H1 |]. split; [exact H2 |].
        intros p. rewrite H3. cbn [map In]. split; [tauto |].
        intros [H | [<- | H]]; tauto.
      * assert (Hnotin : ~ In (Extract.get_path_handle graph line) lace).
        { intros Hin. apply Hset in Hin. apply existsb_eqb_in in Hin. congruence. }
        destruct (IH (lace ++ [Extract.get_path_handle graph line])
                    (Extract.get_path_handle graph line :: set)) as (H1 & H2 & H3).
        { apply NoDup_app; [exact Hnd | repeat constructor; intros [] |].
          intros a Ha [<- | []]. contradiction. }
        { intros p. cbn [In]. rewrite in_app_iff, Hset. cbn [In]. tauto. }
        split; [exact H1 |]. split.
        -- destruct H2 as [new E]. eexists. rewrite E, <- app_assoc. reflexivity.
        -- intros p. rewrite H3, in_app_iff. cbn [map In]. tauto.
    + destruct (IH lace set Hnd Hset) as (H1 & H2 & H3). auto.
Qed.

(** X24.  The file of paths to lace.  Read from the start, the loop returns
    each path named in the file once, however often it is named: the result
    has no repetition and holds exactly the paths that some non-empty line
    names. *)
Theorem lace_paths_spec (graph : Extract.path_names) (lines : list String.string) :
  let lace_paths := Extract.read_lace_paths graph lines [] [] in
  NoDup lace_paths /\
  (forall p, In p lace_paths <->
     exists line, In line lines /\ names_path graph line = true /\
                  Extract.get_path_handle graph line = p) /\
  (length lace_paths <= length lines)%nat.
Proof.
  cbv zeta.
  destruct (read_lace_paths_spec graph lines [] [] ltac:(constructor)
              ltac:(intros p; reflexivity)) as (H1 & _ & H3).
  assert (Hmem : forall p, In p (Extract.read_lace_paths graph lines [] []) <->
            In p (map (Extract.get_path_handle graph) (filter (names_path graph) lines))).
  { intros p. rewrite H3. cbn [In]. tauto. }
  split; [exact H1 |]. split.
  - intros p. rewrite Hmem, in_map_iff. split.
    + intros (line & E & Hin). apply filter_In in Hin. exists line. tauto.
    + intros (line & Hin & Hv & E). exists line. split; [exact E |].
      apply filter_In. tauto.
  - apply Nat.le_trans with (length (map (Extract.get_path_handle graph)
                                       (filter (names_path graph) lines))).
    + apply NoDup_incl_length; [exact H1 |]. intros p Hp. now apply Hmem.
    + rewrite length_map. apply filter_length_le.
Qed.
